(** * GAPR [src/list.cpp]: the circular doubly-linked list with a cursor,
      and the stack built on it

    The C++ objects live in a store.  List nodes are cells of a finite map
    from addresses to [ListNode] records; [List] objects (and the [Stack]s
    that wrap one) are cells of a second finite map, so that two [List*]
    arguments may alias exactly as they can in the source.  Every member
    function is a computation in a state-and-failure monad over that store;
    reading or writing through an address that holds no object fails. *)

From Stdlib Require Import ZArith Lia.
From stdpp Require Import base option list gmap.

Local Open Scope Z_scope.

(** ** Machine integers *)

(** [int] is 32 bits wide.  Arithmetic is written with the two's-complement
    wrap-around of the targets the package is built for. *)
Definition INT_MAX : Z := 2147483647.
Definition INT_MIN : Z := -2147483648.

Definition wrap (z : Z) : Z := (z + 2147483648) `mod` 4294967296 - 2147483648.

Definition is_int (z : Z) : Prop := INT_MIN ≤ z ≤ INT_MAX.

(** ** Objects *)

Abbreviation loc := positive (only parsing).

(** The class declarations of [list.h] are not part of the sources at hand.
    [gObject] is the base class of boxed payloads; the one payload class the
    file defines is [gInt], a box around an [int] ([gInt::gInt] stores its
    argument in [data]). *)
Inductive gObject : Type :=
  | gInt (data : Z).

(** A [gObject*]: [None] is [NULL]. *)
Abbreviation gObject_ptr := (option gObject) (only parsing).

Record ListNode : Type := Node {
  _val : option gObject;
  _next : loc;
  _prev : loc
}.

Record List : Type := MkList {
  header : loc;
  win : loc;
  _index : Z;
  _length : Z
}.

Global Instance gObject_eq_dec : EqDecision gObject.
Proof. solve_decision. Defined.
Global Instance ListNode_eq_dec : EqDecision ListNode.
Proof. solve_decision. Defined.
Global Instance List_eq_dec : EqDecision List.
Proof. solve_decision. Defined.

Record mem : Type := Mem {
  nodes : gmap positive ListNode;
  lists : gmap positive List
}.

Definition mem_empty : mem := Mem ∅ ∅.

(** ** The monad *)

Definition M (A : Type) : Type := mem → option (A * mem).

Definition ret {A} (a : A) : M A := λ m, Some (a, m).

Definition bind {A B} (c : M A) (k : A → M B) : M B :=
  λ m, match c m with
       | Some (a, m') => k a m'
       | None => None
       end.

Definition fail {A} : M A := λ _, None.

Notation "'let*' x := c 'in' k" := (bind c (λ x, k))
  (at level 10, x name, c at level 100, k at level 200,
   format "'[v' 'let*'  x  :=  c  'in' '/' k ']'").
Notation "c ;;; k" := (bind c (λ _, k))
  (at level 100, k at level 200, right associativity).

(** ** Field access *)

Definition set_val (p : loc) (v : option gObject) (h : gmap positive ListNode) :=
  alter (λ n, Node v (_next n) (_prev n)) p h.
Definition set_next (p q : loc) (h : gmap positive ListNode) :=
  alter (λ n, Node (_val n) q (_prev n)) p h.
Definition set_prev (p q : loc) (h : gmap positive ListNode) :=
  alter (λ n, Node (_val n) (_next n) q) p h.

Definition upd_nodes (f : gmap positive ListNode → gmap positive ListNode) (m : mem) : mem :=
  Mem (f (nodes m)) (lists m).
Definition upd_list (l : loc) (L : List) (m : mem) : mem :=
  Mem (nodes m) (<[l := L]> (lists m)).

(** [p->f] for a node field. *)
Definition rd {A} (f : ListNode → A) (p : loc) : M A :=
  λ m, match nodes m !! p with
       | Some n => Some (f n, m)
       | None => None
       end.

(** [p->f = x] for a node field, [upd] being the heap update of that field. *)
Definition wr (upd : gmap positive ListNode → gmap positive ListNode) (p : loc) : M unit :=
  λ m, match nodes m !! p with
       | Some _ => Some (tt, upd_nodes upd m)
       | None => None
       end.

(** [l->f] and [l->f = x] for a field of a [List]. *)
Definition lrd {A} (f : List → A) (l : loc) : M A :=
  λ m, match lists m !! l with
       | Some L => Some (f L, m)
       | None => None
       end.

Definition lwr (f : List → List) (l : loc) : M unit :=
  λ m, match lists m !! l with
       | Some L => Some (tt, upd_list l (f L) m)
       | None => None
       end.

Definition with_win (w : loc) (L : List) : List := MkList (header L) w (_index L) (_length L).
Definition with_index (i : Z) (L : List) : List := MkList (header L) (win L) i (_length L).
Definition with_length (n : Z) (L : List) : List := MkList (header L) (win L) (_index L) n.

(** [new ListNode(val)] (with [val = NULL] for [new ListNode()]): the node
    is built at an address not in use, linked to itself. *)
Definition new_ListNode (val : option gObject) : M loc :=
  λ m, let p := fresh (dom (nodes m)) in
       Some (p, upd_nodes (insert p (Node val p p)) m).

(** [delete p] for a node. *)
Definition delete_ListNode (p : loc) : M unit := wr (delete p) p.

(** ** ListNode *)

Definition ListNode_next (this : loc) : M loc := rd _next this.
Definition ListNode_prev (this : loc) : M loc := rd _prev this.

Definition ListNode_insert (this b : loc) : M loc :=
  let* c := rd _next this in
  wr (set_next b c) b ;;;
  wr (set_prev b this) b ;;;
  wr (set_next this b) this ;;;
  wr (set_prev c b) c ;;;
  ret b.

Definition ListNode_remove (this : loc) : M loc :=
  let* p := rd _prev this in
  let* n := rd _next this in
  wr (set_next p n) p ;;;
  let* n := rd _next this in
  let* p := rd _prev this in
  wr (set_prev n p) n ;;;
  wr (set_prev this this) this ;;;
  wr (set_next this this) this ;;;
  ret this.

Definition ListNode_splice (this b : loc) : M unit :=
  let a := this in
  let* an := rd _next a in
  let* bn := rd _next b in
  wr (set_next a bn) a ;;;
  wr (set_next b an) b ;;;
  wr (set_prev an b) an ;;;
  wr (set_prev bn a) bn.

(** ** List *)

(** [List::List()], the object itself placed at an address not in use. *)
Definition List_new : M loc :=
  let* hd := new_ListNode None in
  λ m, let l := fresh (dom (lists m)) in
       Some (l, Mem (nodes m) (<[l := MkList hd hd 0 0]> (lists m))).

Definition List_insert (this : loc) (val : option gObject) : M (option gObject) :=
  let* b := new_ListNode val in
  let* w := lrd win this in
  ListNode_insert w b ;;;
  let* n := lrd _length this in
  lwr (with_length (wrap (n + 1))) this ;;;
  ret val.

Definition List_prepend (this : loc) (val : option gObject) : M (option gObject) :=
  let* b := new_ListNode val in
  let* hd := lrd header this in
  ListNode_insert hd b ;;;
  let* n := lrd _length this in
  lwr (with_length (wrap (n + 1))) this ;;;
  let* i := lrd _index this in
  (if decide (i > 0) then lwr (with_index (wrap (i + 1))) this else ret tt) ;;;
  ret val.

Definition List_append (this : loc) (val : option gObject) : M (option gObject) :=
  let* hd := lrd header this in
  let* a := ListNode_prev hd in
  let* b := new_ListNode val in
  ListNode_insert a b ;;;
  let* n := lrd _length this in
  lwr (with_length (wrap (n + 1))) this ;;;
  ret val.

(** [List::append(List *l)]. *)
Definition List_append_list (this l : loc) : M loc :=
  let* hd := lrd header this in
  let* a := ListNode_prev hd in
  let* lh := lrd header l in
  ListNode_splice a lh ;;;
  let* n := lrd _length this in
  let* ln := lrd _length l in
  lwr (with_length (wrap (n + ln))) this ;;;
  let* lh := lrd header l in
  ListNode_remove lh ;;;
  lwr (with_length 0) l ;;;
  let* lh := lrd header l in
  lwr (with_win lh) l ;;;
  ret this.

Definition List_remove (this : loc) : M (option gObject) :=
  let* w := lrd win this in
  let* hd := lrd header this in
  if decide (w = hd) then ret None else
  let* val := rd _val w in
  let* p := ListNode_prev w in
  lwr (with_win p) this ;;;
  let* w := lrd win this in
  let* x := ListNode_next w in
  let* x := ListNode_remove x in
  delete_ListNode x ;;;
  let* n := lrd _length this in
  lwr (with_length (wrap (n - 1))) this ;;;
  let* i := lrd _index this in
  lwr (with_index (wrap (i - 1))) this ;;;
  ret val.

(** [List::val(gObject *val)]. *)
Definition List_set_val (this : loc) (val : option gObject) : M (option gObject) :=
  let* w := lrd win this in
  let* hd := lrd header this in
  if decide (w ≠ hd) then
    let* oval := rd _val w in
    wr (set_val w val) w ;;;
    ret oval
  else ret None.

(** [List::val()]. *)
Definition List_val (this : loc) : M (option gObject) :=
  let* w := lrd win this in
  rd _val w.

(** A [for] loop whose body leaves the counter alone: [go] says whether the
    counter still passes the test, [step] is the increment.  [fuel] bounds
    the number of rounds; running out of it is a failure. *)
Fixpoint for_loop (fuel : nat) (go : Z → bool) (step : Z → Z) (body : Z → M unit) (i : Z) : M unit :=
  if go i then
    match fuel with
    | O => fail
    | S fuel' => body i ;;; for_loop fuel' go step body (step i)
    end
  else ret tt.

Definition List_GetAt (this : loc) (_pt : Z) : M (option gObject) :=
  let* n := lrd _length this in
  if decide (_pt < 1 ∨ _pt > n) then ret None else
  let* idx := lrd _index this in
  if decide (_pt < idx) then
    for_loop (Z.to_nat (idx - _pt)) (λ i, bool_decide (i > _pt)) (λ i, wrap (i - 1))
      (λ _, let* w := lrd win this in
            let* p := rd _prev w in
            lwr (with_win p) this) idx ;;;
    lwr (with_index _pt) this ;;;
    let* w := lrd win this in
    rd _val w
  else if decide (_pt > idx) then
    for_loop (Z.to_nat (_pt - idx)) (λ i, bool_decide (i < _pt)) (λ i, wrap (i + 1))
      (λ _, let* w := lrd win this in
            let* p := rd _next w in
            lwr (with_win p) this) idx ;;;
    lwr (with_index _pt) this ;;;
    let* w := lrd win this in
    rd _val w
  else
    let* w := lrd win this in
    rd _val w.

Definition List_next (this : loc) : M (option gObject) :=
  let* w := lrd win this in
  let* x := ListNode_next w in
  lwr (with_win x) this ;;;
  let* i := lrd _index this in
  lwr (with_index (wrap (i + 1))) this ;;;
  let* i := lrd _index this in
  let* n := lrd _length this in
  (if decide (i > n) then lwr (with_index 0) this else ret tt) ;;;
  let* w := lrd win this in
  rd _val w.

Definition List_prev (this : loc) : M (option gObject) :=
  let* w := lrd win this in
  let* x := ListNode_prev w in
  lwr (with_win x) this ;;;
  let* i := lrd _index this in
  lwr (with_index (wrap (i - 1))) this ;;;
  let* i := lrd _index this in
  (if decide (i < 0) then
     let* n := lrd _length this in
     lwr (with_index (wrap (wrap (n + i) + 1))) this
   else ret tt) ;;;
  let* w := lrd win this in
  rd _val w.

Definition List_first (this : loc) : M (option gObject) :=
  let* hd := lrd header this in
  let* x := ListNode_next hd in
  lwr (with_win x) this ;;;
  lwr (with_index 1) this ;;;
  let* w := lrd win this in
  rd _val w.

Definition List_last (this : loc) : M (option gObject) :=
  let* hd := lrd header this in
  let* x := ListNode_prev hd in
  lwr (with_win x) this ;;;
  let* n := lrd _length this in
  lwr (with_index n) this ;;;
  let* w := lrd win this in
  rd _val w.

Definition List_length (this : loc) : M Z := lrd _length this.

Definition List_isFirst (this : loc) : M bool :=
  let* w := lrd win this in
  let* hd := lrd header this in
  let* x := ListNode_next hd in
  let* n := lrd _length this in
  ret (bool_decide (w = x) && bool_decide (n > 0)).

Definition List_isLast (this : loc) : M bool :=
  let* w := lrd win this in
  let* hd := lrd header this in
  let* x := ListNode_prev hd in
  let* n := lrd _length this in
  ret (bool_decide (w = x) && bool_decide (n > 0)).

Definition List_isHead (this : loc) : M bool :=
  let* w := lrd win this in
  let* hd := lrd header this in
  ret (bool_decide (w = hd)).

(** ** Stack *)

(** A [Stack] has the single member [s], a [List]; the address of the stack
    is the address of that list. *)
Definition Stack_new : M loc := List_new.

Definition Stack_push (this : loc) (v : option gObject) : M unit :=
  List_prepend this v ;;; ret tt.

Definition Stack_pop (this : loc) : M (option gObject) :=
  List_first this ;;; List_remove this.

Definition Stack_empty (this : loc) : M bool :=
  let* n := List_length this in ret (bool_decide (n = 0)).

Definition Stack_size (this : loc) : M Z := List_length this.

Definition Stack_top (this : loc) : M (option gObject) := List_first this.

Definition Stack_nextToTop (this : loc) : M (option gObject) :=
  List_first this ;;; List_next this.

Definition Stack_bottom (this : loc) : M (option gObject) := List_last this.

(** ** list2vector *)

(** [ivector1_2(length)]: a block of [length] ints, none of them written
    yet, addressed from one ([out--]): [out[i]] is cell [i - 1] of the block. *)
Definition ivector1_2 (length : Z) : list (option Z) := replicate (Z.to_nat length) None.

Definition vec_get (out : list (option Z)) (i : Z) : option Z :=
  if decide (1 ≤ i) then mjoin (out !! Z.to_nat (i - 1)) else None.

(** [out[i] = d]; a write outside the block fails. *)
Definition vec_set (out : list (option Z)) (i : Z) (d : Z) : option (list (option Z)) :=
  if decide (1 ≤ i ≤ Z.of_nat (length out)) then Some (<[Z.to_nat (i - 1) := Some d]> out)
  else None.

(** The loop of [list2vector], the array threaded through the rounds. *)
Fixpoint list2vector_loop (fuel : nat) (lst : loc) (n : Z) (i : Z) (out : list (option Z))
    : M (list (option Z)) :=
  if decide (i ≤ n) then
    match fuel with
    | O => fail
    | S fuel' =>
        let* v := List_val lst in
        match v with
        | Some (gInt d) =>
            match vec_set out i d with
            | Some out' =>
                List_next lst ;;;
                list2vector_loop fuel' lst n (wrap (i + 1)) out'
            | None => fail
            end
        | None => fail
        end
    end
  else ret out.

Definition list2vector (lst : loc) : M (list (option Z)) :=
  let* n := List_length lst in
  let out := ivector1_2 n in
  List_first lst ;;;
  list2vector_loop (Z.to_nat n) lst n 1 out.

(** * Reasoning about the store *)

(** ** Fields of a node, read off a heap *)

Definition nextf (h : gmap positive ListNode) (p : loc) : option loc := _next <$> h !! p.
Definition prevf (h : gmap positive ListNode) (p : loc) : option loc := _prev <$> h !! p.
Definition valf (h : gmap positive ListNode) (p : loc) : option (option gObject) := _val <$> h !! p.
Definition alloc (h : gmap positive ListNode) (p : loc) : Prop := is_Some (h !! p).

Ltac field_alter :=
  unfold nextf, prevf, valf, set_next, set_prev, set_val;
  rewrite lookup_alter; repeat case_decide; simplify_eq; try done;
  match goal with |- context [?h !! ?p] => by destruct (h !! p) end.

Section fields.
Implicit Types (h : gmap positive ListNode) (p q x : positive).

Lemma nextf_alloc h p q : nextf h p = Some q → alloc h p.
Proof. unfold nextf, alloc. destruct (h !! p); [eauto | discriminate]. Qed.
Lemma prevf_alloc h p q : prevf h p = Some q → alloc h p.
Proof. unfold prevf, alloc. destruct (h !! p); [eauto | discriminate]. Qed.
Lemma valf_alloc h p v : valf h p = Some v → alloc h p.
Proof. unfold valf, alloc. destruct (h !! p); [eauto | discriminate]. Qed.

Lemma alloc_alter h f p x : alloc (alter f p h) x ↔ alloc h x.
Proof.
  unfold alloc. rewrite lookup_alter. case_decide; [subst|done].
  rewrite fmap_is_Some. done.
Qed.
Lemma alloc_set_next h p q x : alloc (set_next p q h) x ↔ alloc h x.
Proof. apply alloc_alter. Qed.
Lemma alloc_set_prev h p q x : alloc (set_prev p q h) x ↔ alloc h x.
Proof. apply alloc_alter. Qed.
Lemma alloc_set_val h p v x : alloc (set_val p v h) x ↔ alloc h x.
Proof. apply alloc_alter. Qed.

Lemma nextf_set_next h p q x :
  nextf (set_next p q h) x = if decide (x = p) then (λ _, q) <$> h !! p else nextf h x.
Proof. field_alter. Qed.
Lemma nextf_set_prev h p q x : nextf (set_prev p q h) x = nextf h x.
Proof. field_alter. Qed.
Lemma nextf_set_val h p v x : nextf (set_val p v h) x = nextf h x.
Proof. field_alter. Qed.

Lemma prevf_set_prev h p q x :
  prevf (set_prev p q h) x = if decide (x = p) then (λ _, q) <$> h !! p else prevf h x.
Proof. field_alter. Qed.
Lemma prevf_set_next h p q x : prevf (set_next p q h) x = prevf h x.
Proof. field_alter. Qed.
Lemma prevf_set_val h p v x : prevf (set_val p v h) x = prevf h x.
Proof. field_alter. Qed.

Lemma valf_set_next h p q x : valf (set_next p q h) x = valf h x.
Proof. field_alter. Qed.
Lemma valf_set_prev h p q x : valf (set_prev p q h) x = valf h x.
Proof. field_alter. Qed.
Lemma valf_set_val h p v x :
  valf (set_val p v h) x = if decide (x = p) then (λ _, v) <$> h !! p else valf h x.
Proof. field_alter. Qed.

Lemma const_fmap_alloc {A} h p (a : A) : alloc h p → (λ _, a) <$> h !! p = Some a.
Proof. intros [n ->]. done. Qed.
End fields.

Section fields_alloc.
Implicit Types (h : gmap positive ListNode) (p q x : positive).

Lemma nextf_insert h p n x :
  nextf (<[p := n]> h) x = if decide (x = p) then Some (_next n) else nextf h x.
Proof. unfold nextf. rewrite lookup_insert. repeat case_decide; by simplify_eq. Qed.
Lemma prevf_insert h p n x :
  prevf (<[p := n]> h) x = if decide (x = p) then Some (_prev n) else prevf h x.
Proof. unfold prevf. rewrite lookup_insert. repeat case_decide; by simplify_eq. Qed.
Lemma valf_insert h p n x :
  valf (<[p := n]> h) x = if decide (x = p) then Some (_val n) else valf h x.
Proof. unfold valf. rewrite lookup_insert. repeat case_decide; by simplify_eq. Qed.

Lemma nextf_delete h p x : x ≠ p → nextf (delete p h) x = nextf h x.
Proof. intros. unfold nextf. by rewrite lookup_delete_ne. Qed.
Lemma prevf_delete h p x : x ≠ p → prevf (delete p h) x = prevf h x.
Proof. intros. unfold prevf. by rewrite lookup_delete_ne. Qed.
Lemma valf_delete h p x : x ≠ p → valf (delete p h) x = valf h x.
Proof. intros. unfold valf. by rewrite lookup_delete_ne. Qed.

Lemma fresh_not_alloc h : ¬ alloc h (fresh (dom h)).
Proof. unfold alloc. rewrite <- elem_of_dom. apply is_fresh. Qed.
Lemma alloc_insert h p n x : alloc (<[p := n]> h) x ↔ x = p ∨ alloc h x.
Proof.
  unfold alloc. rewrite lookup_insert. case_decide; subst.
  - split; eauto.
  - split; [eauto | intros [?|?]; congruence || done].
Qed.
End fields_alloc.

(** ** Running the monad *)

Section exec.
Context {A B : Type}.
Implicit Types (m : mem) (p : positive).

Lemma bind_ret (a : A) (k : A → M B) m : bind (ret a) k m = k a m.
Proof. done. Qed.

Lemma bind_assoc {C} (c : M A) (k : A → M B) (k' : B → M C) m :
  bind (bind c k) k' m = bind c (λ a, bind (k a) k') m.
Proof. unfold bind. destruct (c m) as [[a m']|]; done. Qed.

Lemma bind_Some (c : M A) (k : A → M B) m a m' :
  c m = Some (a, m') → bind c k m = k a m'.
Proof. unfold bind. by intros ->. Qed.

Lemma bind_rd_next p q (k : positive → M B) m :
  nextf (nodes m) p = Some q → bind (rd _next p) k m = k q m.
Proof.
  unfold nextf, bind, rd. destruct (nodes m !! p); simpl; [|done]. by intros [= ->].
Qed.
Lemma bind_rd_prev p q (k : positive → M B) m :
  prevf (nodes m) p = Some q → bind (rd _prev p) k m = k q m.
Proof.
  unfold prevf, bind, rd. destruct (nodes m !! p); simpl; [|done]. by intros [= ->].
Qed.
Lemma bind_rd_val p v (k : option gObject → M B) m :
  valf (nodes m) p = Some v → bind (rd _val p) k m = k v m.
Proof.
  unfold valf, bind, rd. destruct (nodes m !! p); simpl; [|done]. by intros [= ->].
Qed.
Lemma bind_wr u p (k : unit → M B) m :
  alloc (nodes m) p → bind (wr u p) k m = k tt (upd_nodes u m).
Proof. unfold alloc, bind, wr. by intros [n ->]. Qed.

Lemma bind_lrd (f : List → A) l L (k : A → M B) m :
  lists m !! l = Some L → bind (lrd f l) k m = k (f L) m.
Proof. unfold bind, lrd. by intros ->. Qed.
Lemma bind_lwr f l L (k : unit → M B) m :
  lists m !! l = Some L → bind (lwr f l) k m = k tt (upd_list l (f L) m).
Proof. unfold bind, lwr. by intros ->. Qed.
End exec.

Lemma rd_val_Some p v m : valf (nodes m) p = Some v → rd _val p m = Some (v, m).
Proof.
  unfold valf, rd. destruct (nodes m !! p); simpl; [|done]. by intros [= ->].
Qed.
Lemma rd_next_Some p q m : nextf (nodes m) p = Some q → rd _next p m = Some (q, m).
Proof.
  unfold nextf, rd. destruct (nodes m !! p); simpl; [|done]. by intros [= ->].
Qed.
Lemma rd_prev_Some p q m : prevf (nodes m) p = Some q → rd _prev p m = Some (q, m).
Proof.
  unfold prevf, rd. destruct (nodes m !! p); simpl; [|done]. by intros [= ->].
Qed.
Lemma wr_Some u p m : alloc (nodes m) p → wr u p m = Some (tt, upd_nodes u m).
Proof. unfold alloc, wr. by intros [n ->]. Qed.
Lemma lwr_Some f l L m : lists m !! l = Some L → lwr f l m = Some (tt, upd_list l (f L) m).
Proof. unfold lwr. by intros ->. Qed.

Lemma lists_upd_list l L m : lists (upd_list l L m) !! l = Some L.
Proof. simpl. apply lookup_insert_eq. Qed.
Lemma upd_list_upd_list l L L' m : upd_list l L (upd_list l L' m) = upd_list l L m.
Proof. unfold upd_list. simpl. by rewrite insert_insert_eq. Qed.
Lemma upd_list_id l L m : lists m !! l = Some L → upd_list l L m = m.
Proof. intros. destruct m. unfold upd_list. simpl in *. by rewrite insert_id. Qed.

(** ** The heaps the three node functions produce *)

Definition ins_heap (w b c : loc) (h : gmap positive ListNode) :=
  set_prev c b (set_next w b (set_prev b w (set_next b c h))).
Definition rem_heap (p w n : loc) (h : gmap positive ListNode) :=
  set_next w w (set_prev w w (set_prev n p (set_next p n h))).
Definition splice_heap (a b an bn : loc) (h : gmap positive ListNode) :=
  set_prev bn a (set_prev an b (set_next b an (set_next a bn h))).

Section node_exec.
Implicit Types (h : gmap positive ListNode) (m : mem).

Lemma ListNode_insert_exec m w b c :
  nextf (nodes m) w = Some c → alloc (nodes m) b → alloc (nodes m) c →
  ListNode_insert w b m = Some (b, upd_nodes (ins_heap w b c) m).
Proof.
  intros Hw Hb Hc. pose proof (nextf_alloc _ _ _ Hw) as Hw'.
  unfold ListNode_insert. rewrite (bind_rd_next _ c) by done.
  rewrite bind_wr by done.
  rewrite bind_wr by (simpl; by rewrite alloc_set_next).
  rewrite bind_wr by (simpl; by rewrite alloc_set_prev, alloc_set_next).
  rewrite bind_wr by (simpl; by rewrite !alloc_set_next, alloc_set_prev, alloc_set_next).
  done.
Qed.

Lemma nextf_ins_heap h w b c x :
  alloc h w → alloc h b → w ≠ b →
  nextf (ins_heap w b c h) x =
    if decide (x = w) then Some b else if decide (x = b) then Some c else nextf h x.
Proof.
  intros Hw Hb Hne. unfold ins_heap.
  rewrite nextf_set_prev, nextf_set_next, nextf_set_prev, nextf_set_next.
  repeat case_decide; simplify_eq; try done.
  - apply const_fmap_alloc. by rewrite alloc_set_prev, alloc_set_next.
  - by apply const_fmap_alloc.
Qed.

Lemma prevf_ins_heap h w b c x :
  alloc h c → alloc h b → c ≠ b →
  prevf (ins_heap w b c h) x =
    if decide (x = c) then Some b else if decide (x = b) then Some w else prevf h x.
Proof.
  intros Hc Hb Hne. unfold ins_heap.
  rewrite prevf_set_prev, prevf_set_next, prevf_set_prev, prevf_set_next.
  repeat case_decide; simplify_eq; try done.
  - apply const_fmap_alloc. by rewrite alloc_set_next, alloc_set_prev, alloc_set_next.
  - apply const_fmap_alloc. by rewrite alloc_set_next.
Qed.

Lemma valf_ins_heap h w b c x : valf (ins_heap w b c h) x = valf h x.
Proof.
  unfold ins_heap. by rewrite valf_set_prev, valf_set_next, valf_set_prev, valf_set_next.
Qed.

Lemma alloc_ins_heap h w b c x : alloc (ins_heap w b c h) x ↔ alloc h x.
Proof.
  unfold ins_heap. by rewrite alloc_set_prev, alloc_set_next, alloc_set_prev, alloc_set_next.
Qed.

Lemma ListNode_remove_exec m p w n :
  prevf (nodes m) w = Some p → nextf (nodes m) w = Some n →
  alloc (nodes m) p → alloc (nodes m) n →
  ListNode_remove w m = Some (w, upd_nodes (rem_heap p w n) m).
Proof.
  intros Hp Hn Hap Han. pose proof (nextf_alloc _ _ _ Hn) as Hw.
  unfold ListNode_remove.
  rewrite (bind_rd_prev _ p) by done. rewrite (bind_rd_next _ n) by done.
  rewrite bind_wr by done.
  (* after [_prev->_next = _next] the node's own [_next] is [n] still, or
     was just set to [n] when the node is its own predecessor *)
  rewrite (bind_rd_next _ n).
  2:{ simpl. rewrite nextf_set_next. case_decide; [subst; by apply const_fmap_alloc|done]. }
  rewrite (bind_rd_prev _ p) by (simpl; by rewrite prevf_set_next).
  rewrite bind_wr by (simpl; by rewrite alloc_set_next).
  rewrite bind_wr by (simpl; by rewrite alloc_set_prev, alloc_set_next).
  rewrite bind_wr by (simpl; by rewrite !alloc_set_prev, alloc_set_next).
  done.
Qed.

Lemma nextf_rem_heap h p w n x :
  alloc h w → alloc h p →
  nextf (rem_heap p w n h) x =
    if decide (x = w) then Some w else if decide (x = p) then Some n else nextf h x.
Proof.
  intros Hw Hp. unfold rem_heap.
  rewrite nextf_set_next, !nextf_set_prev, nextf_set_next.
  repeat case_decide; simplify_eq; try done.
  - apply const_fmap_alloc. by rewrite !alloc_set_prev, alloc_set_next.
  - by apply const_fmap_alloc.
Qed.

Lemma prevf_rem_heap h p w n x :
  alloc h w → alloc h n →
  prevf (rem_heap p w n h) x =
    if decide (x = w) then Some w else if decide (x = n) then Some p else prevf h x.
Proof.
  intros Hw Hn. unfold rem_heap.
  rewrite prevf_set_next, !prevf_set_prev, prevf_set_next.
  repeat case_decide; simplify_eq; try done.
  - apply const_fmap_alloc. by rewrite !alloc_set_prev, alloc_set_next.
  - apply const_fmap_alloc. by rewrite alloc_set_next.
Qed.

Lemma valf_rem_heap h p w n x : valf (rem_heap p w n h) x = valf h x.
Proof.
  unfold rem_heap. by rewrite valf_set_next, !valf_set_prev, valf_set_next.
Qed.

Lemma alloc_rem_heap h p w n x : alloc (rem_heap p w n h) x ↔ alloc h x.
Proof.
  unfold rem_heap. by rewrite alloc_set_next, !alloc_set_prev, alloc_set_next.
Qed.

Lemma ListNode_splice_exec m a b an bn :
  nextf (nodes m) a = Some an → nextf (nodes m) b = Some bn →
  alloc (nodes m) an → alloc (nodes m) bn →
  ListNode_splice a b m = Some (tt, upd_nodes (splice_heap a b an bn) m).
Proof.
  intros Ha Hb Han Hbn.
  pose proof (nextf_alloc _ _ _ Ha). pose proof (nextf_alloc _ _ _ Hb).
  unfold ListNode_splice.
  rewrite (bind_rd_next _ an) by done. rewrite (bind_rd_next _ bn) by done.
  rewrite bind_wr by done.
  rewrite bind_wr by (simpl; by rewrite alloc_set_next).
  rewrite bind_wr by (simpl; by rewrite !alloc_set_next).
  rewrite wr_Some by (simpl; by rewrite alloc_set_prev, !alloc_set_next).
  done.
Qed.

Lemma nextf_splice_heap h a b an bn x :
  alloc h a → alloc h b →
  nextf (splice_heap a b an bn h) x =
    if decide (x = b) then Some an else if decide (x = a) then Some bn else nextf h x.
Proof.
  intros Ha Hb. unfold splice_heap.
  rewrite !nextf_set_prev, !nextf_set_next.
  repeat case_decide; simplify_eq; try done.
  - apply const_fmap_alloc. by rewrite alloc_set_next.
  - by apply const_fmap_alloc.
Qed.

Lemma prevf_splice_heap h a b an bn x :
  alloc h an → alloc h bn →
  prevf (splice_heap a b an bn h) x =
    if decide (x = bn) then Some a else if decide (x = an) then Some b else prevf h x.
Proof.
  intros Ha Hb. unfold splice_heap.
  rewrite !prevf_set_prev, !prevf_set_next.
  repeat case_decide; simplify_eq; try done.
  - apply const_fmap_alloc. by rewrite alloc_set_prev, !alloc_set_next.
  - apply const_fmap_alloc. by rewrite !alloc_set_next.
Qed.

Lemma valf_splice_heap h a b an bn x : valf (splice_heap a b an bn h) x = valf h x.
Proof.
  unfold splice_heap. by rewrite !valf_set_prev, !valf_set_next.
Qed.

Lemma alloc_splice_heap h a b an bn x : alloc (splice_heap a b an bn h) x ↔ alloc h x.
Proof.
  unfold splice_heap. by rewrite !alloc_set_prev, !alloc_set_next.
Qed.
End node_exec.

(** ** Rings *)

(** [edge h a b]: [b] follows [a], and both nodes say so. *)
Definition edge (h : gmap positive ListNode) (a b : loc) : Prop :=
  nextf h a = Some b ∧ prevf h b = Some a.

(** [path h a ns z]: the nodes [a], [ns], [z] are linked in this order. *)
Fixpoint path (h : gmap positive ListNode) (a : loc) (ns : list positive) (z : loc) : Prop :=
  match ns with
  | [] => edge h a z
  | c :: ns' => edge h a c ∧ path h c ns' z
  end.

(** [ring h hd ns]: the ring of the sentinel [hd] holds the nodes [ns], in
    this order, and closes on [hd]. *)
Definition ring (h : gmap positive ListNode) (hd : loc) (ns : list positive) : Prop :=
  NoDup (hd :: ns) ∧ path h hd ns hd.

(** The head of a list, or [z] when there is none; likewise its last. *)
Definition hdd (z : positive) (l : list positive) : positive := default z (head l).
Definition lastd (a : positive) (l : list positive) : positive := default a (last l).

Section rings.
Implicit Types (h : gmap positive ListNode) (a b c p w x y z hd : positive)
               (l ns : list positive).

Lemma lastd_cons a x l : lastd a (x :: l) = lastd x l.
Proof. unfold lastd. rewrite last_cons. by destruct (last l). Qed.

Lemma lastd_elem a l : lastd a l ∈ a :: l.
Proof.
  revert a. induction l as [|x l IH]; intros a; [set_solver|].
  rewrite lastd_cons. specialize (IH x). set_solver.
Qed.

Lemma hdd_elem z l : hdd z l ∈ l ++ [z].
Proof. destruct l; unfold hdd; simpl; set_solver. Qed.

Lemma lastd_snoc a l x : lastd a (l ++ [x]) = x.
Proof. unfold lastd. by rewrite last_snoc. Qed.

Lemma path_app h a l1 x l2 z :
  path h a (l1 ++ x :: l2) z ↔ path h a l1 x ∧ path h x l2 z.
Proof.
  revert a. induction l1 as [|y l1 IH]; intros a; simpl; [done|].
  rewrite IH. tauto.
Qed.

Lemma path_snoc h a l x z : path h a (l ++ [x]) z ↔ path h a l x ∧ edge h x z.
Proof. apply path_app. Qed.

Lemma path_ext h h' a l z :
  path h a l z →
  (∀ x, x ∈ a :: l → nextf h' x = nextf h x) →
  (∀ y, y ∈ l ++ [z] → prevf h' y = prevf h y) →
  path h' a l z.
Proof.
  revert a. induction l as [|c l IH]; intros a; simpl.
  - intros [Hn Hp] Hs Ht. split.
    + rewrite Hs; [done | set_solver].
    + rewrite Ht; [done | set_solver].
  - intros [[Hn Hp] Hr] Hs Ht. split; [split|].
    + rewrite Hs; [done | set_solver].
    + rewrite Ht; [done | set_solver].
    + apply IH; [done | |]; intros; [apply Hs | apply Ht]; set_solver.
Qed.

Lemma path_next h a l z : path h a l z → nextf h a = Some (hdd z l).
Proof. destruct l; simpl; intros H; apply H. Qed.

Lemma path_prev h a l z : path h a l z → prevf h z = Some (lastd a l).
Proof.
  revert a. induction l as [|c l IH]; intros a; simpl.
  - intros H; apply H.
  - intros [_ H]. rewrite lastd_cons. by apply IH.
Qed.

(** Node [i] of the sources [a :: l] is followed by node [i] of the
    targets [l ++ [z]]. *)
Lemma path_next_lookup h a l z i x :
  path h a l z → (a :: l) !! i = Some x → nextf h x = (l ++ [z]) !! i.
Proof.
  revert a i. induction l as [|c l IH]; intros a i; simpl.
  - intros [Hn _]. destruct i; [|done]. by intros [= <-].
  - intros [[Hn _] Hr]. destruct i as [|i]; [by intros [= <-]|].
    simpl. by apply IH.
Qed.

Lemma path_prev_lookup h a l z i y :
  path h a l z → (l ++ [z]) !! i = Some y → prevf h y = (a :: l) !! i.
Proof.
  revert a i. induction l as [|c l IH]; intros a i; simpl.
  - intros [_ Hp]. destruct i; [|done]. by intros [= <-].
  - intros [[_ Hp] Hr]. destruct i as [|i]; [by intros [= <-]|].
    simpl. by apply IH.
Qed.

Lemma path_alloc h a l z x : path h a l z → x ∈ a :: l ++ [z] → alloc h x.
Proof.
  intros Hp Hx. apply elem_of_cons in Hx as [->|Hx].
  - eapply nextf_alloc, path_next; eauto.
  - apply list_elem_of_lookup in Hx as [i Hi].
    pose proof (path_prev_lookup _ _ _ _ _ _ Hp Hi) as Hy.
    assert (is_Some ((a :: l) !! i)) as [y' Hy'].
    { apply lookup_lt_is_Some. apply lookup_lt_Some in Hi.
      rewrite length_app in Hi. simpl in *. lia. }
    rewrite Hy' in Hy. eapply prevf_alloc; eauto.
Qed.

Lemma ring_alloc h hd ns x : ring h hd ns → x ∈ hd :: ns → alloc h x.
Proof. intros [_ Hp] Hx. eapply path_alloc; [done|]. set_solver. Qed.

Lemma NoDup_snoc_of_cons x l : NoDup (x :: l) → NoDup (l ++ [x]).
Proof. intros H. by rewrite <- Permutation_cons_append. Qed.

(** *** A node put in after [w] *)

Lemma path_insert h h' w l z b :
  path h w l z → NoDup (w :: l) → NoDup (l ++ [z]) → b ∉ w :: l ++ [z] →
  (∀ x, nextf h' x =
          if decide (x = w) then Some b
          else if decide (x = b) then Some (hdd z l) else nextf h x) →
  (∀ x, prevf h' x =
          if decide (x = hdd z l) then Some b
          else if decide (x = b) then Some w else prevf h x) →
  path h' w (b :: l) z.
Proof.
  intros Hp Hs Ht Hb Hn Hv. simpl. split; [split|].
  - rewrite Hn. by rewrite decide_True.
  - rewrite Hv. rewrite decide_False, decide_True; [done..|].
    intros ->. apply Hb. pose proof (hdd_elem z l). set_solver.
  - destruct l as [|c l]; simpl in *.
    + unfold hdd in *; simpl in *. split.
      * rewrite Hn. rewrite decide_False, decide_True; [done..|]. set_solver.
      * rewrite Hv. by rewrite decide_True.
    + unfold hdd in *; simpl in *. destruct Hp as [_ Hp]. split; [split|].
      * rewrite Hn. rewrite decide_False, decide_True; [done..|]. set_solver.
      * rewrite Hv. by rewrite decide_True.
      * apply NoDup_cons in Hs as [Hw Hs]. apply NoDup_cons in Ht as [Hc Ht].
        eapply path_ext; [done| |].
        -- intros x Hx. rewrite Hn. rewrite !decide_False; [done|set_solver|set_solver].
        -- intros y Hy. rewrite Hv. rewrite !decide_False; [done|set_solver|set_solver].
Qed.

Lemma ring_insert h h' hd ns k w b c :
  ring h hd ns → (hd :: ns) !! k = Some w → b ∉ hd :: ns →
  nextf h w = Some c →
  (∀ x, nextf h' x =
          if decide (x = w) then Some b
          else if decide (x = b) then Some c else nextf h x) →
  (∀ x, prevf h' x =
          if decide (x = c) then Some b
          else if decide (x = b) then Some w else prevf h x) →
  ring h' hd (take k ns ++ b :: drop k ns).
Proof.
  intros [Hnd Hp] Hk Hb Hc Hn Hv. split.
  - rewrite <- Permutation_middle, take_drop.
    apply NoDup_cons in Hnd as [Hhd Hnd]. rewrite !NoDup_cons. set_solver.
  - destruct k as [|k]; simpl in Hk.
    + injection Hk as <-. rewrite take_0, drop_0. simpl app.
      pose proof (path_next _ _ _ _ Hp) as Hc'. rewrite Hc in Hc'. injection Hc' as ->.
      eapply path_insert; [done|done|by apply NoDup_snoc_of_cons| |done|done].
      set_solver.
    + pose proof (take_drop_middle _ _ _ Hk) as Hsplit.
      rewrite <- Hsplit in Hp, Hnd, Hb. apply path_app in Hp as [Hp1 Hp2].
      pose proof (path_next _ _ _ _ Hp2) as Hc'. rewrite Hc in Hc'. injection Hc' as ->.
      rewrite (take_S_r _ _ _ Hk), <- app_assoc. simpl app.
      apply NoDup_cons in Hnd as [Hhd Hnd].
      apply NoDup_app in Hnd as (Hnd1 & Hdis & Hnd2).
      apply NoDup_cons in Hnd2 as [Hw Hnd2].
      apply path_app. split.
      * eapply path_ext; [done| |].
        -- intros x Hx. rewrite Hn. rewrite !decide_False; [done| |].
           ++ intros ->. set_solver.
           ++ intros ->. apply elem_of_cons in Hx as [->|Hx]; [set_solver|].
              by apply (Hdis w); [|left].
        -- intros y Hy. rewrite Hv. rewrite !decide_False; [done| |].
           ++ intros ->. set_solver.
           ++ intros ->. pose proof (hdd_elem hd (drop (S k) ns)) as He.
              apply elem_of_app in He as [He|He%list_elem_of_singleton].
              ** apply elem_of_app in Hy as [Hy|Hy%list_elem_of_singleton].
                 --- apply (Hdis _ Hy). by right.
                 --- rewrite Hy in He. done.
              ** rewrite He in Hy. apply elem_of_app in Hy as [Hy|Hy%list_elem_of_singleton].
                 --- apply Hhd. set_solver.
                 --- apply Hhd. rewrite Hy. set_solver.
      * eapply path_insert; [done| | | |done|done].
        -- by apply NoDup_cons.
        -- apply NoDup_app. split; [done|]. split; [|apply NoDup_singleton].
           intros x Hx ->%list_elem_of_singleton. apply Hhd. set_solver.
        -- set_solver.
Qed.
End rings.

Section rings_unlink.
Implicit Types (h : gmap positive ListNode) (a b c p w x y z hd : positive)
               (l ns : list positive).

(** *** A node taken out *)

Lemma path_remove h h' a l1 w l2 z :
  path h a (l1 ++ w :: l2) z →
  NoDup (a :: l1 ++ w :: l2) → NoDup (l1 ++ w :: l2 ++ [z]) →
  (∀ x, x ≠ w → nextf h' x =
          if decide (x = lastd a l1) then Some (hdd z l2) else nextf h x) →
  (∀ x, x ≠ w → prevf h' x =
          if decide (x = hdd z l2) then Some (lastd a l1) else prevf h x) →
  path h' a (l1 ++ l2) z.
Proof.
  revert a. induction l1 as [|c l1 IH]; intros a Hp Hs Ht Hn Hv.
  - simpl in *. destruct Hp as [Ha Hp]. unfold lastd in *; simpl in *.
    apply NoDup_cons in Hs as [Haw Hs]. apply NoDup_cons in Ht as [Hwt Ht].
    assert (a ≠ w) by set_solver.
    destruct l2 as [|n l2]; unfold hdd in *; simpl in *.
    + assert (z ≠ w) by set_solver. split.
      * rewrite Hn by done. by rewrite decide_True.
      * rewrite Hv by done. by rewrite decide_True.
    + destruct Hp as [Hwn Hp]. assert (n ≠ w) by set_solver. split; [split|].
      * rewrite Hn by done. by rewrite decide_True.
      * rewrite Hv by done. by rewrite decide_True.
      * apply NoDup_cons in Hs as [Hwl Hs]. apply NoDup_cons in Ht as [Hnt Ht].
        eapply path_ext; [done| |].
        -- intros x Hx. rewrite Hn by set_solver. rewrite decide_False; [done|set_solver].
        -- intros y Hy. rewrite Hv by set_solver. rewrite decide_False; [done|set_solver].
  - simpl in Hp. destruct Hp as [[Hac Hca] Hp]. rewrite lastd_cons in Hn, Hv.
    simpl. split; [split|].
    + rewrite Hn.
      * rewrite decide_False; [done|]. intros ->.
        apply NoDup_cons in Hs as [Hs _]. apply Hs.
        pose proof (lastd_elem c l1). set_solver.
      * apply NoDup_cons in Hs as [Hs _]. set_solver.
    + simpl in Ht. apply NoDup_cons in Ht as [Ht _]. rewrite Hv.
      * rewrite decide_False; [done|]. intros ->. apply Ht.
        pose proof (hdd_elem z l2). set_solver.
      * set_solver.
    + apply IH; [done| | |done|done].
      * by apply NoDup_cons in Hs as [_ Hs].
      * simpl in Ht. by apply NoDup_cons in Ht as [_ Ht].
Qed.

Lemma ring_remove h h' hd ns k w p n :
  ring h hd ns → ns !! k = Some w →
  prevf h w = Some p → nextf h w = Some n →
  (∀ x, x ≠ w → nextf h' x = if decide (x = p) then Some n else nextf h x) →
  (∀ x, x ≠ w → prevf h' x = if decide (x = n) then Some p else prevf h x) →
  ring h' hd (delete k ns).
Proof.
  intros [Hnd Hp] Hk Hpw Hnw Hn Hv.
  pose proof (take_drop_middle _ _ _ Hk) as Hsplit.
  rewrite delete_take_drop. rewrite <- Hsplit in Hp, Hnd.
  pose proof Hp as Hp'. apply path_app in Hp' as [Hp1 Hp2].
  pose proof (path_prev _ _ _ _ Hp1) as E1. rewrite Hpw in E1. injection E1 as ->.
  pose proof (path_next _ _ _ _ Hp2) as E2. rewrite Hnw in E2. injection E2 as ->.
  split.
  - apply NoDup_cons in Hnd as [Hhd Hnd]. apply NoDup_cons. split.
    + set_solver.
    + apply NoDup_app in Hnd as (H1 & H2 & H3). apply NoDup_cons in H3 as [H3 H4].
      apply NoDup_app. split; [done|]. split; [|done]. set_solver.
  - eapply path_remove; [done|done| |done|done].
    replace (take k ns ++ w :: drop (S k) ns ++ [hd])
      with ((take k ns ++ w :: drop (S k) ns) ++ [hd]) by (by rewrite <- app_assoc).
    by apply NoDup_snoc_of_cons.
Qed.

(** After the removal the node is a ring of its own. *)
Lemma rem_heap_singleton h p w n :
  alloc h w → alloc h p → alloc h n →
  nextf (rem_heap p w n h) w = Some w ∧ prevf (rem_heap p w n h) w = Some w.
Proof.
  intros. rewrite nextf_rem_heap, prevf_rem_heap by done.
  by rewrite !decide_True.
Qed.

(** *** Two rings made one *)

Lemma path_last_edge h a l z : path h a l z → edge h (lastd a l) z.
Proof.
  revert a. induction l as [|c l IH]; intros a; simpl; [done|].
  intros [_ H]. rewrite lastd_cons. by apply IH.
Qed.

(** The nodes of the second ring, entered from [a] instead of from their
    own sentinel [b]. *)
Lemma path_reenter h h' a b l an :
  path h b l b → NoDup (b :: l) → a ∉ b :: l → an ∉ b :: l →
  (∀ x, nextf h' x =
          if decide (x = b) then Some an
          else if decide (x = a) then Some (hdd b l) else nextf h x) →
  (∀ x, prevf h' x =
          if decide (x = hdd b l) then Some a
          else if decide (x = an) then Some b else prevf h x) →
  path h' a l b.
Proof.
  intros Hp Hnd Ha Han Hn Hv.
  destruct l as [|c l]; unfold hdd in *; simpl in *.
  - split.
    + rewrite Hn. rewrite decide_False, decide_True; [done..|]. set_solver.
    + rewrite Hv. by rewrite decide_True.
  - destruct Hp as [Hbc Hp]. split; [split|].
    + rewrite Hn. rewrite decide_False, decide_True; [done..|]. set_solver.
    + rewrite Hv. by rewrite decide_True.
    + apply NoDup_cons in Hnd as [Hb Hnd]. apply NoDup_cons in Hnd as [Hc Hnd].
      eapply path_ext; [done| |].
      * intros x Hx. rewrite Hn. rewrite !decide_False; [done| |]; set_solver.
      * intros y Hy. rewrite Hv. rewrite !decide_False; [done| |]; set_solver.
Qed.

Lemma ring_splice h h' ha la hb lb :
  ring h ha la → ring h hb lb → (ha :: la) ## (hb :: lb) →
  (∀ x, nextf h' x =
          if decide (x = hb) then Some ha
          else if decide (x = lastd ha la) then Some (hdd hb lb) else nextf h x) →
  (∀ x, prevf h' x =
          if decide (x = hdd hb lb) then Some (lastd ha la)
          else if decide (x = ha) then Some hb else prevf h x) →
  ring h' ha (la ++ lb ++ [hb]).
Proof.
  intros [Hnda Hpa] [Hndb Hpb] Hdis Hn Hv.
  assert (Hndb' : NoDup (lb ++ [hb])) by by apply NoDup_snoc_of_cons.
  assert (Hhb : hdd hb lb ∈ hb :: lb).
  { pose proof (hdd_elem hb lb). set_solver. }
  assert (Hla : lastd ha la ∈ ha :: la) by apply lastd_elem.
  split.
  - rewrite app_comm_cons. apply NoDup_app. split; [done|]. split; [|done].
    intros x Hx Hx'. apply (Hdis x Hx). set_solver.
  - assert (Hlast : edge h' hb ha).
    { split.
      - rewrite Hn. by rewrite decide_True.
      - rewrite Hv. rewrite decide_False, decide_True; [done..|].
        intros E. apply (Hdis ha); [set_solver|]. by rewrite E. }
    assert (Hmid : path h' (lastd ha la) lb hb).
    { eapply path_reenter; [done|done| | |done|done].
      - intros ?. by apply (Hdis (lastd ha la)).
      - intros ?. apply (Hdis ha); [set_solver|done]. }
    clear Hla. destruct la as [|a la' _] using rev_ind.
    + unfold lastd in Hmid; simpl in *. apply path_snoc. by split.
    + rewrite lastd_snoc in Hmid, Hn, Hv.
      apply path_snoc in Hpa as [Hpa _].
      rewrite <- app_assoc. simpl app. apply path_app. split.
      * apply NoDup_cons in Hnda as [Hha Hnda].
        apply NoDup_app in Hnda as (_ & Hnda & _).
        eapply path_ext; [done| |].
        -- intros x Hx. rewrite Hn. rewrite !decide_False; [done| |].
           ++ intros ->. apply elem_of_cons in Hx as [->|Hx]; [set_solver|].
              apply (Hnda _ Hx). set_solver.
           ++ intros ->. apply (Hdis hb); set_solver.
        -- intros y Hy. rewrite Hv. rewrite !decide_False; [done| |].
           ++ intros ->. set_solver.
           ++ intros ->. apply (Hdis (hdd hb lb)); [|done]. set_solver.
      * apply path_snoc. by split.
Qed.
End rings_unlink.

(** ** Lists: the ring, the values and the cursor *)

(** [holds h cs]: every cell of [cs] is a node with its value. *)
Definition holds (h : gmap positive ListNode) (cs : list (positive * option gObject)) : Prop :=
  Forall (λ c, valf h c.1 = Some c.2) cs.

(** [shape h hd cs]: the sentinel [hd] holds [NULL], and its ring holds the
    nodes and values [cs], first element first. *)
Definition shape (h : gmap positive ListNode) (hd : loc)
    (cs : list (positive * option gObject)) : Prop :=
  ring h hd (cs.*1) ∧ valf h hd = Some None ∧ holds h cs.

(** The value at position [k]: [NULL] at position 0, the sentinel. *)
Definition val_at (cs : list (positive * option gObject)) (k : nat) : option gObject :=
  match k with
  | O => None
  | S k' => match cs !! k' with Some c => c.2 | None => None end
  end.

(** The position after [k], and the one before, in a ring of [n] elements. *)
Definition pos_next (n k : nat) : nat := if decide (k < n)%nat then S k else O.
Definition pos_prev (n k : nat) : nat := match k with O => n | S k' => k' end.

Section cursor.
Implicit Types (h : gmap positive ListNode) (hd w x : positive)
               (cs : list (positive * option gObject)) (ns : list positive) (k : nat).

Lemma ring_lookup_inj h hd ns i j x :
  ring h hd ns → (hd :: ns) !! i = Some x → (hd :: ns) !! j = Some x → i = j.
Proof. intros [Hnd _]. by apply NoDup_lookup. Qed.

Lemma ring_header_pos h hd ns k :
  ring h hd ns → (hd :: ns) !! k = Some hd ↔ k = O.
Proof.
  intros Hr. split; [|by intros ->].
  intros Hk. by eapply (ring_lookup_inj _ _ _ k O).
Qed.

Lemma ring_next h hd ns k w :
  ring h hd ns → (hd :: ns) !! k = Some w →
  ∃ w', nextf h w = Some w' ∧ (hd :: ns) !! pos_next (length ns) k = Some w'.
Proof.
  intros [_ Hp] Hk. rewrite (path_next_lookup _ _ _ _ _ _ Hp Hk).
  unfold pos_next. case_decide as Hlt.
  - destruct (lookup_lt_is_Some_2 ns k Hlt) as [w' Hw']. exists w'.
    split; [|done]. by rewrite lookup_app_l.
  - apply lookup_lt_Some in Hk. simpl in Hk. assert (k = length ns) as -> by lia.
    exists hd. split; [|done]. rewrite lookup_app_r by lia.
    by rewrite Nat.sub_diag.
Qed.

Lemma ring_prev h hd ns k w :
  ring h hd ns → (hd :: ns) !! k = Some w →
  ∃ w', prevf h w = Some w' ∧ (hd :: ns) !! pos_prev (length ns) k = Some w'.
Proof.
  intros [_ Hp] Hk. destruct k as [|k]; simpl in *.
  - injection Hk as <-. pose proof (path_prev _ _ _ _ Hp) as Hl.
    exists (lastd hd ns). split; [done|].
    unfold lastd. destruct ns as [|c ns] using rev_ind; [done|].
    rewrite last_snoc, length_app. simpl.
    rewrite Nat.add_1_r. simpl. rewrite lookup_app_r by lia.
    by rewrite Nat.sub_diag.
  - assert ((ns ++ [hd]) !! k = Some w) as Hk'.
    { rewrite lookup_app_l; [done|]. by eapply lookup_lt_Some. }
    rewrite (path_prev_lookup _ _ _ _ _ _ Hp Hk').
    assert (is_Some ((hd :: ns) !! k)) as [w' Hw'].
    { apply lookup_lt_is_Some_2. simpl. apply lookup_lt_Some in Hk. lia. }
    eauto.
Qed.

Lemma shape_val h hd cs k w :
  shape h hd cs → (hd :: cs.*1) !! k = Some w → valf h w = Some (val_at cs k).
Proof.
  intros (_ & Hhd & Hv) Hk. destruct k as [|k]; simpl in *.
  - by injection Hk as <-.
  - rewrite list_lookup_fmap in Hk.
    destruct (cs !! k) as [c|] eqn:Hc; [|done]. injection Hk as <-.
    eapply (Forall_lookup_1 _ _ _ _ Hv Hc).
Qed.

Lemma shape_alloc h hd cs x : shape h hd cs → x ∈ hd :: cs.*1 → alloc h x.
Proof. intros [Hr _]. by eapply ring_alloc. Qed.

(** A shape only depends on the nodes of its ring. *)
Lemma shape_ext h h' hd cs :
  shape h hd cs → (∀ x, x ∈ hd :: cs.*1 → h' !! x = h !! x) → shape h' hd cs.
Proof.
  intros ([Hnd Hp] & Hhd & Hv) Hx. split; [split|split].
  - done.
  - eapply path_ext; [done| |]; intros x Hin; unfold nextf, prevf; rewrite Hx; set_solver.
  - unfold valf. rewrite Hx; [done|set_solver].
  - apply Forall_forall. intros c Hc. unfold valf. rewrite Hx.
    + by apply (proj1 (Forall_forall _ _) Hv).
    + right. apply list_elem_of_fmap. eauto.
Qed.
End cursor.

Section shape_updates.
Implicit Types (h : gmap positive ListNode) (hd w x : positive)
               (cs : list (positive * option gObject)) (ns : list positive) (k : nat).

Lemma holds_ext h h' cs :
  holds h cs → (∀ x, x ∈ cs.*1 → valf h' x = valf h x) → holds h' cs.
Proof.
  intros Hv Hx. apply Forall_forall. intros c Hc. rewrite Hx.
  - by apply (proj1 (Forall_forall _ _) Hv).
  - apply list_elem_of_fmap. eauto.
Qed.

Lemma holds_alloc h cs x : holds h cs → x ∈ cs.*1 → alloc h x.
Proof.
  intros Hv (c & -> & Hc)%list_elem_of_fmap.
  eapply valf_alloc. by apply (proj1 (Forall_forall _ _) Hv).
Qed.

(** [new ListNode(v)] followed by [w->insert] of the new node, [w] being
    the node at position [k]: the new node is the element after [k]. *)
Lemma shape_insert h hd cs k w v :
  shape h hd cs → (hd :: cs.*1) !! k = Some w →
  let b := fresh (dom h) in
  ∃ c, nextf h w = Some c ∧ alloc h c ∧
       shape (ins_heap w b c (<[b := Node v b b]> h)) hd
             (take k cs ++ (b, v) :: drop k cs).
Proof.
  intros Hs Hk b. pose proof Hs as (Hr & Hhd & Hv).
  destruct (ring_next _ _ _ _ _ Hr Hk) as (c & Hc & Hpos). exists c.
  assert (Hac : alloc h c).
  { eapply ring_alloc; [done|]. by eapply list_elem_of_lookup_2. }
  assert (Haw : alloc h w) by by eapply nextf_alloc.
  assert (Hb : ¬ alloc h b) by apply fresh_not_alloc.
  assert (Hbr : b ∉ hd :: cs.*1).
  { intros Hin. apply Hb. by eapply ring_alloc. }
  assert (w ≠ b) by (intros ->; done). assert (c ≠ b) by (intros ->; done).
  split; [done|]. split; [done|].
  set (h0 := <[b := Node v b b]> h).
  assert (alloc h0 w) by (apply alloc_insert; by right).
  assert (alloc h0 c) by (apply alloc_insert; by right).
  assert (alloc h0 b) by (apply alloc_insert; by left).
  split; [|split].
  - rewrite fmap_app, fmap_cons, fmap_take, fmap_drop. simpl.
    eapply ring_insert; [done..| |].
    + intros x. rewrite nextf_ins_heap by done. unfold h0. rewrite nextf_insert.
      repeat case_decide; simplify_eq; done.
    + intros x. rewrite prevf_ins_heap by done. unfold h0. rewrite prevf_insert.
      repeat case_decide; simplify_eq; done.
  - rewrite valf_ins_heap. unfold h0. rewrite valf_insert.
    rewrite decide_False; [done|]. set_solver.
  - unfold holds. apply Forall_app. split; [|apply Forall_cons; split].
    + apply Forall_take. eapply holds_ext; [done|].
      intros x Hx. rewrite valf_ins_heap. unfold h0. rewrite valf_insert.
      rewrite decide_False; [done|]. set_solver.
    + simpl. rewrite valf_ins_heap. unfold h0. rewrite valf_insert.
      by rewrite decide_True.
    + apply Forall_drop. eapply holds_ext; [done|].
      intros x Hx. rewrite valf_ins_heap. unfold h0. rewrite valf_insert.
      rewrite decide_False; [done|]. set_solver.
Qed.

(** The nodes outside the ring are left alone by the insertion. *)
Lemma ins_heap_frame h w b c n x :
  x ≠ w → x ≠ c → x ≠ b → ins_heap w b c (<[b := n]> h) !! x = h !! x.
Proof.
  intros. unfold ins_heap, set_prev, set_next.
  rewrite !lookup_alter_ne by done. by rewrite lookup_insert_ne.
Qed.

(** [w->remove()] and [delete] of the node, [w] being element [k + 1]:
    the ring loses that element, and the predecessor of [w] is at
    position [k]. *)
Lemma shape_remove h hd cs k w v :
  shape h hd cs → cs !! k = Some (w, v) →
  ∃ p n, prevf h w = Some p ∧ nextf h w = Some n ∧ alloc h p ∧ alloc h n ∧
         (hd :: cs.*1) !! k = Some p ∧ w ≠ hd ∧ valf h w = Some v ∧
         shape (rem_heap p w n h) hd (delete k cs) ∧
         shape (delete w (rem_heap p w n h)) hd (delete k cs).
Proof.
  intros Hs Hk. pose proof Hs as (Hr & Hhd & Hv).
  assert (Hk' : (hd :: cs.*1) !! S k = Some w).
  { simpl. rewrite list_lookup_fmap, Hk. done. }
  destruct (ring_next _ _ _ _ _ Hr Hk') as (n & Hn & Hposn).
  destruct (ring_prev _ _ _ _ _ Hr Hk') as (p & Hp & Hposp). simpl in Hposp.
  exists p, n.
  assert (Hap : alloc h p).
  { eapply ring_alloc; [done|]. by eapply list_elem_of_lookup_2. }
  assert (Han : alloc h n).
  { eapply ring_alloc; [done|]. by eapply list_elem_of_lookup_2. }
  assert (Haw : alloc h w) by by eapply nextf_alloc.
  assert (Hwhd : w ≠ hd).
  { intros ->. by apply (ring_header_pos _ _ _ (S k) Hr) in Hk'. }
  assert (Hwv : valf h w = Some v).
  { by apply (Forall_lookup_1 _ _ _ _ Hv Hk). }
  assert (Hnd : NoDup (hd :: cs.*1)) by apply Hr.
  assert (Hnotin : w ∉ (delete k cs).*1).
  { apply NoDup_cons in Hnd as [_ Hnd].
    rewrite <- (take_drop_middle _ _ _ Hk) in Hnd.
    rewrite delete_take_drop. rewrite fmap_app in *. rewrite fmap_cons in Hnd.
    apply NoDup_app in Hnd as (H1 & H2 & H3). apply NoDup_cons in H3 as [H3 H4].
    simpl in *. intros [Hin|Hin]%elem_of_app; [|done]. by apply (H2 w); [|left]. }
  assert (Hshape1 : shape (rem_heap p w n h) hd (delete k cs)).
  { split; [|split].
    - replace ((delete k cs).*1) with (delete k (cs.*1)).
      2:{ rewrite !delete_take_drop, fmap_app, fmap_take, fmap_drop. done. }
      eapply ring_remove; [done| |done|done| |].
      + by rewrite list_lookup_fmap, Hk.
      + intros x Hx. rewrite nextf_rem_heap by done. by rewrite decide_False.
      + intros x Hx. rewrite prevf_rem_heap by done. by rewrite decide_False.
    - by rewrite valf_rem_heap.
    - eapply holds_ext.
      + unfold holds. rewrite delete_take_drop. apply Forall_app. split.
        * apply Forall_take, Hv.
        * apply Forall_drop, Hv.
      + intros x Hx. by rewrite valf_rem_heap. }
  do 8 (split; [done|]).
  eapply shape_ext; [done|].
  intros x Hx. rewrite lookup_delete_ne; [done|].
  intros ->. apply elem_of_cons in Hx as [?|?]; done.
Qed.

Lemma rem_heap_frame h p w n x :
  x ≠ w → x ≠ p → x ≠ n → rem_heap p w n h !! x = h !! x.
Proof.
  intros. unfold rem_heap, set_prev, set_next. by rewrite !lookup_alter_ne.
Qed.

(** [w->_val = v'] for element [k + 1]. *)
Lemma shape_set_val h hd cs k w v v' :
  shape h hd cs → cs !! k = Some (w, v) →
  shape (set_val w v' h) hd (<[k := (w, v')]> cs).
Proof.
  intros Hs Hk. pose proof Hs as (Hr & Hhd & Hv).
  assert (Hk' : (hd :: cs.*1) !! S k = Some w).
  { simpl. rewrite list_lookup_fmap, Hk. done. }
  assert (Hwhd : w ≠ hd).
  { intros ->. by apply (ring_header_pos _ _ _ (S k) Hr) in Hk'. }
  assert (Haw : alloc h w).
  { eapply ring_alloc; [done|]. by eapply list_elem_of_lookup_2. }
  assert (Hfst : (<[k := (w, v')]> cs).*1 = cs.*1).
  { rewrite list_fmap_insert. simpl. apply list_insert_id.
    by rewrite list_lookup_fmap, Hk. }
  split; [|split].
  - rewrite Hfst. destruct Hr as [Hnd Hp]. split; [done|].
    eapply path_ext; [done| |]; intros x _.
    + apply nextf_set_val.
    + apply prevf_set_val.
  - rewrite valf_set_val. by rewrite decide_False.
  - apply Forall_lookup. intros i c Hi.
    destruct (decide (i = k)) as [->|Hne].
    + rewrite list_lookup_insert_eq in Hi by by eapply lookup_lt_Some.
      injection Hi as <-. simpl. rewrite valf_set_val, decide_True by done.
      by apply const_fmap_alloc.
    + rewrite list_lookup_insert_ne in Hi by done.
      rewrite valf_set_val. rewrite decide_False.
      * by apply (Forall_lookup_1 _ _ _ _ Hv Hi).
      * intros E. apply Hne.
        assert ((hd :: cs.*1) !! S i = Some w) as Hi'.
        { simpl. rewrite list_lookup_fmap, Hi. simpl. by rewrite E. }
        pose proof (ring_lookup_inj _ _ _ _ _ _ Hr Hi' Hk'). lia.
Qed.
End shape_updates.

(** ** What the member functions of [List] do *)

(** [rep m this L cs k]: the object at [this] is [L], its ring holds [cs],
    and its window is the node at position [k] (0 for the sentinel). *)
Definition rep (m : mem) (this : loc) (L : List)
    (cs : list (positive * option gObject)) (k : nat) : Prop :=
  lists m !! this = Some L ∧ shape (nodes m) (header L) cs ∧
  (header L :: cs.*1) !! k = Some (win L).

(** [counted L cs k]: the two counters of [L] say what the ring and the
    window are. *)
Definition counted (L : List) (cs : list (positive * option gObject)) (k : nat) : Prop :=
  _index L = Z.of_nat k ∧ _length L = Z.of_nat (length cs) ∧ is_int (_length L).

Ltac exec_l :=
  first
    [ erewrite bind_lrd by (simpl; first [eassumption | apply lookup_insert_eq])
    | erewrite bind_lwr by (simpl; first [eassumption | apply lookup_insert_eq]) ];
  unfold upd_list; simpl; rewrite ?insert_insert_eq.

Lemma wrap_id z : is_int z → wrap z = z.
Proof. unfold is_int, wrap, INT_MIN, INT_MAX. intros. rewrite Z.mod_small; lia. Qed.

Lemma wrap_is_int z : is_int (wrap z).
Proof.
  unfold is_int, wrap, INT_MIN, INT_MAX.
  pose proof (Z.mod_pos_bound (z + 2147483648) 4294967296). lia.
Qed.

Section list_specs.
Implicit Types (m : mem) (this : positive) (L : List)
               (cs : list (positive * option gObject)) (k : nat).

Lemma rep_move m this L cs k k' w' i n :
  rep m this L cs k → (header L :: cs.*1) !! k' = Some w' →
  rep (upd_list this (MkList (header L) w' i n) m) this (MkList (header L) w' i n) cs k'.
Proof.
  intros (Hl & Hs & Hw) Hk'. split; [|split]; simpl.
  - apply lookup_insert_eq.
  - done.
  - done.
Qed.

Lemma rep_pos_le m this L cs k : rep m this L cs k → (k ≤ length cs)%nat.
Proof.
  intros (_ & _ & Hk). apply lookup_lt_Some in Hk. simpl in Hk.
  rewrite length_fmap in Hk. lia.
Qed.

(** The window is the sentinel exactly at position 0. *)
Lemma rep_win_header m this L cs k : rep m this L cs k → win L = header L ↔ k = O.
Proof.
  intros (_ & (Hr & _) & Hk). rewrite <- (ring_header_pos _ _ _ k Hr).
  rewrite Hk. split; [by intros ->|]. by intros [= ->].
Qed.

(** The index that [next()] leaves. *)
Definition next_index (L : List) : Z :=
  let i := wrap (_index L + 1) in if decide (i > _length L) then 0 else i.

Lemma List_next_spec m this L cs k :
  rep m this L cs k →
  ∃ w', (header L :: cs.*1) !! pos_next (length cs) k = Some w' ∧
        List_next this m =
          Some (val_at cs (pos_next (length cs) k),
                upd_list this (MkList (header L) w' (next_index L) (_length L)) m).
Proof.
  intros (Hl & Hs & Hw). destruct m as [h ls]; simpl in *.
  destruct (ring_next _ _ _ _ _ (proj1 Hs) Hw) as (w' & Hn & Hpos).
  rewrite length_fmap in Hpos. exists w'. split; [done|].
  pose proof (shape_val _ _ _ _ _ Hs Hpos) as Hv.
  unfold List_next, ListNode_next. exec_l.
  rewrite (bind_rd_next _ w') by done.
  do 5 exec_l. unfold next_index. simpl.
  case_decide.
  - do 2 exec_l. rewrite (rd_val_Some _ (val_at cs (pos_next (length cs) k))) by done.
    done.
  - rewrite bind_ret. exec_l.
    rewrite (rd_val_Some _ (val_at cs (pos_next (length cs) k))) by done.
    unfold upd_list. simpl. do 3 f_equal.
Qed.
Lemma List_val_spec m this L cs k :
  rep m this L cs k → List_val this m = Some (val_at cs k, m).
Proof.
  intros (Hl & Hs & Hw). unfold List_val. exec_l.
  apply rd_val_Some. by eapply shape_val.
Qed.

(** The index that [prev()] leaves. *)
Definition prev_index (L : List) : Z :=
  let i := wrap (_index L - 1) in
  if decide (i < 0) then wrap (wrap (_length L + i) + 1) else i.

Lemma List_prev_spec m this L cs k :
  rep m this L cs k →
  ∃ w', (header L :: cs.*1) !! pos_prev (length cs) k = Some w' ∧
        List_prev this m =
          Some (val_at cs (pos_prev (length cs) k),
                upd_list this (MkList (header L) w' (prev_index L) (_length L)) m).
Proof.
  intros (Hl & Hs & Hw). destruct m as [h ls]; simpl in *.
  destruct (ring_prev _ _ _ _ _ (proj1 Hs) Hw) as (w' & Hn & Hpos).
  rewrite length_fmap in Hpos. exists w'. split; [done|].
  pose proof (shape_val _ _ _ _ _ Hs Hpos) as Hv.
  unfold List_prev, ListNode_prev. exec_l.
  rewrite (bind_rd_prev _ w') by done.
  do 4 exec_l. unfold prev_index. simpl.
  case_decide.
  - rewrite bind_assoc. do 3 exec_l.
    rewrite (rd_val_Some _ (val_at cs (pos_prev (length cs) k))) by done.
    done.
  - rewrite bind_ret. exec_l.
    rewrite (rd_val_Some _ (val_at cs (pos_prev (length cs) k))) by done.
    unfold upd_list. simpl. do 3 f_equal.
Qed.

Lemma List_first_spec m this L cs k :
  rep m this L cs k →
  ∃ w', (header L :: cs.*1) !! pos_next (length cs) 0 = Some w' ∧
        List_first this m =
          Some (val_at cs (pos_next (length cs) 0),
                upd_list this (MkList (header L) w' 1 (_length L)) m).
Proof.
  intros (Hl & Hs & Hw). destruct m as [h ls]; simpl in *.
  destruct (ring_next _ _ (cs.*1) O (header L) (proj1 Hs) eq_refl) as (w' & Hn & Hpos).
  rewrite length_fmap in Hpos. exists w'. split; [done|].
  pose proof (shape_val _ _ _ _ _ Hs Hpos) as Hv.
  unfold List_first, ListNode_next. exec_l.
  rewrite (bind_rd_next _ w') by done.
  do 3 exec_l.
  rewrite (rd_val_Some _ (val_at cs (pos_next (length cs) 0))) by done.
  done.
Qed.

Lemma List_last_spec m this L cs k :
  rep m this L cs k →
  ∃ w', (header L :: cs.*1) !! length cs = Some w' ∧
        List_last this m =
          Some (val_at cs (length cs),
                upd_list this (MkList (header L) w' (_length L) (_length L)) m).
Proof.
  intros (Hl & Hs & Hw). destruct m as [h ls]; simpl in *.
  destruct (ring_prev _ _ (cs.*1) O (header L) (proj1 Hs) eq_refl) as (w' & Hn & Hpos).
  rewrite length_fmap in Hpos. simpl in Hpos. exists w'. split; [done|].
  pose proof (shape_val _ _ _ _ _ Hs Hpos) as Hv.
  unfold List_last, ListNode_prev. exec_l.
  rewrite (bind_rd_prev _ w') by done.
  do 4 exec_l.
  rewrite (rd_val_Some _ (val_at cs (length cs))) by done.
  done.
Qed.

Lemma List_length_spec m this L :
  lists m !! this = Some L → List_length this m = Some (_length L, m).
Proof. intros Hl. unfold List_length, lrd. by rewrite Hl. Qed.

(** *** [GetAt] *)

Lemma List_GetAt_out m this L pt :
  lists m !! this = Some L → pt < 1 ∨ pt > _length L →
  List_GetAt this pt m = Some (None, m).
Proof.
  intros Hl Hpt. unfold List_GetAt. exec_l. by rewrite decide_True.
Qed.

Lemma with_win_win L : with_win (win L) L = L.
Proof. by destruct L. Qed.

(** The loop that walks the window back: [j] rounds take it [j] nodes
    back, without passing the sentinel when [j ≤ k]. *)
Lemma GetAt_back_loop (j : nat) m this L cs k idx pt :
  rep m this L cs k → idx = pt + Z.of_nat j → INT_MIN ≤ pt → idx ≤ INT_MAX →
  ∃ k' w', (header L :: cs.*1) !! k' = Some w' ∧
    ((j ≤ k)%nat → k' = (k - j)%nat) ∧
    for_loop j (λ i, bool_decide (i > pt)) (λ i, wrap (i - 1))
      (λ _, let* w := lrd win this in
            let* p := rd _prev w in
            lwr (with_win p) this) idx m
    = Some (tt, upd_list this (with_win w' L) m).
Proof.
  revert m L k idx. induction j as [|j IH]; intros m L k idx Hrep -> Hlo Hhi.
  - exists k, (win L). destruct Hrep as (Hl & Hs & Hw). split; [done|].
    split; [intros; lia|]. simpl.
    rewrite bool_decide_eq_false_2 by lia.
    rewrite with_win_win. by rewrite upd_list_id.
  - pose proof Hrep as (Hl & Hs & Hw).
    destruct (ring_prev _ _ _ _ _ (proj1 Hs) Hw) as (p & Hp & Hpos).
    rewrite length_fmap in Hpos.
    pose proof (rep_move _ _ _ _ _ _ _ (_index L) (_length L) Hrep Hpos) as Hrep'.
    destruct (IH _ _ _ (pt + Z.of_nat j) Hrep' eq_refl Hlo ltac:(lia))
      as (k' & w' & Hk' & Hkj & Hloop).
    exists k', w'. split; [done|]. split.
    + intros Hle. destruct k as [|k]; [lia|]. simpl in *. apply Hkj. lia.
    + simpl. rewrite bool_decide_eq_true_2 by lia.
      rewrite bind_assoc. exec_l.
      rewrite bind_assoc. rewrite (bind_rd_prev _ p) by done.
      erewrite bind_Some; [|by apply lwr_Some].
      rewrite wrap_id by (unfold is_int; lia).
      replace (pt + Z.of_nat (S j) - 1) with (pt + Z.of_nat j) by lia.
      unfold with_win in *. simpl in *. rewrite Hloop.
      by rewrite upd_list_upd_list.
Qed.

Lemma GetAt_forth_loop (j : nat) m this L cs k idx pt :
  rep m this L cs k → pt = idx + Z.of_nat j → INT_MIN ≤ idx → pt ≤ INT_MAX →
  ∃ k' w', (header L :: cs.*1) !! k' = Some w' ∧
    ((k + j ≤ length cs)%nat → k' = (k + j)%nat) ∧
    for_loop j (λ i, bool_decide (i < pt)) (λ i, wrap (i + 1))
      (λ _, let* w := lrd win this in
            let* p := rd _next w in
            lwr (with_win p) this) idx m
    = Some (tt, upd_list this (with_win w' L) m).
Proof.
  revert m L k idx. induction j as [|j IH]; intros m L k idx Hrep -> Hlo Hhi.
  - exists k, (win L). destruct Hrep as (Hl & Hs & Hw). split; [done|].
    split; [intros; lia|]. simpl.
    rewrite bool_decide_eq_false_2 by lia.
    rewrite with_win_win. by rewrite upd_list_id.
  - pose proof Hrep as (Hl & Hs & Hw).
    destruct (ring_next _ _ _ _ _ (proj1 Hs) Hw) as (p & Hp & Hpos).
    rewrite length_fmap in Hpos.
    pose proof (rep_move _ _ _ _ _ _ _ (_index L) (_length L) Hrep Hpos) as Hrep'.
    destruct (IH _ _ _ (idx + 1) Hrep' ltac:(lia) ltac:(lia) Hhi)
      as (k' & w' & Hk' & Hkj & Hloop).
    exists k', w'. split; [done|]. split.
    + intros Hle. unfold pos_next in Hkj. rewrite decide_True in Hkj by lia.
      rewrite Hkj; lia.
    + simpl. rewrite bool_decide_eq_true_2 by lia.
      rewrite bind_assoc. exec_l.
      rewrite bind_assoc. rewrite (bind_rd_next _ p) by done.
      erewrite bind_Some; [|by apply lwr_Some].
      rewrite wrap_id by (unfold is_int; lia).
      unfold with_win in *. simpl in *. rewrite Hloop.
      by rewrite upd_list_upd_list.
Qed.

Lemma List_GetAt_in m this L cs k pt :
  rep m this L cs k → is_int (_index L) → is_int pt → 1 ≤ pt ≤ _length L →
  ∃ k' w', (header L :: cs.*1) !! k' = Some w' ∧
    (counted L cs k → k' = Z.to_nat pt) ∧
    List_GetAt this pt m =
      Some (val_at cs k', upd_list this (MkList (header L) w' pt (_length L)) m).
Proof.
  intros Hrep Hidx Hpt Hrange. pose proof Hrep as (Hl & Hs & Hw).
  unfold List_GetAt. exec_l. rewrite decide_False by lia. exec_l.
  unfold is_int in *.
  case_decide as Hlt; [|case_decide as Hgt].
  - destruct (GetAt_back_loop (Z.to_nat (_index L - pt)) _ _ _ _ _ (_index L) pt Hrep)
      as (k' & w' & Hk' & Hkj & Hloop); [lia..|].
    exists k', w'. split; [done|]. split.
    + intros (Hi & Hn & _). rewrite Hkj; lia.
    + rewrite (bind_Some _ _ _ _ _ Hloop). destruct m as [h ls].
      unfold with_win. do 2 exec_l.
      by rewrite (rd_val_Some _ (val_at cs k')) by by eapply shape_val.
  - destruct (GetAt_forth_loop (Z.to_nat (pt - _index L)) _ _ _ _ _ (_index L) pt Hrep)
      as (k' & w' & Hk' & Hkj & Hloop); [lia..|].
    exists k', w'. split; [done|]. split.
    + intros (Hi & Hn & _). rewrite Hkj; lia.
    + rewrite (bind_Some _ _ _ _ _ Hloop). destruct m as [h ls].
      unfold with_win. do 2 exec_l.
      by rewrite (rd_val_Some _ (val_at cs k')) by by eapply shape_val.
  - exists k, (win L). split; [done|]. split.
    + intros (Hi & _). lia.
    + exec_l. rewrite (rd_val_Some _ (val_at cs k)) by by eapply shape_val.
      assert (pt = _index L) as -> by lia.
      replace (MkList (header L) (win L) (_index L) (_length L)) with L by by destruct L.
      pose proof (upd_list_id this L m Hl) as E. unfold upd_list in E. by rewrite E.
Qed.
(** *** Insertions *)

(** What an operation on the ring [F] may touch: the nodes of [F], and
    nodes that were not in use.  [F'] is the ring afterwards. *)
Definition frame (h h' : gmap positive ListNode) (F F' : list positive) : Prop :=
  (∀ x, alloc h x → x ∉ F → h' !! x = h !! x) ∧
  (∀ x, x ∈ F' → x ∈ F ∨ ¬ alloc h x).

Lemma bind_new {B} v (K : positive → M B) m :
  bind (new_ListNode v) K m =
    K (fresh (dom (nodes m))) (upd_nodes (insert (fresh (dom (nodes m)))
         (Node v (fresh (dom (nodes m))) (fresh (dom (nodes m))))) m).
Proof. done. Qed.

(** The heap after [new ListNode(v)] and [w->insert] of the new node. *)
Definition ins_new (w c : positive) (v : option gObject) (h : gmap positive ListNode) :=
  let b := fresh (dom h) in ins_heap w b c (<[b := Node v b b]> h).

Lemma new_insert_exec m hd cs k w v :
  shape (nodes m) hd cs → (hd :: cs.*1) !! k = Some w →
  let b := fresh (dom (nodes m)) in
  ∃ c, nextf (nodes m) w = Some c ∧ c ∈ hd :: cs.*1 ∧
    ListNode_insert w b (upd_nodes (insert b (Node v b b)) m)
      = Some (b, Mem (ins_new w c v (nodes m)) (lists m)) ∧
    shape (ins_new w c v (nodes m)) hd (take k cs ++ (b, v) :: drop k cs) ∧
    frame (nodes m) (ins_new w c v (nodes m)) (hd :: cs.*1)
          (hd :: (take k cs ++ (b, v) :: drop k cs).*1).
Proof.
  intros Hs Hk b.
  destruct (shape_insert _ _ _ _ _ v Hs Hk) as (c & Hc & Hac & Hs').
  assert (Hcin : c ∈ hd :: cs.*1).
  { destruct (ring_next _ _ _ _ _ (proj1 Hs) Hk) as (c' & Hc' & Hpos).
    rewrite Hc in Hc'. injection Hc' as <-. by eapply list_elem_of_lookup_2. }
  assert (Hw : w ∈ hd :: cs.*1) by by eapply list_elem_of_lookup_2.
  pose proof (fresh_not_alloc (nodes m)) as Hb. fold b in Hb.
  assert (w ≠ b) by (intros ->; apply Hb; by eapply nextf_alloc).
  exists c. split; [done|]. split; [done|]. split; [|split; [done|split]].
  - rewrite (ListNode_insert_exec _ _ _ c); [done| | |]; simpl.
    + rewrite nextf_insert. by rewrite decide_False.
    + apply alloc_insert. by left.
    + apply alloc_insert. by right.
  - intros x Hx Hnin. unfold ins_new. apply ins_heap_frame.
    + intros ->. done.
    + intros ->. done.
    + intros ->. done.
  - intros x Hx. rewrite fmap_app, fmap_cons, fmap_take, fmap_drop in Hx. simpl in Hx.
    destruct (decide (x = b)) as [->|Hne]; [by right|]. left.
    apply elem_of_cons in Hx as [->|Hx]; [set_solver|]. right.
    rewrite <- (take_drop k (cs.*1)). set_solver.
Qed.

Lemma insert_cursor_keep (hd w b : positive) (ns : list positive) k :
  (hd :: ns) !! k = Some w → (hd :: take k ns ++ b :: drop k ns) !! k = Some w.
Proof.
  destruct k as [|k]; simpl; [done|]. intros Hk.
  rewrite lookup_app_l.
  - rewrite lookup_take_lt; [done|lia].
  - rewrite length_take. apply lookup_lt_Some in Hk. lia.
Qed.

Lemma List_insert_spec m this L cs k v :
  rep m this L cs k →
  let cs' := take k cs ++ (fresh (dom (nodes m)), v) :: drop k cs in
  let L' := with_length (wrap (_length L + 1)) L in
  ∃ h', List_insert this v m = Some (v, Mem h' (<[this := L']> (lists m))) ∧
        rep (Mem h' (<[this := L']> (lists m))) this L' cs' k ∧
        frame (nodes m) h' (header L :: cs.*1) (header L :: cs'.*1).
Proof.
  intros (Hl & Hs & Hw) cs' L'.
  destruct (new_insert_exec _ _ _ _ _ v Hs Hw) as (c & Hc & Hcin & Hex & Hs' & Hfr).
  exists (ins_new (win L) c v (nodes m)). split; [|split; [split; [|split]|]].
  - unfold List_insert. rewrite bind_new. exec_l.
    rewrite (bind_Some _ _ _ _ _ Hex). do 2 exec_l. done.
  - simpl. apply lookup_insert_eq.
  - done.
  - simpl. subst cs'. rewrite fmap_app, fmap_cons, fmap_take, fmap_drop. simpl.
    by apply insert_cursor_keep.
  - done.
Qed.

(** The index that [prepend] leaves. *)
Definition prepend_index (L : List) : Z :=
  if decide (_index L > 0) then wrap (_index L + 1) else _index L.

Lemma List_prepend_spec m this L cs k v :
  rep m this L cs k →
  let cs' := (fresh (dom (nodes m)), v) :: cs in
  let L' := MkList (header L) (win L) (prepend_index L) (wrap (_length L + 1)) in
  ∃ h', List_prepend this v m = Some (v, Mem h' (<[this := L']> (lists m))) ∧
        rep (Mem h' (<[this := L']> (lists m))) this L' cs'
            (match k with O => O | S _ => S k end) ∧
        frame (nodes m) h' (header L :: cs.*1) (header L :: cs'.*1).
Proof.
  intros (Hl & Hs & Hw) cs' L'.
  destruct (new_insert_exec _ _ _ O (header L) v Hs eq_refl)
    as (c & Hc & Hcin & Hex & Hs' & Hfr).
  rewrite take_0, drop_0 in Hs', Hfr. simpl in Hs', Hfr.
  exists (ins_new (header L) c v (nodes m)). split; [|split; [split; [|split]|]].
  - unfold List_prepend. rewrite bind_new. exec_l.
    rewrite (bind_Some _ _ _ _ _ Hex). do 3 exec_l.
    unfold L', prepend_index. case_decide.
    + exec_l. done.
    + rewrite bind_ret. unfold ret. do 3 f_equal.
  - simpl. apply lookup_insert_eq.
  - done.
  - simpl. destruct k; simpl in *; done.
  - done.
Qed.

Lemma List_append_spec m this L cs k v :
  rep m this L cs k →
  let cs' := cs ++ [(fresh (dom (nodes m)), v)] in
  let L' := with_length (wrap (_length L + 1)) L in
  ∃ h', List_append this v m = Some (v, Mem h' (<[this := L']> (lists m))) ∧
        rep (Mem h' (<[this := L']> (lists m))) this L' cs' k ∧
        frame (nodes m) h' (header L :: cs.*1) (header L :: cs'.*1).
Proof.
  intros (Hl & Hs & Hw) cs' L'.
  destruct (ring_prev _ _ (cs.*1) O (header L) (proj1 Hs) eq_refl) as (a & Ha & Hpos).
  simpl in Hpos. rewrite length_fmap in Hpos.
  destruct (new_insert_exec _ _ _ _ _ v Hs Hpos) as (c & Hc & Hcin & Hex & Hs' & Hfr).
  rewrite firstn_all, drop_all in Hs', Hfr.
  exists (ins_new a c v (nodes m)). split; [|split; [split; [|split]|]].
  - unfold List_append, ListNode_prev. exec_l.
    rewrite (bind_rd_prev _ a) by done. rewrite bind_new.
    rewrite (bind_Some _ _ _ _ _ Hex). do 2 exec_l. done.
  - simpl. apply lookup_insert_eq.
  - done.
  - simpl. subst cs'. rewrite fmap_app. simpl. rewrite app_comm_cons.
    rewrite lookup_app_l; [done|]. by eapply lookup_lt_Some.
  - done.
Qed.
(** *** [remove] and [val] *)

Lemma List_remove_header m this L cs :
  rep m this L cs O → List_remove this m = Some (None, m).
Proof.
  intros (Hl & Hs & Hw). simpl in Hw. injection Hw as Hw.
  unfold List_remove. do 2 exec_l. by rewrite decide_True.
Qed.

Lemma List_remove_spec m this L cs k w v :
  rep m this L cs (S k) → cs !! k = Some (w, v) →
  ∃ h' p,
    let L' := MkList (header L) p (wrap (_index L - 1)) (wrap (_length L - 1)) in
    List_remove this m = Some (v, Mem h' (<[this := L']> (lists m))) ∧
    rep (Mem h' (<[this := L']> (lists m))) this L' (delete k cs) k ∧
    frame (nodes m) h' (header L :: cs.*1) (header L :: (delete k cs).*1) ∧
    ¬ alloc h' w.
Proof.
  intros (Hl & Hs & Hw) Hk.
  assert (win L = w) as Hww.
  { simpl in Hw. rewrite list_lookup_fmap, Hk in Hw. by injection Hw. }
  destruct (shape_remove _ _ _ _ _ _ Hs Hk)
    as (p & n & Hp & Hn & Hap & Han & Hpos & Hne & Hv & Hs1 & Hs2).
  destruct (ring_next _ _ _ _ _ (proj1 Hs) Hpos) as (w' & Hpn & Hpos').
  assert (w' = w) as ->.
  { unfold pos_next in Hpos'. rewrite decide_True in Hpos'.
    - simpl in Hpos'. rewrite list_lookup_fmap, Hk in Hpos'. by injection Hpos'.
    - rewrite length_fmap. by eapply lookup_lt_Some. }
  assert (Hpin : p ∈ header L :: cs.*1) by by eapply list_elem_of_lookup_2.
  assert (Hnin : n ∈ header L :: cs.*1).
  { destruct (ring_next _ _ _ (S k) w (proj1 Hs)) as (n' & Hn' & Hposn).
    - simpl. by rewrite list_lookup_fmap, Hk.
    - rewrite Hn in Hn'. injection Hn' as <-. by eapply list_elem_of_lookup_2. }
  assert (Hwin : w ∈ header L :: cs.*1).
  { right. apply list_elem_of_fmap. exists (w, v). split; [done|].
    by eapply list_elem_of_lookup_2. }
  exists (delete w (rem_heap p w n (nodes m))), p. simpl.
  split; [|split; [split; [|split]|split]].
  - destruct m as [h ls]; simpl in *.
    unfold List_remove, ListNode_prev, ListNode_next, delete_ListNode. do 2 exec_l.
    rewrite Hww. rewrite decide_False by done.
    rewrite (bind_rd_val _ v) by done. rewrite (bind_rd_prev _ p) by done.
    do 2 exec_l. rewrite (bind_rd_next _ w) by done.
    rewrite (bind_Some _ _ _ _ _ (ListNode_remove_exec (Mem h _) p w n Hp Hn Hap Han)).
    rewrite bind_wr.
    2:{ simpl. apply alloc_rem_heap. by eapply nextf_alloc. }
    unfold upd_nodes. simpl. do 4 exec_l. done.
  - simpl. apply lookup_insert_eq.
  - done.
  - simpl. replace ((delete k cs).*1) with (delete k (cs.*1)).
    2:{ rewrite !delete_take_drop, fmap_app, fmap_take, fmap_drop. done. }
    destruct k as [|k]; [done|]. simpl in *.
    rewrite delete_take_drop, lookup_app_l.
    + rewrite lookup_take_lt; [done|lia].
    + rewrite length_take. apply lookup_lt_Some in Hpos.
      apply lookup_lt_Some in Hk. rewrite length_fmap in *. lia.
  - split.
    + intros x Hx Hnot. rewrite lookup_delete_ne by (intros ->; done).
      apply rem_heap_frame; intros ->; done.
    + intros x Hx. left. apply elem_of_cons in Hx as [->|Hx]; [left|right].
      apply list_elem_of_fmap in Hx as (c & -> & Hc).
      apply list_elem_of_fmap. exists c. split; [done|].
      rewrite delete_take_drop in Hc. rewrite <- (take_drop k cs).
      apply elem_of_app in Hc as [Hc|Hc]; apply elem_of_app; [by left|right].
      rewrite <- (take_drop 1 (drop k cs)). rewrite drop_drop.
      apply elem_of_app. right. by rewrite Nat.add_1_r.
  - unfold alloc. rewrite lookup_delete_eq. by intros [? ?].
Qed.

Lemma List_set_val_header m this L cs v' :
  rep m this L cs O → List_set_val this v' m = Some (None, m).
Proof.
  intros (Hl & Hs & Hw). simpl in Hw. injection Hw as Hw.
  unfold List_set_val. do 2 exec_l. rewrite decide_False; [done|]. by intros [].
Qed.

Lemma List_set_val_spec m this L cs k w v v' :
  rep m this L cs (S k) → cs !! k = Some (w, v) →
  let h' := set_val w v' (nodes m) in
  List_set_val this v' m = Some (v, Mem h' (lists m)) ∧
  rep (Mem h' (lists m)) this L (<[k := (w, v')]> cs) (S k) ∧
  frame (nodes m) h' (header L :: cs.*1) (header L :: (<[k := (w, v')]> cs).*1).
Proof.
  intros (Hl & Hs & Hw) Hk.
  assert (win L = w) as Hww.
  { simpl in Hw. rewrite list_lookup_fmap, Hk in Hw. by injection Hw. }
  assert (Hk' : (header L :: cs.*1) !! S k = Some w).
  { simpl. rewrite list_lookup_fmap, Hk. done. }
  assert (Hwhd : w ≠ header L).
  { intros E. rewrite E in Hk'. by apply (ring_header_pos _ _ _ (S k) (proj1 Hs)) in Hk'. }
  assert (Hv : valf (nodes m) w = Some v).
  { by apply (Forall_lookup_1 _ _ _ _ (proj2 (proj2 Hs)) Hk). }
  assert (Hfst : (<[k := (w, v')]> cs).*1 = cs.*1).
  { rewrite list_fmap_insert. simpl. apply list_insert_id.
    by rewrite list_lookup_fmap, Hk. }
  split; [|split; [split; [|split]|]].
  - unfold List_set_val. do 2 exec_l. rewrite Hww. rewrite decide_True by done.
    rewrite (bind_rd_val _ v) by done.
    rewrite bind_wr by by eapply valf_alloc. done.
  - done.
  - simpl. by eapply shape_set_val.
  - simpl. by rewrite Hfst.
  - split.
    + intros x Hx Hnot. unfold set_val. rewrite lookup_alter_ne; [done|].
      intros ->. apply Hnot. by eapply list_elem_of_lookup_2.
    + intros x Hx. left. by rewrite Hfst in Hx.
Qed.

(** *** [append] of a whole list *)

(** The heap after [a->splice(hb)] and [hb->remove()], [a] being the last
    node of the ring of [ha] and [p] the node found before [hb] then. *)
Definition merged (ha hb a bn p : positive) (h : gmap positive ListNode) :=
  rem_heap p hb ha (splice_heap a hb ha bn h).

Lemma shape_append_list h ha ca hb cb :
  shape h ha ca → shape h hb cb → (ha :: ca.*1) ## (hb :: cb.*1) →
  ∃ a bn p,
    prevf h ha = Some a ∧ nextf h a = Some ha ∧ nextf h hb = Some bn ∧
    alloc h bn ∧ a ∈ ha :: ca.*1 ∧ bn ∈ hb :: cb.*1 ∧
    p ∈ (ha :: ca.*1) ++ (hb :: cb.*1) ∧ alloc h p ∧
    prevf (splice_heap a hb ha bn h) hb = Some p ∧
    nextf (splice_heap a hb ha bn h) hb = Some ha ∧
    shape (merged ha hb a bn p h) ha (ca ++ cb) ∧
    shape (merged ha hb a bn p h) hb [].
Proof.
  intros Hsa Hsb Hdis. pose proof Hsa as (Hra & Hva & Hha). pose proof Hsb as (Hrb & Hvb & Hhb).
  set (a := lastd ha (ca.*1)). set (bn := hdd hb (cb.*1)).
  assert (Ha : edge h a ha) by apply path_last_edge, Hra.
  assert (Hbn : nextf h hb = Some bn) by apply path_next, Hrb.
  assert (Hpa : prevf h ha = Some a) by apply path_prev, Hra.
  assert (Hain : a ∈ ha :: ca.*1) by apply lastd_elem.
  assert (Hbnin : bn ∈ hb :: cb.*1).
  { pose proof (hdd_elem hb (cb.*1)). fold bn in H. set_solver. }
  assert (alloc h a) by (eapply ring_alloc; [exact Hra|done]).
  assert (alloc h bn) by (eapply ring_alloc; [exact Hrb|done]).
  assert (alloc h ha) by (eapply ring_alloc; [exact Hra|set_solver]).
  assert (alloc h hb) by (eapply ring_alloc; [exact Hrb|set_solver]).
  set (h1 := splice_heap a hb ha bn h).
  assert (Hs1 : shape h1 ha (ca ++ cb ++ [(hb, None)])).
  { split; [|split].
    - rewrite !fmap_app. simpl. eapply ring_splice; [done..| |].
      + intros x. unfold h1. by rewrite nextf_splice_heap.
      + intros x. unfold h1. by rewrite prevf_splice_heap.
    - unfold h1. by rewrite valf_splice_heap.
    - unfold holds. rewrite !Forall_app. split; [|split].
      + eapply holds_ext; [done|]. intros; unfold h1; by rewrite valf_splice_heap.
      + eapply holds_ext; [done|]. intros; unfold h1; by rewrite valf_splice_heap.
      + apply Forall_singleton. simpl. unfold h1. by rewrite valf_splice_heap. }
  assert (Hk : (ca ++ cb ++ [(hb, None)]) !! length (ca ++ cb) = Some (hb, None)).
  { rewrite app_assoc, lookup_app_r by lia. by rewrite Nat.sub_diag. }
  destruct (shape_remove _ _ _ _ _ _ Hs1 Hk)
    as (p & n & Hp & Hn & Hap & Han & Hpos & Hne & Hv & Hs2 & _).
  assert (n = ha) as ->.
  { unfold h1 in Hn. rewrite nextf_splice_heap in Hn by done.
    rewrite decide_True in Hn by done. by injection Hn. }
  exists a, bn, p. destruct Ha as [Han' _].
  do 6 (split; [done|]). split; [|split; [|split; [done|split; [done|split]]]].
  - apply list_elem_of_lookup_2 in Hpos. rewrite !fmap_app in Hpos. simpl in Hpos.
    set_solver.
  - by apply alloc_splice_heap in Hap.
  - unfold merged. fold h1. rewrite app_assoc in Hs2.
    rewrite delete_take_drop in Hs2. rewrite take_app_length in Hs2.
    rewrite drop_ge in Hs2 by (rewrite (length_app (ca ++ cb)); simpl; lia).
    by rewrite app_nil_r in Hs2.
  - unfold merged. fold h1.
    assert (alloc h1 hb) by by apply alloc_splice_heap.
    destruct (rem_heap_singleton h1 p hb ha) as [E1 E2]; [done..|].
    split; [|split].
    + simpl. split; [apply NoDup_singleton|]. by split.
    + rewrite valf_rem_heap. unfold h1. by rewrite valf_splice_heap.
    + apply Forall_nil_2.
Qed.

Lemma merged_frame ha hb a bn p h x :
  x ≠ ha → x ≠ hb → x ≠ a → x ≠ bn → x ≠ p → merged ha hb a bn p h !! x = h !! x.
Proof.
  intros. unfold merged, rem_heap, splice_heap, set_next, set_prev.
  by rewrite !lookup_alter_ne.
Qed.

Lemma List_append_list_spec m this l LA ca ka LB cb kb :
  this ≠ l → rep m this LA ca ka → rep m l LB cb kb →
  (header LA :: ca.*1) ## (header LB :: cb.*1) →
  let LA' := with_length (wrap (_length LA + _length LB)) LA in
  let LB' := MkList (header LB) (header LB) (_index LB) 0 in
  ∃ h',
    let m' := Mem h' (<[l := LB']> (<[this := LA']> (lists m))) in
    List_append_list this l m = Some (this, m') ∧
    rep m' this LA' (ca ++ cb) ka ∧ rep m' l LB' [] O ∧
    frame (nodes m) h' ((header LA :: ca.*1) ++ (header LB :: cb.*1))
          ((header LA :: (ca ++ cb).*1) ++ [header LB]).
Proof.
  intros Hne (Hla & Hsa & Hwa) (Hlb & Hsb & Hwb) Hdis LA' LB'.
  destruct (shape_append_list _ _ _ _ _ Hsa Hsb Hdis)
    as (a & bn & p & Hpa & Ha & Hbn & Habn & Hain & Hbnin & Hpin & Hap & Hp & Hn & Hs1 & Hs2).
  exists (merged (header LA) (header LB) a bn p (nodes m)). simpl.
  assert (alloc (nodes m) (header LA)) by (eapply shape_alloc; [exact Hsa|set_solver]).
  assert (alloc (nodes m) (header LB)) by (eapply shape_alloc; [exact Hsb|set_solver]).
  split; [|split; [|split]].
  - destruct m as [h ls]; simpl in *.
    unfold List_append_list, ListNode_prev. exec_l.
    rewrite (bind_rd_prev _ a) by done. exec_l.
    rewrite (bind_Some _ _ _ _ _
      (ListNode_splice_exec (Mem h _) a (header LB) (header LA) bn Ha Hbn H Habn)).
    unfold upd_nodes; simpl. exec_l. exec_l. exec_l.
    erewrite bind_lrd by (simpl; rewrite lookup_insert_ne by done; eassumption).
    simpl.
    erewrite bind_Some.
    2:{ apply (ListNode_remove_exec (Mem _ _) p (header LB) (header LA)); simpl.
        - done.
        - done.
        - by apply alloc_splice_heap.
        - by apply alloc_splice_heap. }
    unfold upd_nodes; simpl.
    erewrite bind_lwr by (simpl; by rewrite lookup_insert_ne).
    unfold upd_list; simpl. do 2 exec_l. unfold ret. unfold merged. done.
  - split; [|split]; simpl.
    + rewrite lookup_insert_ne by done. apply lookup_insert_eq.
    + done.
    + rewrite fmap_app, app_comm_cons. rewrite lookup_app_l; [done|].
      by eapply lookup_lt_Some.
  - split; [|split]; simpl; [apply lookup_insert_eq|done..].
  - split.
    + intros x Hx Hnot.
      apply merged_frame; intros ->; apply Hnot; clear -Hain Hbnin Hpin; set_solver.
    + intros x Hx. left. rewrite fmap_app in Hx. clear -Hx. set_solver.
Qed.

(** A list appended to itself: the sentinel is cut off its own ring. *)
Lemma List_append_list_self m this L cs k :
  rep m this L cs k →
  let L' := MkList (header L) (header L) (_index L) 0 in
  ∃ h',
    let m' := Mem h' (<[this := L']> (lists m)) in
    List_append_list this this m = Some (this, m') ∧
    rep m' this L' [] O ∧
    frame (nodes m) h' (header L :: cs.*1) [header L].
Proof.
  intros (Hl & Hs & Hw) L'. pose proof Hs as (Hr & Hv & Hh).
  set (hd := header L) in *. set (a := lastd hd (cs.*1)). set (bn := hdd hd (cs.*1)).
  assert (Ha : edge (nodes m) a hd) by apply path_last_edge, Hr.
  assert (Hbn : nextf (nodes m) hd = Some bn) by apply path_next, Hr.
  assert (Hpa : prevf (nodes m) hd = Some a) by apply path_prev, Hr.
  assert (Hain : a ∈ hd :: cs.*1) by apply lastd_elem.
  assert (Hbnin : bn ∈ hd :: cs.*1).
  { pose proof (hdd_elem hd (cs.*1)) as Hin. fold bn in Hin. clear -Hin. set_solver. }
  assert (Haa : alloc (nodes m) a) by by eapply ring_alloc.
  assert (Habn : alloc (nodes m) bn) by by eapply ring_alloc.
  assert (Hahd : alloc (nodes m) hd) by by eapply nextf_alloc.
  set (h1 := splice_heap a hd hd bn (nodes m)).
  assert (Hp1 : prevf h1 hd = Some hd).
  { unfold h1. rewrite prevf_splice_heap by done. case_decide as E.
    - (* the ring is empty, its last node is the sentinel *)
      f_equal. unfold a, bn, hdd, lastd in *. destruct (cs.*1) as [|c ns]; [done|].
      simpl in E. destruct Hr as [Hnd _]. apply NoDup_cons in Hnd as [Hnd _].
      exfalso. apply Hnd. rewrite E. by left.
    - by rewrite decide_True. }
  assert (Hn1 : nextf h1 hd = Some hd).
  { unfold h1. rewrite nextf_splice_heap by done. by rewrite decide_True. }
  assert (Hahd1 : alloc h1 hd) by by apply alloc_splice_heap.
  exists (merged hd hd a bn hd (nodes m)). simpl.
  destruct Ha as [Ha _].
  split; [|split; [split; [|split]|split]].
  - destruct m as [h ls]; simpl in *.
    unfold List_append_list, ListNode_prev. exec_l. fold hd.
    rewrite (bind_rd_prev _ a) by done. exec_l. fold hd.
    rewrite (bind_Some _ _ _ _ _
      (ListNode_splice_exec (Mem h _) a hd hd bn Ha Hbn Hahd Habn)).
    unfold upd_nodes; simpl. do 4 exec_l.
    erewrite bind_Some.
    2:{ by apply (ListNode_remove_exec (Mem _ _) hd hd hd). }
    unfold upd_nodes; simpl. do 3 exec_l. done.
  - simpl. apply lookup_insert_eq.
  - simpl. unfold merged. fold h1.
    destruct (rem_heap_singleton h1 hd hd hd) as [E1 E2]; [done..|].
    split; [|split].
    + simpl. split; [apply NoDup_singleton|]. by split.
    + rewrite valf_rem_heap. unfold h1. by rewrite valf_splice_heap.
    + apply Forall_nil_2.
  - done.
  - intros x Hx Hnot. apply merged_frame; intros ->; apply Hnot; (done || set_solver).
  - intros x Hx. left. set_solver.
Qed.
End list_specs.

(** * The store as a whole *)

(** ** The public operations *)

Inductive op : Type :=
  | OpNew
  | OpInsert (l : positive) (v : option gObject)
  | OpPrepend (l : positive) (v : option gObject)
  | OpAppend (l : positive) (v : option gObject)
  | OpAppendList (l l' : positive)
  | OpRemove (l : positive)
  | OpVal (l : positive)
  | OpSetVal (l : positive) (v : option gObject)
  | OpGetAt (l : positive) (pt : Z)
  | OpNext (l : positive)
  | OpPrev (l : positive)
  | OpFirst (l : positive)
  | OpLast (l : positive).

Inductive result : Type :=
  | RVal (v : option gObject)
  | RList (l : positive).

Definition run_op (o : op) : M result :=
  match o with
  | OpNew => let* l := List_new in ret (RList l)
  | OpInsert l v => let* r := List_insert l v in ret (RVal r)
  | OpPrepend l v => let* r := List_prepend l v in ret (RVal r)
  | OpAppend l v => let* r := List_append l v in ret (RVal r)
  | OpAppendList l l' => let* r := List_append_list l l' in ret (RList r)
  | OpRemove l => let* r := List_remove l in ret (RVal r)
  | OpVal l => let* r := List_val l in ret (RVal r)
  | OpSetVal l v => let* r := List_set_val l v in ret (RVal r)
  | OpGetAt l pt => let* r := List_GetAt l pt in ret (RVal r)
  | OpNext l => let* r := List_next l in ret (RVal r)
  | OpPrev l => let* r := List_prev l in ret (RVal r)
  | OpFirst l => let* r := List_first l in ret (RVal r)
  | OpLast l => let* r := List_last l in ret (RVal r)
  end.

(** The arguments of an operation are what their C++ types say: the list
    pointers point to lists, the position is an [int]. *)
Definition is_list (m : mem) (l : positive) : Prop := is_Some (lists m !! l).

Definition op_ok (m : mem) (o : op) : Prop :=
  match o with
  | OpNew => True
  | OpAppendList l l' => is_list m l ∧ is_list m l'
  | OpGetAt l pt => is_list m l ∧ is_int pt
  | OpInsert l _ | OpPrepend l _ | OpAppend l _ | OpSetVal l _
  | OpRemove l | OpVal l | OpNext l | OpPrev l | OpFirst l | OpLast l => is_list m l
  end.

(** The stores that a program gets to: from the empty store, by operations
    on arguments of their types. *)
Inductive reachable : mem → Prop :=
  | reachable_empty : reachable mem_empty
  | reachable_step m o r m' :
      reachable m → op_ok m o → run_op o m = Some (r, m') → reachable m'.

Global Instance is_int_dec z : Decision (is_int z).
Proof. unfold is_int. apply _. Defined.

Global Instance op_ok_dec m o : Decision (op_ok m o).
Proof. destruct o; simpl; unfold is_list; apply _. Defined.

(** A program without branches: the operations of [os] one after the other. *)
Fixpoint run_ops (os : list op) (m : mem) : option mem :=
  match os with
  | [] => Some m
  | o :: os' =>
      if decide (op_ok m o) then
        match run_op o m with
        | Some (_, m') => run_ops os' m'
        | None => None
        end
      else None
  end.

Lemma reachable_run_ops os m m' : reachable m → run_ops os m = Some m' → reachable m'.
Proof.
  revert m. induction os as [|o os IH]; intros m Hr; simpl.
  - by intros [= <-].
  - case_decide as Hok; [|done].
    destruct (run_op o m) as [[r m1]|] eqn:Hrun; [|done].
    intros Hrest. eapply IH; [|done]. by eapply reachable_step.
Qed.

(** ** The invariant of the store *)

(** Every list has a well-formed ring that holds its window, the rings of
    two lists share no node, and the counters are [int]s. *)
Definition inv_with (ρ : positive → list (positive * option gObject)) (m : mem) : Prop :=
  (∀ l L, lists m !! l = Some L →
      shape (nodes m) (header L) (ρ l) ∧ win L ∈ header L :: (ρ l).*1 ∧
      is_int (_index L) ∧ is_int (_length L)) ∧
  (∀ l1 l2 L1 L2, l1 ≠ l2 → lists m !! l1 = Some L1 → lists m !! l2 = Some L2 →
      (header L1 :: (ρ l1).*1) ## (header L2 :: (ρ l2).*1)).

Definition inv (m : mem) : Prop := ∃ ρ, inv_with ρ m.

Section invariant.
Implicit Types (m : mem) (this : positive) (L : List)
               (ρ : positive → list (positive * option gObject)).

Lemma inv_rep ρ m this L :
  inv_with ρ m → lists m !! this = Some L → ∃ k, rep m this L (ρ this) k.
Proof.
  intros [H1 _] Hl. destruct (H1 _ _ Hl) as (Hs & Hw & _).
  apply list_elem_of_lookup in Hw as [k Hk]. by exists k.
Qed.

(** One list changed, within its frame. *)
Lemma inv_update ρ m this L h' L' cs' :
  inv_with ρ m → lists m !! this = Some L →
  frame (nodes m) h' (header L :: (ρ this).*1) (header L' :: cs'.*1) →
  shape h' (header L') cs' → win L' ∈ header L' :: cs'.*1 →
  is_int (_index L') → is_int (_length L') →
  inv_with (λ l, if decide (l = this) then cs' else ρ l)
           (Mem h' (<[this := L']> (lists m))).
Proof.
  intros [H1 H2] Hl [Hf1 Hf2] Hs' Hw' Hi Hn.
  assert (Hother : ∀ l L2, l ≠ this → lists m !! l = Some L2 →
            shape h' (header L2) (ρ l) ∧
            (header L2 :: (ρ l).*1) ## (header L' :: cs'.*1)).
  { intros l L2 Hne Hl2. destruct (H1 _ _ Hl2) as (Hs2 & _).
    pose proof (H2 _ _ _ _ Hne Hl2 Hl) as Hdis. split.
    - eapply shape_ext; [done|]. intros x Hx. apply Hf1.
      + by eapply shape_alloc.
      + intros Hin. by apply (Hdis x).
    - intros x Hx Hx'. destruct (Hf2 _ Hx') as [Hin|Hna].
      + by apply (Hdis x).
      + apply Hna. by eapply shape_alloc. }
  split.
  - intros l L2 Hl2. simpl in *. case_decide as E.
    + subst l. rewrite lookup_insert_eq in Hl2. injection Hl2 as <-. done.
    + rewrite lookup_insert_ne in Hl2 by done.
      destruct (Hother _ _ E Hl2) as [Hs2 _]. destruct (H1 _ _ Hl2) as (_ & ? & ? & ?).
      done.
  - intros l1 l2 L1 L2 Hne Hl1 Hl2. simpl in *.
    destruct (decide (l1 = this)) as [->|E1]; destruct (decide (l2 = this)) as [->|E2].
    + done.
    + rewrite lookup_insert_eq in Hl1. injection Hl1 as <-.
      rewrite lookup_insert_ne in Hl2 by done.
      destruct (Hother _ _ E2 Hl2) as [_ Hdis]. intros x Hx Hx'. by apply (Hdis x).
    + rewrite lookup_insert_eq in Hl2. injection Hl2 as <-.
      rewrite lookup_insert_ne in Hl1 by done.
      by destruct (Hother _ _ E1 Hl1) as [_ Hdis].
    + rewrite lookup_insert_ne in Hl1, Hl2 by done. by eapply H2.
Qed.

Lemma frame_refl h F : frame h h F F.
Proof. split; [done|]. intros; by left. Qed.

(** The window moved, nothing else. *)
Lemma inv_move ρ m this L w' i :
  inv_with ρ m → lists m !! this = Some L →
  w' ∈ header L :: (ρ this).*1 → is_int i →
  inv_with ρ (upd_list this (MkList (header L) w' i (_length L)) m).
Proof.
  intros Hinv Hl Hw Hi. pose proof Hinv as [H1 _].
  destruct (H1 _ _ Hl) as (Hs & _ & _ & Hn).
  pose proof (inv_update ρ m this L (nodes m) (MkList (header L) w' i (_length L))
                (ρ this) Hinv Hl (frame_refl _ _) Hs Hw Hi Hn) as Hinv'.
  destruct Hinv' as [G1 G2]. split.
  - intros l L2 Hl2. specialize (G1 l L2 Hl2). by case_decide; subst.
  - intros l1 l2 L1 L2 Hne Hl1 Hl2. specialize (G2 l1 l2 L1 L2 Hne Hl1 Hl2).
    by repeat case_decide; subst.
Qed.
(** Two lists changed, within their joint frame. *)
Lemma inv_update2 ρ m this l LA LB h' LA' LB' ca' cb' :
  inv_with ρ m → this ≠ l →
  lists m !! this = Some LA → lists m !! l = Some LB →
  frame (nodes m) h' ((header LA :: (ρ this).*1) ++ (header LB :: (ρ l).*1))
        ((header LA' :: ca'.*1) ++ (header LB' :: cb'.*1)) →
  (header LA' :: ca'.*1) ## (header LB' :: cb'.*1) →
  shape h' (header LA') ca' → win LA' ∈ header LA' :: ca'.*1 →
  is_int (_index LA') → is_int (_length LA') →
  shape h' (header LB') cb' → win LB' ∈ header LB' :: cb'.*1 →
  is_int (_index LB') → is_int (_length LB') →
  inv_with (λ x, if decide (x = this) then ca' else if decide (x = l) then cb' else ρ x)
           (Mem h' (<[l := LB']> (<[this := LA']> (lists m)))).
Proof.
  intros [H1 H2] Hne Hla Hlb [Hf1 Hf2] Hdis' Hsa Hwa Hia Hna Hsb Hwb Hib Hnb.
  assert (Hother : ∀ x L2, x ≠ this → x ≠ l → lists m !! x = Some L2 →
            shape h' (header L2) (ρ x) ∧
            (header L2 :: (ρ x).*1) ## (header LA' :: ca'.*1) ∧
            (header L2 :: (ρ x).*1) ## (header LB' :: cb'.*1)).
  { intros x L2 Hx1 Hx2 Hl2. destruct (H1 _ _ Hl2) as (Hs2 & _).
    pose proof (H2 _ _ _ _ Hx1 Hl2 Hla) as Hdis1.
    pose proof (H2 _ _ _ _ Hx2 Hl2 Hlb) as Hdis2.
    assert (Hd : (header L2 :: (ρ x).*1) ##
              ((header LA :: (ρ this).*1) ++ (header LB :: (ρ l).*1))).
    { intros y Hy [Hy'|Hy']%elem_of_app; [by apply (Hdis1 y)|by apply (Hdis2 y)]. }
    split.
    - eapply shape_ext; [done|]. intros y Hy. apply Hf1.
      + by eapply shape_alloc.
      + intros Hin. by apply (Hd y).
    - assert (Hd' : ∀ y, y ∈ header L2 :: (ρ x).*1 →
                y ∈ (header LA' :: ca'.*1) ++ (header LB' :: cb'.*1) → False).
      { intros y Hy Hy'. destruct (Hf2 _ Hy') as [Hin|Hna'].
        - by apply (Hd y).
        - apply Hna'. by eapply shape_alloc. }
      split; intros y Hy Hy'; apply (Hd' y Hy); apply elem_of_app; [by left|by right]. }
  split.
  - intros x L2 Hl2. simpl in *.
    destruct (decide (x = l)) as [->|E2].
    + rewrite lookup_insert_eq in Hl2. injection Hl2 as <-.
      rewrite decide_False by done. done.
    + rewrite lookup_insert_ne in Hl2 by done.
      destruct (decide (x = this)) as [->|E1].
      * rewrite lookup_insert_eq in Hl2. injection Hl2 as <-. done.
      * rewrite lookup_insert_ne in Hl2 by done.
        destruct (Hother _ _ E1 E2 Hl2) as [Hs2 _].
        destruct (H1 _ _ Hl2) as (_ & ? & ? & ?). done.
  - assert (Hlook : ∀ x L2,
        (<[l := LB']> (<[this := LA']> (lists m))) !! x = Some L2 →
        (x = this ∧ L2 = LA') ∨ (x = l ∧ L2 = LB') ∨
        (x ≠ this ∧ x ≠ l ∧ lists m !! x = Some L2)).
    { intros x L2 Hx. destruct (decide (x = l)) as [->|E2].
      - rewrite lookup_insert_eq in Hx. injection Hx as <-. right; by left.
      - rewrite lookup_insert_ne in Hx by done.
        destruct (decide (x = this)) as [->|E1].
        + rewrite lookup_insert_eq in Hx. injection Hx as <-. by left.
        + rewrite lookup_insert_ne in Hx by done. right; by right. }
    intros l1 l2 L1 L2 Hne12 Hl1 Hl2. simpl in *.
    destruct (Hlook _ _ Hl1) as [[-> ->]|[[-> ->]|(E1 & E1' & Hm1)]];
    destruct (Hlook _ _ Hl2) as [[-> ->]|[[-> ->]|(E2 & E2' & Hm2)]];
      try done; rewrite ?decide_True by done; rewrite ?decide_False by done;
      rewrite ?decide_True by done; rewrite ?decide_False by done.
    + done.
    + destruct (Hother _ _ E2 E2' Hm2) as (_ & Hd & _).
      intros y Hy Hy'. by apply (Hd y Hy').
    + intros y Hy Hy'. by apply (Hdis' y).
    + destruct (Hother _ _ E2 E2' Hm2) as (_ & _ & Hd).
      intros y Hy Hy'. by apply (Hd y Hy').
    + by destruct (Hother _ _ E1 E1' Hm1) as (_ & Hd & _).
    + by destruct (Hother _ _ E1 E1' Hm1) as (_ & _ & Hd).
    + by eapply H2.
Qed.

(** A new list. *)
Lemma inv_new ρ m :
  inv_with ρ m →
  let b := fresh (dom (nodes m)) in
  let l := fresh (dom (lists m)) in
  List_new m = Some (l, Mem (<[b := Node None b b]> (nodes m))
                            (<[l := MkList b b 0 0]> (lists m))) ∧
  inv_with (λ x, if decide (x = l) then [] else ρ x)
           (Mem (<[b := Node None b b]> (nodes m)) (<[l := MkList b b 0 0]> (lists m))).
Proof.
  intros [H1 H2] b l. split; [done|].
  pose proof (fresh_not_alloc (nodes m)) as Hb. fold b in Hb.
  assert (Hl : lists m !! l = None).
  { apply not_elem_of_dom. apply is_fresh. }
  assert (Hnew : shape (<[b := Node None b b]> (nodes m)) b []).
  { split; [|split].
    - split; [apply NoDup_singleton|]. simpl. split.
      + by rewrite nextf_insert, decide_True.
      + by rewrite prevf_insert, decide_True.
    - by rewrite valf_insert, decide_True.
    - apply Forall_nil_2. }
  assert (Hold : ∀ x L2, lists m !! x = Some L2 →
            shape (<[b := Node None b b]> (nodes m)) (header L2) (ρ x) ∧
            b ∉ header L2 :: (ρ x).*1).
  { intros x L2 Hx. destruct (H1 _ _ Hx) as (Hs & _).
    assert (b ∉ header L2 :: (ρ x).*1).
    { intros Hin. apply Hb. by eapply shape_alloc. }
    split; [|done]. eapply shape_ext; [done|].
    intros y Hy. rewrite lookup_insert_ne; [done|]. by intros <-. }
  split.
  - intros x L2 Hx. simpl in *. case_decide as E.
    + subst x. rewrite lookup_insert_eq in Hx. injection Hx as <-. simpl.
      split; [done|]. split; [set_solver|]. by unfold is_int, INT_MIN, INT_MAX.
    + rewrite lookup_insert_ne in Hx by done.
      destruct (Hold _ _ Hx) as [Hs _]. destruct (H1 _ _ Hx) as (_ & ? & ? & ?). done.
  - intros l1 l2 L1 L2 Hne Hl1 Hl2. simpl in *.
    destruct (decide (l1 = l)) as [->|E1]; destruct (decide (l2 = l)) as [->|E2].
    + done.
    + rewrite lookup_insert_eq in Hl1. injection Hl1 as <-.
      rewrite lookup_insert_ne in Hl2 by done.
      destruct (Hold _ _ Hl2) as [_ Hbn]. simpl. set_solver.
    + rewrite lookup_insert_eq in Hl2. injection Hl2 as <-.
      rewrite lookup_insert_ne in Hl1 by done.
      destruct (Hold _ _ Hl1) as [_ Hbn]. simpl. set_solver.
    + rewrite lookup_insert_ne in Hl1, Hl2 by done. by eapply H2.
Qed.
Lemma inv_of_rep ρ m this L h' L' cs' k' :
  inv_with ρ m → lists m !! this = Some L →
  rep (Mem h' (<[this := L']> (lists m))) this L' cs' k' →
  frame (nodes m) h' (header L :: (ρ this).*1) (header L' :: cs'.*1) →
  is_int (_index L') → is_int (_length L') →
  inv (Mem h' (<[this := L']> (lists m))).
Proof.
  intros Hinv Hl (_ & Hs & Hk) Hfr Hi Hn. eexists.
  eapply inv_update; try done. by eapply list_elem_of_lookup_2.
Qed.

Lemma is_list_insert m h' x L' l :
  is_list m l → is_list (Mem h' (<[x := L']> (lists m))) l.
Proof.
  unfold is_list. simpl. intros H. apply lookup_insert_is_Some.
  destruct (decide (x = l)); [by left|by right].
Qed.

Lemma is_int_small z : -2147483648 ≤ z ≤ 2147483647 → is_int z.
Proof. done. Qed.

(** Every operation returns, and keeps the invariant and the lists. *)
Lemma run_op_inv m o :
  inv m → op_ok m o →
  ∃ r m', run_op o m = Some (r, m') ∧ inv m' ∧ (∀ l, is_list m l → is_list m' l).
Proof.
  intros [ρ Hinv] Hok. pose proof Hinv as [H1 H2].
  destruct o as [|l v|l v|l v|l l'|l|l|l v|l pt|l|l|l|l]; simpl in Hok.
  - (* List() *)
    destruct (inv_new _ _ Hinv) as [Hex Hinv'].
    eexists _, _. split; [|split].
    + unfold run_op. by rewrite (bind_Some _ _ _ _ _ Hex).
    + by eexists.
    + intros x. apply is_list_insert.
  - (* insert *)
    destruct Hok as [L Hl]. destruct (inv_rep _ _ _ _ Hinv Hl) as [k Hrep].
    destruct (H1 _ _ Hl) as (_ & _ & Hi & Hn).
    destruct (List_insert_spec _ _ _ _ _ v Hrep) as (h' & Hex & Hrep' & Hfr).
    eexists _, _. split; [|split].
    + unfold run_op. by rewrite (bind_Some _ _ _ _ _ Hex).
    + eapply inv_of_rep; [done..| |]; [done|apply wrap_is_int].
    + intros x. apply is_list_insert.
  - (* prepend *)
    destruct Hok as [L Hl]. destruct (inv_rep _ _ _ _ Hinv Hl) as [k Hrep].
    destruct (H1 _ _ Hl) as (_ & _ & Hi & Hn).
    destruct (List_prepend_spec _ _ _ _ _ v Hrep) as (h' & Hex & Hrep' & Hfr).
    eexists _, _. split; [|split].
    + unfold run_op. by rewrite (bind_Some _ _ _ _ _ Hex).
    + eapply inv_of_rep; [done..| |]; simpl; [|apply wrap_is_int].
      unfold prepend_index. case_decide; [apply wrap_is_int|done].
    + intros x. apply is_list_insert.
  - (* append *)
    destruct Hok as [L Hl]. destruct (inv_rep _ _ _ _ Hinv Hl) as [k Hrep].
    destruct (H1 _ _ Hl) as (_ & _ & Hi & Hn).
    destruct (List_append_spec _ _ _ _ _ v Hrep) as (h' & Hex & Hrep' & Hfr).
    eexists _, _. split; [|split].
    + unfold run_op. by rewrite (bind_Some _ _ _ _ _ Hex).
    + eapply inv_of_rep; [done..| |]; [done|apply wrap_is_int].
    + intros x. apply is_list_insert.
  - (* append of a list *)
    destruct Hok as [[LA Hla] [LB Hlb]].
    destruct (inv_rep _ _ _ _ Hinv Hla) as [ka Hrepa].
    destruct (H1 _ _ Hla) as (_ & _ & Hia & Hna).
    destruct (decide (l = l')) as [<-|Hne].
    + destruct (List_append_list_self _ _ _ _ _ Hrepa) as (h' & Hex & Hrep' & Hfr).
      eexists _, _. split; [|split].
      * unfold run_op. by rewrite (bind_Some _ _ _ _ _ Hex).
      * by eapply (inv_of_rep ρ m l LA h' _ [] O).
      * intros x. apply is_list_insert.
    + destruct (inv_rep _ _ _ _ Hinv Hlb) as [kb Hrepb].
      destruct (H1 _ _ Hlb) as (_ & _ & Hib & Hnb).
      pose proof (H2 _ _ _ _ Hne Hla Hlb) as Hdis.
      destruct (List_append_list_spec _ _ _ _ _ _ _ _ _ Hne Hrepa Hrepb Hdis)
        as (h' & Hex & (_ & Hsa' & Hka') & (_ & Hsb' & Hkb') & Hfr).
      eexists _, _. split; [|split].
      * unfold run_op. by rewrite (bind_Some _ _ _ _ _ Hex).
      * eexists. eapply (inv_update2 ρ m l l' LA LB h' _ _ (ρ l ++ ρ l') []);
          try done; simpl.
        -- intros y Hy ->%list_elem_of_singleton.
           rewrite fmap_app in Hy.
           apply elem_of_cons in Hy as [Hy|[Hy|Hy]%elem_of_app].
           ++ apply (Hdis (header LB)); [rewrite Hy|]; by left.
           ++ apply (Hdis (header LB)); [by right|by left].
           ++ destruct Hrepb as (_ & ([Hnd _] & _) & _).
              by apply NoDup_cons in Hnd as [Hnd _].
        -- by eapply list_elem_of_lookup_2.
        -- apply wrap_is_int.
        -- set_solver.
      * intros x Hx. unfold is_list in *. simpl.
        rewrite !lookup_insert_is_Some'. auto.
  - (* remove *)
    destruct Hok as [L Hl]. destruct (inv_rep _ _ _ _ Hinv Hl) as [k Hrep].
    destruct (H1 _ _ Hl) as (_ & _ & Hi & Hn).
    destruct k as [|k].
    + exists (RVal None), m. split; [|split; [by exists ρ|done]].
      unfold run_op. by rewrite (bind_Some _ _ _ _ _ (List_remove_header _ _ _ _ Hrep)).
    + assert (is_Some (ρ l !! k)) as [[w v] Hk].
      { apply lookup_lt_is_Some. apply rep_pos_le in Hrep. lia. }
      destruct (List_remove_spec _ _ _ _ _ _ _ Hrep Hk) as (h' & p & Hex & Hrep' & Hfr & _).
      eexists _, _. split; [|split].
      * unfold run_op. by rewrite (bind_Some _ _ _ _ _ Hex).
      * eapply inv_of_rep; [done..| |]; apply wrap_is_int.
      * intros x. apply is_list_insert.
  - (* val() *)
    destruct Hok as [L Hl]. destruct (inv_rep _ _ _ _ Hinv Hl) as [k Hrep].
    eexists _, m. split; [|split; [by exists ρ|done]].
    unfold run_op. by rewrite (bind_Some _ _ _ _ _ (List_val_spec _ _ _ _ _ Hrep)).
  - (* val(v) *)
    destruct Hok as [L Hl]. destruct (inv_rep _ _ _ _ Hinv Hl) as [k Hrep].
    destruct (H1 _ _ Hl) as (_ & _ & Hi & Hn).
    destruct k as [|k].
    + exists (RVal None), m. split; [|split; [by exists ρ|done]].
      unfold run_op.
      by rewrite (bind_Some _ _ _ _ _ (List_set_val_header _ _ _ _ v Hrep)).
    + assert (is_Some (ρ l !! k)) as [[w v0] Hk].
      { apply lookup_lt_is_Some. apply rep_pos_le in Hrep. lia. }
      destruct (List_set_val_spec _ _ _ _ _ _ _ v Hrep Hk) as (Hex & Hrep' & Hfr).
      eexists _, _. split; [|split].
      * unfold run_op. by rewrite (bind_Some _ _ _ _ _ Hex).
      * rewrite <- (insert_id (lists m) l L Hl) at 1.
        rewrite <- (insert_id (lists m) l L Hl) in Hrep' at 1.
        by eapply inv_of_rep.
      * done.
  - (* GetAt *)
    destruct Hok as [[L Hl] Hpt]. destruct (inv_rep _ _ _ _ Hinv Hl) as [k Hrep].
    destruct (H1 _ _ Hl) as (_ & _ & Hi & Hn).
    destruct (decide (pt < 1 ∨ pt > _length L)) as [Hout|Hin].
    + exists (RVal None), m. split; [|split; [by exists ρ|done]].
      unfold run_op. by rewrite (bind_Some _ _ _ _ _ (List_GetAt_out _ _ _ _ Hl Hout)).
    + destruct (List_GetAt_in _ _ _ _ _ pt Hrep Hi Hpt) as (k' & w' & Hk' & _ & Hex);
        [lia|].
      eexists _, _. split; [|split].
      * unfold run_op. by rewrite (bind_Some _ _ _ _ _ Hex).
      * exists ρ. apply inv_move; [done..| |done]. by eapply list_elem_of_lookup_2.
      * intros x. apply is_list_insert.
  - (* next *)
    destruct Hok as [L Hl]. destruct (inv_rep _ _ _ _ Hinv Hl) as [k Hrep].
    destruct (H1 _ _ Hl) as (_ & _ & Hi & Hn).
    destruct (List_next_spec _ _ _ _ _ Hrep) as (w' & Hk' & Hex).
    eexists _, _. split; [|split].
    + unfold run_op. by rewrite (bind_Some _ _ _ _ _ Hex).
    + exists ρ. apply inv_move; [done| |by eapply list_elem_of_lookup_2|].
      * done.
      * unfold next_index. simpl. case_decide; [by apply is_int_small|apply wrap_is_int].
    + intros x. apply is_list_insert.
  - (* prev *)
    destruct Hok as [L Hl]. destruct (inv_rep _ _ _ _ Hinv Hl) as [k Hrep].
    destruct (H1 _ _ Hl) as (_ & _ & Hi & Hn).
    destruct (List_prev_spec _ _ _ _ _ Hrep) as (w' & Hk' & Hex).
    eexists _, _. split; [|split].
    + unfold run_op. by rewrite (bind_Some _ _ _ _ _ Hex).
    + exists ρ. apply inv_move; [done| |by eapply list_elem_of_lookup_2|].
      * done.
      * unfold prev_index. simpl. case_decide; apply wrap_is_int.
    + intros x. apply is_list_insert.
  - (* first *)
    destruct Hok as [L Hl]. destruct (inv_rep _ _ _ _ Hinv Hl) as [k Hrep].
    destruct (H1 _ _ Hl) as (_ & _ & Hi & Hn).
    destruct (List_first_spec _ _ _ _ _ Hrep) as (w' & Hk' & Hex).
    eexists _, _. split; [|split].
    + unfold run_op. by rewrite (bind_Some _ _ _ _ _ Hex).
    + exists ρ. apply inv_move; [done| |by eapply list_elem_of_lookup_2|].
      * done.
      * by apply is_int_small.
    + intros x. apply is_list_insert.
  - (* last *)
    destruct Hok as [L Hl]. destruct (inv_rep _ _ _ _ Hinv Hl) as [k Hrep].
    destruct (H1 _ _ Hl) as (_ & _ & Hi & Hn).
    destruct (List_last_spec _ _ _ _ _ Hrep) as (w' & Hk' & Hex).
    eexists _, _. split; [|split].
    + unfold run_op. by rewrite (bind_Some _ _ _ _ _ Hex).
    + exists ρ. apply inv_move; [done| |by eapply list_elem_of_lookup_2|].
      * done.
      * done.
    + intros x. apply is_list_insert.
Qed.
End invariant.

Lemma inv_empty : inv mem_empty.
Proof. exists (λ _, []). split; intros *; simpl; by rewrite ?lookup_empty. Qed.

Lemma reachable_inv m : reachable m → inv m.
Proof.
  induction 1 as [|m o r m' _ IH Hok Hrun]; [apply inv_empty|].
  destruct (run_op_inv _ _ IH Hok) as (r' & m'' & Hrun' & Hinv & _).
  rewrite Hrun in Hrun'. by injection Hrun' as _ <-.
Qed.

(** ** Rings, as the nodes themselves see them *)

(** [next(prev(n)) == n] and [prev(next(n)) == n]. *)
Definition linked_both (h : gmap positive ListNode) (n : loc) : Prop :=
  (∃ p, prevf h n = Some p ∧ nextf h p = Some n) ∧
  (∃ q, nextf h n = Some q ∧ prevf h q = Some n).

(** The nodes of the ring of [hd]: those that [next] leads to from [hd]. *)
Definition in_ring (h : gmap positive ListNode) (hd n : loc) : Prop :=
  rtc (λ a b, nextf h a = Some b) hd n.

Definition rings_wf (m : mem) : Prop :=
  ∀ l L n, lists m !! l = Some L → in_ring (nodes m) (header L) n →
           linked_both (nodes m) n.

Definition singleton_ring (h : gmap positive ListNode) (n : loc) : Prop :=
  nextf h n = Some n ∧ prevf h n = Some n.

Section ring_view.
Implicit Types (h : gmap positive ListNode) (hd n : positive) (ns : list positive).

Lemma in_ring_elem h hd ns n : ring h hd ns → in_ring h hd n → n ∈ hd :: ns.
Proof.
  intros Hr Hin. unfold in_ring in Hin. revert n Hin.
  apply (rtc_ind_r (λ n, n ∈ hd :: ns)); [by left|].
  intros y z _ Hyz IH.
  apply list_elem_of_lookup in IH as [k Hk].
  destruct (ring_next _ _ _ _ _ Hr Hk) as (w & Hw & Hpos).
  rewrite Hyz in Hw. injection Hw as <-. by eapply list_elem_of_lookup_2.
Qed.

Lemma pos_prev_next (len k : nat) : (k ≤ len)%nat → pos_prev len (pos_next len k) = k.
Proof. intros. unfold pos_next. case_decide; simpl; lia. Qed.

Lemma pos_next_prev (len k : nat) : (k ≤ len)%nat → pos_next len (pos_prev len k) = k.
Proof.
  intros. unfold pos_next. destruct k as [|k]; simpl.
  - by rewrite decide_False by lia.
  - by rewrite decide_True by lia.
Qed.

Lemma ring_linked_both h hd ns n : ring h hd ns → n ∈ hd :: ns → linked_both h n.
Proof.
  intros Hr [k Hk]%list_elem_of_lookup.
  assert (k ≤ length ns)%nat as Hle.
  { apply lookup_lt_Some in Hk. simpl in Hk. lia. }
  destruct (ring_next _ _ _ _ _ Hr Hk) as (q & Hq & Hposq).
  destruct (ring_prev _ _ _ _ _ Hr Hk) as (p & Hp & Hposp).
  destruct (ring_prev _ _ _ _ _ Hr Hposq) as (n1 & Hn1 & Hpos1).
  destruct (ring_next _ _ _ _ _ Hr Hposp) as (n2 & Hn2 & Hpos2).
  rewrite pos_prev_next in Hpos1 by done. rewrite pos_next_prev in Hpos2 by done.
  rewrite Hk in Hpos1, Hpos2. injection Hpos1 as <-. injection Hpos2 as <-.
  split; eauto.
Qed.

Lemma inv_rings_wf m : inv m → rings_wf m.
Proof.
  intros [ρ [H1 _]] l L n Hl Hin. destruct (H1 _ _ Hl) as ((Hr & _) & _).
  eapply ring_linked_both; [done|]. by eapply in_ring_elem.
Qed.

Lemma new_ListNode_singleton v m :
  ∃ p m', new_ListNode v m = Some (p, m') ∧ singleton_ring (nodes m') p.
Proof.
  eexists _, _. split; [done|]. split; simpl.
  - by rewrite nextf_insert, decide_True.
  - by rewrite prevf_insert, decide_True.
Qed.

Lemma ListNode_remove_singleton m hd ns n :
  ring (nodes m) hd ns → n ∈ hd :: ns →
  ∃ m', ListNode_remove n m = Some (n, m') ∧ singleton_ring (nodes m') n.
Proof.
  intros Hr Hin. pose proof Hin as [k Hk]%list_elem_of_lookup.
  destruct (ring_next _ _ _ _ _ Hr Hk) as (q & Hq & Hposq).
  destruct (ring_prev _ _ _ _ _ Hr Hk) as (p & Hp & Hposp).
  assert (alloc (nodes m) p).
  { eapply ring_alloc; [done|]. by eapply list_elem_of_lookup_2. }
  assert (alloc (nodes m) q).
  { eapply ring_alloc; [done|]. by eapply list_elem_of_lookup_2. }
  eexists. split; [by apply (ListNode_remove_exec _ p n q)|].
  apply rem_heap_singleton; [|done..]. by eapply ring_alloc.
Qed.
End ring_view.

(** ** Deciding the predicates on a given store *)

Global Instance edge_dec h a b : Decision (edge h a b).
Proof. unfold edge. apply _. Defined.

Global Instance path_dec h a ns z : Decision (path h a ns z).
Proof. revert a. induction ns as [|c ns IH]; intros a; simpl; apply _. Defined.

Global Instance ring_dec h hd ns : Decision (ring h hd ns).
Proof. unfold ring. apply _. Defined.

Global Instance holds_dec h cs : Decision (holds h cs).
Proof. unfold holds. apply _. Defined.

Global Instance shape_dec h hd cs : Decision (shape h hd cs).
Proof. unfold shape. apply _. Defined.

Global Instance rep_dec m this L cs k : Decision (rep m this L cs k).
Proof. unfold rep. apply _. Defined.

Global Instance counted_dec L cs k : Decision (counted L cs k).
Proof. unfold counted. apply _. Defined.

(** ** Two stores to try things on *)

(** One list, [10, 20, 30], its window on the second element. *)
Definition ex_ops : list op :=
  [OpNew; OpAppend 1 (Some (gInt 10)); OpAppend 1 (Some (gInt 20));
   OpAppend 1 (Some (gInt 30)); OpGetAt 1 2].
Definition ex_mem : mem := default mem_empty (run_ops ex_ops mem_empty).
Definition ex_list : List := MkList 1 3 2 3.
Definition ex_cells : list (positive * option gObject) :=
  [(2%positive, Some (gInt 10)); (3%positive, Some (gInt 20)); (4%positive, Some (gInt 30))].

Lemma ex_mem_reachable : reachable ex_mem.
Proof. apply (reachable_run_ops ex_ops mem_empty); [constructor | by vm_compute]. Qed.

Lemma ex_mem_rep : rep ex_mem 1 ex_list ex_cells 2.
Proof. compute_done. Qed.

Lemma ex_mem_counted : counted ex_list ex_cells 2.
Proof. compute_done. Qed.

(** A list just made, and nothing else. *)
Definition new_mem : mem := default mem_empty (run_ops [OpNew] mem_empty).
Definition new_list : List := MkList 1 1 0 0.

Lemma new_mem_rep : rep new_mem 1 new_list [] 0.
Proof. compute_done. Qed.

(** * The claims *)

(** C7.  In every store that a program gets to, every node [n] of the ring
    of every list satisfies [next(prev(n)) == n] and [prev(next(n)) == n];
    every operation (the constructor, insert, prepend, append, append of a
    list, also of the list itself, remove, val, GetAt, next, prev, first,
    last) returns and leaves a store for which this holds again; a node
    made by [new ListNode] is a ring of its own, and so is a node of a ring
    after [ListNode::remove]. *)
Theorem ring_well_formed_always m :
  reachable m →
  rings_wf m ∧
  (∀ o, op_ok m o → ∃ r m', run_op o m = Some (r, m') ∧ rings_wf m') ∧
  (∀ v, ∃ p m', new_ListNode v m = Some (p, m') ∧ singleton_ring (nodes m') p) ∧
  (∀ l L n, lists m !! l = Some L → in_ring (nodes m) (header L) n →
     ∃ m', ListNode_remove n m = Some (n, m') ∧ singleton_ring (nodes m') n).
Proof.
  intros Hreach. pose proof (reachable_inv _ Hreach) as Hinv.
  split; [by apply inv_rings_wf|]. split; [|split].
  - intros o Hok. destruct (run_op_inv _ _ Hinv Hok) as (r & m' & Hrun & Hinv' & _).
    exists r, m'. split; [done|]. by apply inv_rings_wf.
  - intros v. apply new_ListNode_singleton.
  - intros l L n Hl Hin. destruct Hinv as [ρ [H1 _]].
    destruct (H1 _ _ Hl) as ((Hr & _) & _).
    eapply ListNode_remove_singleton; [done|]. by eapply in_ring_elem.
Qed.

Lemma ring_well_formed_always_witness :
  reachable ex_mem ∧ rings_wf ex_mem.
Proof.
  split; [apply ex_mem_reachable|].
  apply (ring_well_formed_always ex_mem), ex_mem_reachable.
Defined.

(** C9.  [GetAt] at a position below 1 or above the length returns [NULL]
    and leaves the whole store as it was: the window, the index, the length
    and the ring of the list, and everything else. *)
Theorem GetAt_out_of_range_unchanged m this L pt :
  lists m !! this = Some L → pt < 1 ∨ pt > _length L →
  List_GetAt this pt m = Some (None, m).
Proof. apply List_GetAt_out. Qed.

Lemma GetAt_out_of_range_unchanged_witness :
  List_GetAt 1 4 ex_mem = Some (None, ex_mem) ∧
  List_GetAt 1 0 ex_mem = Some (None, ex_mem).
Proof.
  split.
  - apply (GetAt_out_of_range_unchanged ex_mem 1 ex_list 4); [compute_done|right; compute_done].
  - apply (GetAt_out_of_range_unchanged ex_mem 1 ex_list 0); [compute_done|left; compute_done].
Defined.

(** C10.  On an empty stack [top()] and [bottom()] return [NULL], the value
    of the sentinel that [first()] and [last()] land on, and leave the stack
    empty: no element, [size() == 0], [empty()] true. *)
Theorem top_bottom_on_empty_stack m s L :
  rep m s L [] O → _length L = 0 →
  (∃ m' L', Stack_top s m = Some (None, m') ∧ rep m' s L' [] O ∧
            Stack_size s m' = Some (0, m') ∧ Stack_empty s m' = Some (true, m')) ∧
  (∃ m' L', Stack_bottom s m = Some (None, m') ∧ rep m' s L' [] O ∧
            Stack_size s m' = Some (0, m') ∧ Stack_empty s m' = Some (true, m')).
Proof.
  intros Hrep Hlen. split.
  - destruct (List_first_spec _ _ _ _ _ Hrep) as (w' & Hw' & Hex).
    eexists _, _. split; [exact Hex|]. split; [by eapply rep_move|].
    unfold Stack_size, Stack_empty, List_length. split.
    + unfold lrd. simpl. rewrite lookup_insert_eq. simpl. by rewrite Hlen.
    + erewrite bind_lrd by apply lists_upd_list. simpl. by rewrite Hlen.
  - destruct (List_last_spec _ _ _ _ _ Hrep) as (w' & Hw' & Hex).
    eexists _, _. split; [exact Hex|]. split; [by eapply rep_move|].
    unfold Stack_size, Stack_empty, List_length. split.
    + unfold lrd. simpl. rewrite lookup_insert_eq. simpl. by rewrite Hlen.
    + erewrite bind_lrd by apply lists_upd_list. simpl. by rewrite Hlen.
Qed.

Lemma top_bottom_on_empty_stack_witness :
  rep new_mem 1 new_list [] O ∧
  (∃ m' L', Stack_top 1 new_mem = Some (None, m') ∧ rep m' 1 L' [] O ∧
            Stack_size 1 m' = Some (0, m') ∧ Stack_empty 1 m' = Some (true, m')).
Proof.
  split; [apply new_mem_rep|].
  apply (top_bottom_on_empty_stack new_mem 1 new_list); [apply new_mem_rep|done].
Defined.

(** [remove()] on a list whose counters are right: it returns [NULL] and
    changes nothing when the window is the sentinel.  With the window on
    element [p], it returns the value of that element, destroys its node,
    leaves the other elements in their order with the window on position
    [p - 1] (the sentinel for [p = 1]), and index and length one less, so
    that the counters are right again. *)
Lemma remove_correct m this L cs k :
  rep m this L cs k → counted L cs k →
  (win L = header L → List_remove this m = Some (None, m)) ∧
  (win L ≠ header L →
     ∃ j v m' L',
       k = S j ∧ cs !! j = Some (win L, v) ∧
       List_remove this m = Some (v, m') ∧
       rep m' this L' (delete j cs) j ∧ counted L' (delete j cs) j ∧
       ¬ alloc (nodes m') (win L) ∧
       (j = O → win L' = header L')).
Proof.
  intros Hrep (Hi & Hn & Hint).
  assert (Hhead : win L = header L → List_remove this m = Some (None, m)).
  { intros Hw. apply (rep_win_header _ _ _ _ _ Hrep) in Hw. subst k.
    by eapply List_remove_header. }
  split; [done|].
  intros Hw. destruct k as [|j].
  { exfalso. apply Hw. by apply (rep_win_header _ _ _ _ _ Hrep). }
  pose proof (rep_pos_le _ _ _ _ _ Hrep) as Hle.
  assert (is_Some (cs !! j)) as [[w v] Hj] by (apply lookup_lt_is_Some; lia).
  assert (win L = w) as Hww.
  { destruct Hrep as (_ & _ & Hk). simpl in Hk.
    rewrite list_lookup_fmap, Hj in Hk. by injection Hk. }
  destruct (List_remove_spec _ _ _ _ _ _ _ Hrep Hj) as (h' & p & Hex & Hrep' & _ & Hfree).
  exists j, v. eexists _, _. rewrite Hww.
  split; [done|]. split; [done|]. split; [exact Hex|]. split; [exact Hrep'|].
  assert (length (delete j cs) = (length cs - 1)%nat) as Hlen.
  { rewrite length_delete; [done|eauto]. }
  unfold is_int, INT_MIN, INT_MAX in Hint.
  split; [|split; [done|]].
  - unfold counted. simpl. rewrite Hi, Hn, Hlen.
    rewrite !wrap_id by (unfold is_int, INT_MIN, INT_MAX; lia).
    unfold is_int, INT_MIN, INT_MAX. lia.
  - intros ->. by apply (rep_win_header _ _ _ _ _ Hrep').
Qed.

Lemma remove_correct_witness :
  rep ex_mem 1 ex_list ex_cells 2 ∧ counted ex_list ex_cells 2 ∧
  ∃ m' L', List_remove 1 ex_mem = Some (Some (gInt 20), m') ∧
           rep m' 1 L' [(2%positive, Some (gInt 10)); (4%positive, Some (gInt 30))] 1 ∧
           _index L' = 1 ∧ _length L' = 2.
Proof.
  split; [apply ex_mem_rep|]. split; [apply ex_mem_counted|].
  destruct (remove_correct ex_mem 1 ex_list ex_cells 2 ex_mem_rep ex_mem_counted)
    as (_ & H).
  destruct H as (j & v & m' & L' & Hk & Hj & Hex & Hrep & (Hi & Hn & _) & _);
    [by compute|].
  injection Hk as <-. simpl in Hj. injection Hj as <-.
  exists m', L'. split; [exact Hex|]. split; [exact Hrep|]. split; [exact Hi|exact Hn].
Defined.

(** C4 (the code departs from it).  On an empty list [first()] and then
    [remove()], which is what [pop()] does on an empty stack, return
    [NULL] and leave the list empty with the window on the sentinel, but
    with an index of 1 where the claim has 0: [remove()] returns at once
    when the window is the sentinel, and the index is the one that
    [first()] has set. *)
Theorem remove_on_empty_leaves_index m this L :
  rep m this L [] O → _length L = 0 →
  ∃ m' L', (List_first this ;;; List_remove this) m = Some (None, m') ∧
           Stack_pop this m = Some (None, m') ∧
           rep m' this L' [] O ∧ win L' = header L' ∧
           _length L' = 0 ∧ _index L' = 1.
Proof.
  intros Hrep Hlen. destruct (List_first_spec _ _ _ _ _ Hrep) as (w' & Hw' & Hex).
  simpl in Hw'. injection Hw' as <-.
  pose proof (rep_move _ _ _ _ _ O _ 1 (_length L) Hrep eq_refl) as Hrep1.
  pose proof (List_remove_header _ _ _ _ Hrep1) as Hex1.
  assert (Hpop : (List_first this ;;; List_remove this) m
                 = Some (None, upd_list this (MkList (header L) (header L) 1 (_length L)) m)).
  { by rewrite (bind_Some _ _ _ _ _ Hex). }
  eexists _, _. split; [exact Hpop|]. split; [exact Hpop|].
  split; [exact Hrep1|]. done.
Qed.

Lemma remove_on_empty_leaves_index_witness :
  rep new_mem 1 new_list [] O ∧
  ∃ m' L', (List_first 1 ;;; List_remove 1) new_mem = Some (None, m') ∧
           lists m' !! 1%positive = Some L' ∧ _length L' = 0 ∧ _index L' = 1.
Proof.
  split; [apply new_mem_rep|].
  destruct (remove_on_empty_leaves_index new_mem 1 new_list new_mem_rep eq_refl)
    as (m' & L' & H1 & _ & (H2 & _) & _ & H3 & H4).
  exists m', L'. split; [exact H1|]. split; [exact H2|]. split; [exact H3|exact H4].
Defined.

(** With the window on the only element and the index at 0, as they are
    after [first()] on the empty list, [append(7)] and [next()], [remove()]
    returns the element and leaves the window on the sentinel with an index
    of -1. *)
Example remove_with_stale_index :
  ∃ m L,
    run_ops [OpNew; OpFirst 1; OpAppend 1 (Some (gInt 7)); OpNext 1] mem_empty = Some m ∧
    lists m !! 1%positive = Some L ∧ win L ≠ header L ∧ _index L = 0 ∧
    ∃ m' L', List_remove 1 m = Some (Some (gInt 7), m') ∧
             lists m' !! 1%positive = Some L' ∧
             win L' = header L' ∧ _length L' = 0 ∧ _index L' = -1.
Proof.
  eexists _, _. split; [by vm_compute|]. split; [by vm_compute|].
  split; [by compute|]. split; [done|].
  eexists _, _. split; [by vm_compute|]. split; [by vm_compute|]. done.
Qed.

(** ** The invariant of the counters *)

(** [0 <= index <= length], and [index == 0] exactly when the window is the
    sentinel. *)
Definition list_invariant (L : List) : Prop :=
  0 ≤ _index L ≤ _length L ∧ (_index L = 0 ↔ win L = header L).

(** C1 (the code departs from it).  [first()] on an empty list leaves the
    window on the sentinel and sets the index to 1, with a length of 0: the
    invariant of the counters is broken. *)
Theorem first_on_empty_breaks_invariant m this L :
  rep m this L [] O → _length L = 0 →
  ∃ m' L', List_first this m = Some (None, m') ∧ lists m' !! this = Some L' ∧
           win L' = header L' ∧ _index L' = 1 ∧ _length L' = 0 ∧
           ¬ list_invariant L'.
Proof.
  intros Hrep Hlen. destruct (List_first_spec _ _ _ _ _ Hrep) as (w' & Hw' & Hex).
  simpl in Hw'. injection Hw' as <-.
  eexists _, _. split; [exact Hex|]. split; [apply lists_upd_list|]. simpl.
  split; [done|]. split; [done|]. split; [done|].
  intros [Hrange _]. simpl in Hrange. lia.
Qed.

Lemma first_on_empty_breaks_invariant_witness :
  rep new_mem 1 new_list [] O ∧
  ∃ m' L', List_first 1 new_mem = Some (None, m') ∧ lists m' !! 1%positive = Some L' ∧
           ¬ list_invariant L'.
Proof.
  split; [apply new_mem_rep|].
  destruct (first_on_empty_breaks_invariant new_mem 1 new_list new_mem_rep eq_refl)
    as (m' & L' & H1 & H2 & _ & _ & _ & H3).
  by exists m', L'.
Defined.

(** An empty list on which [first()] was called answers [GetAt(1)] with
    [NULL] once it has an element: the index says 1 while the window is the
    sentinel. *)
Example first_on_empty_then_GetAt :
  ∃ m, run_ops [OpNew; OpFirst 1; OpAppend 1 (Some (gInt 7))] mem_empty = Some m ∧
       (∃ m', List_GetAt 1 1 m = Some (None, m')) ∧
       ∃ m0, run_ops [OpNew; OpAppend 1 (Some (gInt 7))] mem_empty = Some m0 ∧
             ∃ m', List_GetAt 1 1 m0 = Some (Some (gInt 7), m').
Proof.
  eexists. split; [by vm_compute|]. split; [eexists; by vm_compute|].
  eexists. split; [by vm_compute|]. eexists; by vm_compute.
Qed.

(** ** Stacks *)

(** Push the values of [vs], first value first. *)
Fixpoint push_all (s : loc) (vs : list (option gObject)) : M unit :=
  match vs with
  | [] => ret tt
  | v :: vs' => Stack_push s v ;;; push_all s vs'
  end.

(** Pop [n] times; the values popped, first pop first. *)
Fixpoint pop_n (s : loc) (n : nat) : M (list (option gObject)) :=
  match n with
  | O => ret []
  | S n' =>
      let* v := Stack_pop s in
      let* vs := pop_n s n' in
      ret (v :: vs)
  end.

Section stack.
Implicit Types (m : mem) (s : positive) (L : List)
               (cs : list (positive * option gObject)) (k : nat).

Lemma Stack_push_spec m s L cs k v :
  rep m s L cs k →
  ∃ m' L' b k', Stack_push s v m = Some (tt, m') ∧ rep m' s L' ((b, v) :: cs) k'.
Proof.
  intros Hrep. destruct (List_prepend_spec _ _ _ _ _ v Hrep) as (h' & Hex & Hrep' & _).
  eexists _, _, _, _. split; [|exact Hrep'].
  unfold Stack_push. by rewrite (bind_Some _ _ _ _ _ Hex).
Qed.

Lemma push_all_spec vs m s L cs k :
  rep m s L cs k →
  ∃ m' L' cs' k', push_all s vs m = Some (tt, m') ∧ rep m' s L' (cs' ++ cs) k' ∧
                  cs'.*2 = rev vs.
Proof.
  revert m L cs k. induction vs as [|v vs IH]; intros m L cs k Hrep.
  - exists m, L, [], k. done.
  - destruct (Stack_push_spec _ _ _ _ _ v Hrep) as (m1 & L1 & b & k1 & Hex & Hrep1).
    destruct (IH _ _ _ _ Hrep1) as (m2 & L2 & cs2 & k2 & Hex2 & Hrep2 & Hvs).
    exists m2, L2, (cs2 ++ [(b, v)]), k2. split; [|split].
    + simpl. by rewrite (bind_Some _ _ _ _ _ Hex).
    + by rewrite <- app_assoc.
    + rewrite fmap_app, Hvs. done.
Qed.

Lemma Stack_pop_spec m s L cs k w v :
  rep m s L ((w, v) :: cs) k →
  ∃ m' L', Stack_pop s m = Some (v, m') ∧ rep m' s L' cs O.
Proof.
  intros Hrep. destruct (List_first_spec _ _ _ _ _ Hrep) as (w' & Hw' & Hex).
  pose proof (rep_move _ _ _ _ _ _ _ 1 (_length L) Hrep Hw') as Hrep1.
  unfold pos_next in Hrep1. rewrite decide_True in Hrep1 by (simpl; lia).
  destruct (List_remove_spec _ _ _ _ O w v Hrep1 eq_refl) as (h' & p & Hex2 & Hrep2 & _).
  eexists _, _. split; [|exact Hrep2].
  unfold Stack_pop. by rewrite (bind_Some _ _ _ _ _ Hex).
Qed.

Lemma Stack_pop_empty m s L k :
  rep m s L [] k →
  ∃ m' L', Stack_pop s m = Some (None, m') ∧ rep m' s L' [] O.
Proof.
  intros Hrep. destruct (List_first_spec _ _ _ _ _ Hrep) as (w' & Hw' & Hex).
  pose proof (rep_move _ _ _ _ _ _ _ 1 (_length L) Hrep Hw') as Hrep1.
  eexists _, _. split; [|exact Hrep1].
  unfold Stack_pop. rewrite (bind_Some _ _ _ _ _ Hex).
  by eapply List_remove_header.
Qed.

Lemma pop_n_spec cs1 m s L cs k :
  rep m s L (cs1 ++ cs) k →
  ∃ m' L' k', pop_n s (length cs1) m = Some (cs1.*2, m') ∧ rep m' s L' cs k'.
Proof.
  revert m L k. induction cs1 as [|[w v] cs1 IH]; intros m L k Hrep.
  - exists m, L, k. done.
  - destruct (Stack_pop_spec _ _ _ _ _ _ _ Hrep) as (m1 & L1 & Hex & Hrep1).
    destruct (IH _ _ _ Hrep1) as (m2 & L2 & k2 & Hex2 & Hrep2).
    exists m2, L2, k2. split; [|done]. simpl.
    rewrite (bind_Some _ _ _ _ _ Hex). by rewrite (bind_Some _ _ _ _ _ Hex2).
Qed.
End stack.

(** C8.  On an empty stack, any values pushed and then popped as many times
    come back in the reverse order of the pushes, and one more pop returns
    [NULL] (and leaves the stack empty). *)
Theorem push_pop_reverse m s L (vs : list (option gObject)) :
  rep m s L [] O →
  ∃ m1 m2 m3 L3,
    push_all s vs m = Some (tt, m1) ∧
    pop_n s (length vs) m1 = Some (rev vs, m2) ∧
    Stack_pop s m2 = Some (None, m3) ∧ rep m3 s L3 [] O.
Proof.
  intros Hrep.
  destruct (push_all_spec vs _ _ _ _ _ Hrep) as (m1 & L1 & cs1 & k1 & Hex1 & Hrep1 & Hvs).
  destruct (pop_n_spec _ _ _ _ _ _ Hrep1) as (m2 & L2 & k2 & Hex2 & Hrep2).
  destruct (Stack_pop_empty _ _ _ _ Hrep2) as (m3 & L3 & Hex3 & Hrep3).
  exists m1, m2, m3, L3. split; [done|]. split; [|done].
  rewrite Hvs in Hex2. rewrite <- Hex2. f_equal.
  by rewrite <- (length_fmap snd cs1), Hvs, length_rev.
Qed.

Lemma push_pop_reverse_witness :
  rep new_mem 1 new_list [] O ∧
  ∃ m1 m2 m3 L3,
    push_all 1 [Some (gInt 1); Some (gInt 2); Some (gInt 3)] new_mem = Some (tt, m1) ∧
    pop_n 1 3 m1 = Some ([Some (gInt 3); Some (gInt 2); Some (gInt 1)], m2) ∧
    Stack_pop 1 m2 = Some (None, m3) ∧ rep m3 1 L3 [] O.
Proof.
  split; [apply new_mem_rep|].
  apply (push_pop_reverse new_mem 1 new_list
           [Some (gInt 1); Some (gInt 2); Some (gInt 3)] new_mem_rep).
Defined.

(** ** Walking a list with [first()] and [next()] *)

(** [j] calls of [next()]; the values they return, first call first. *)
Fixpoint next_n (j : nat) (this : loc) : M (list (option gObject)) :=
  match j with
  | O => ret []
  | S j' =>
      let* r := List_next this in
      let* rs := next_n j' this in
      ret (r :: rs)
  end.

(** [first()] and then [j] calls of [next()]; the values returned. *)
Definition first_then_next (this : loc) (j : nat) : M (list (option gObject)) :=
  let* r := List_first this in
  let* rs := next_n j this in
  ret (r :: rs).

Section walk.
Implicit Types (m : mem) (this : positive) (L : List)
               (cs : list (positive * option gObject)) (k p j : nat).

Lemma next_n_app j j' this m :
  next_n (j + j') this m =
    (let* rs := next_n j this in
     let* rs' := next_n j' this in
     ret (rs ++ rs')) m.
Proof.
  revert m. induction j as [|j IH]; intros m; simpl.
  - rewrite bind_ret. unfold bind. destruct (next_n j' this m) as [[rs m']|]; done.
  - rewrite bind_assoc.
    destruct (List_next this m) as [[r m1]|] eqn:Hnext.
    + rewrite !(bind_Some _ _ _ _ _ Hnext). rewrite bind_assoc.
      unfold bind at 1. rewrite IH.
      unfold bind. destruct (next_n j this m1) as [[rs m2]|]; [|done]. simpl.
      destruct (next_n j' this m2) as [[rs' m3]|]; done.
    + unfold bind. by rewrite Hnext.
Qed.

(** From position [p], with the index saying so, [j] calls of [next()] that
    stay within the elements. *)
Lemma next_n_spec j m this L cs p :
  rep m this L cs p → _index L = Z.of_nat p → _length L = Z.of_nat (length cs) →
  is_int (_length L) → (p + j ≤ length cs)%nat →
  ∃ w', (header L :: cs.*1) !! (p + j)%nat = Some w' ∧
        next_n j this m =
          Some ((take j (drop p cs)).*2,
                upd_list this (MkList (header L) w' (Z.of_nat (p + j)) (_length L)) m).
Proof.
  revert m L p. induction j as [|j IH]; intros m L p Hrep Hi Hn Hint Hle.
  - exists (win L). rewrite Nat.add_0_r. split; [apply Hrep|].
    simpl. rewrite <- Hi.
    replace (MkList (header L) (win L) (_index L) (_length L)) with L by by destruct L.
    rewrite upd_list_id; [done|apply Hrep].
  - destruct (List_next_spec _ _ _ _ _ Hrep) as (w1 & Hw1 & Hex).
    unfold pos_next in Hw1, Hex. rewrite decide_True in Hw1, Hex by lia.
    assert (next_index L = Z.of_nat (S p)) as Hni.
    { unfold next_index. rewrite Hi, Hn. unfold is_int, INT_MIN, INT_MAX in Hint.
      rewrite wrap_id by (unfold is_int, INT_MIN, INT_MAX; lia).
      rewrite decide_False; lia. }
    rewrite Hni in Hex.
    pose proof (rep_move _ _ _ _ _ _ _ (Z.of_nat (S p)) (_length L) Hrep Hw1) as Hrep1.
    destruct (IH _ _ (S p) Hrep1 eq_refl Hn Hint ltac:(lia)) as (w' & Hw' & Hex').
    simpl in Hw', Hex'. exists w'. split.
    + by replace (p + S j)%nat with (S p + j)%nat by lia.
    + simpl next_n. rewrite (bind_Some _ _ _ _ _ Hex).
      rewrite (bind_Some _ _ _ _ _ Hex'). unfold ret. rewrite upd_list_upd_list.
      replace (p + S j)%nat with (S (p + j))%nat by lia. do 2 f_equal.
      assert (is_Some (cs !! p)) as [c Hc] by (apply lookup_lt_is_Some; lia).
      rewrite (drop_S _ _ _ Hc). simpl. by rewrite Hc.
Qed.

Lemma first_then_next_spec j m this L cs k :
  rep m this L cs k → _length L = Z.of_nat (length cs) → is_int (_length L) →
  (j < length cs)%nat →
  ∃ w', (header L :: cs.*1) !! S j = Some w' ∧
        first_then_next this j m =
          Some ((take (S j) cs).*2,
                upd_list this (MkList (header L) w' (Z.of_nat (S j)) (_length L)) m).
Proof.
  intros Hrep Hn Hint Hj.
  destruct (List_first_spec _ _ _ _ _ Hrep) as (w1 & Hw1 & Hex).
  unfold pos_next in Hw1, Hex. rewrite decide_True in Hw1, Hex by lia.
  pose proof (rep_move _ _ _ _ _ _ _ 1 (_length L) Hrep Hw1) as Hrep1.
  destruct (next_n_spec j _ _ _ _ 1%nat Hrep1 eq_refl Hn Hint ltac:(lia))
    as (w' & Hw' & Hex').
  simpl in Hw', Hex'. exists w'. split; [done|].
  unfold first_then_next. rewrite (bind_Some _ _ _ _ _ Hex).
  rewrite (bind_Some _ _ _ _ _ Hex'). unfold ret. rewrite upd_list_upd_list.
  do 2 f_equal. destruct cs as [|c cs]; [simpl in Hj; lia|].
  simpl. by rewrite drop_0.
Qed.
End walk.

Lemma first_then_next_S this j m :
  first_then_next this (S j) m =
    (let* rs := first_then_next this j in
     let* r := List_next this in
     ret (rs ++ [r])) m.
Proof.
  unfold first_then_next. rewrite bind_assoc.
  destruct (List_first this m) as [[r0 m0]|] eqn:Hfirst.
  2:{ unfold bind. by rewrite Hfirst. }
  rewrite !(bind_Some _ _ _ _ _ Hfirst). rewrite bind_assoc.
  replace (S j) with (j + 1)%nat by lia. unfold bind at 1. rewrite next_n_app.
  unfold bind. destruct (next_n j this m0) as [[rs m1]|]; [|done]. simpl.
  unfold bind. destruct (List_next this m1) as [[r m2]|]; done.
Qed.

(** C6, as the code has it.  On a list of [n] elements (with [n + 1] an
    [int]): for [n >= 1], [first()] focuses position 1, the [j]-th [next()]
    after it focuses position [j + 1] for [j < n], the values returned up
    to there being those of the elements in order, and the [n]-th [next()]
    lands the window on the sentinel, returns [NULL] and resets the index
    to 0; for [n = 0], [first()] leaves the window on the sentinel, and the
    first [next()] after it, the [(n+1)]-th, leaves it there and resets the
    index to 0. *)
Theorem first_then_next_visits m this L cs k :
  rep m this L cs k → _length L = Z.of_nat (length cs) →
  Z.of_nat (length cs) < INT_MAX →
  (∀ j, (j < length cs)%nat →
     ∃ m' L', first_then_next this j m = Some ((take (S j) cs).*2, m') ∧
              rep m' this L' cs (S j) ∧ _index L' = Z.of_nat (S j)) ∧
  (cs ≠ [] →
     ∃ m' L', first_then_next this (length cs) m = Some (cs.*2 ++ [None], m') ∧
              rep m' this L' cs O ∧ win L' = header L' ∧ _index L' = 0) ∧
  (cs = [] →
     (∃ m' L', first_then_next this 0 m = Some ([None], m') ∧
               rep m' this L' cs O ∧ win L' = header L') ∧
     (∃ m' L', first_then_next this 1 m = Some ([None; None], m') ∧
               rep m' this L' cs O ∧ win L' = header L' ∧ _index L' = 0)).
Proof.
  intros Hrep Hn Hlen. unfold INT_MAX in Hlen.
  assert (Hint : is_int (_length L)) by (unfold is_int, INT_MIN, INT_MAX; lia).
  assert (Hvisit : ∀ j, (j < length cs)%nat →
     ∃ m' L', first_then_next this j m = Some ((take (S j) cs).*2, m') ∧
              rep m' this L' cs (S j) ∧ _index L' = Z.of_nat (S j) ∧
              _length L' = _length L).
  { intros j Hj.
    destruct (first_then_next_spec j _ _ _ _ _ Hrep Hn Hint Hj) as (w' & Hw' & Hex).
    eexists _, _. split; [exact Hex|]. split; [by eapply rep_move|]. done. }
  split; [|split].
  - intros j Hj. destruct (Hvisit j Hj) as (m' & L' & ? & ? & ? & _). eauto.
  - intros Hne. assert (0 < length cs)%nat as Hpos.
    { destruct cs; [done|simpl; lia]. }
    destruct (Hvisit (length cs - 1)%nat ltac:(lia)) as (m1 & L1 & Hex1 & Hrep1 & Hi1 & Hn1).
    replace (S (length cs - 1)) with (length cs) in * by lia.
    destruct (List_next_spec _ _ _ _ _ Hrep1) as (w' & Hw' & Hex2).
    unfold pos_next in Hw', Hex2. rewrite decide_False in Hw', Hex2 by lia.
    simpl in Hw'. injection Hw' as <-.
    assert (next_index L1 = 0) as Hni.
    { unfold next_index. rewrite Hi1, Hn1, Hn.
      rewrite wrap_id by (unfold is_int, INT_MIN, INT_MAX; lia).
      rewrite decide_True; lia. }
    rewrite Hni in Hex2.
    exists (upd_list this (MkList (header L1) (header L1) 0 (_length L1)) m1),
           (MkList (header L1) (header L1) 0 (_length L1)).
    split; [|split; [by eapply (rep_move _ _ _ _ _ O)|done]].
    replace (length cs) with (S (length cs - 1)) at 1 by lia.
    rewrite first_then_next_S. rewrite (bind_Some _ _ _ _ _ Hex1).
    rewrite (bind_Some _ _ _ _ _ Hex2). unfold ret. simpl.
    by rewrite firstn_all.
  - intros ->. simpl in Hn.
    destruct (List_first_spec _ _ _ _ _ Hrep) as (w1 & Hw1 & Hex1).
    simpl in Hw1. injection Hw1 as <-. simpl in Hex1.
    pose proof (rep_move _ _ _ _ _ O _ 1 (_length L) Hrep eq_refl) as Hrep1.
    destruct (List_next_spec _ _ _ _ _ Hrep1) as (w2 & Hw2 & Hex2).
    simpl in Hw2. injection Hw2 as <-. simpl in Hex2.
    assert (next_index (MkList (header L) (header L) 1 (_length L)) = 0) as Hni.
    { unfold next_index. simpl. rewrite Hn. done. }
    rewrite Hni, upd_list_upd_list in Hex2.
    pose proof (rep_move _ _ _ _ _ O _ 0 (_length L) Hrep eq_refl) as Hrep2.
    split.
    + eexists _, _. split; [|split; [exact Hrep1|done]].
      unfold first_then_next. by rewrite (bind_Some _ _ _ _ _ Hex1).
    + eexists _, _. split; [|split; [exact Hrep2|done]].
      unfold first_then_next. rewrite (bind_Some _ _ _ _ _ Hex1).
      simpl next_n. rewrite bind_assoc. by rewrite (bind_Some _ _ _ _ _ Hex2).
Qed.

Lemma first_then_next_visits_witness :
  rep ex_mem 1 ex_list ex_cells 2 ∧
  (∃ m' L', first_then_next 1 2 ex_mem =
              Some ([Some (gInt 10); Some (gInt 20); Some (gInt 30)], m') ∧
            rep m' 1 L' ex_cells 3 ∧ _index L' = 3) ∧
  (∃ m' L', first_then_next 1 3 ex_mem =
              Some ([Some (gInt 10); Some (gInt 20); Some (gInt 30); None], m') ∧
            rep m' 1 L' ex_cells O ∧ win L' = header L' ∧ _index L' = 0) ∧
  rep new_mem 1 new_list [] O ∧
  (∃ m' L', first_then_next 1 1 new_mem = Some ([None; None], m') ∧
            rep m' 1 L' [] O ∧ win L' = header L' ∧ _index L' = 0).
Proof.
  split; [apply ex_mem_rep|].
  destruct (first_then_next_visits ex_mem 1 ex_list ex_cells 2 ex_mem_rep eq_refl)
    as (H1 & H2 & _); [by compute|].
  split; [apply (H1 2%nat); simpl; lia|]. split; [apply H2; discriminate|].
  split; [apply new_mem_rep|].
  destruct (first_then_next_visits new_mem 1 new_list [] O new_mem_rep eq_refl)
    as (_ & _ & H3); [by compute|].
  destruct (H3 eq_refl) as [_ H4]. exact H4.
Defined.

(** The claim as it is worded: after [first()], the [(n+1)]-th [next()]
    lands the window on the sentinel with index 0. *)
Definition lands_on_header (m : mem) (this : loc) (j : nat) : Prop :=
  ∃ rs m' L', first_then_next this j m = Some (rs, m') ∧
              lists m' !! this = Some L' ∧ win L' = header L' ∧ _index L' = 0.

(** On the list [10, 20, 30] the fourth [next()] after [first()] is back on
    the first element. *)
Lemma fourth_next_not_on_header : ¬ lands_on_header ex_mem 1 4.
Proof.
  intros (rs & m' & L' & Hex & Hl & Hw & Hi).
  vm_compute in Hex. injection Hex as <- <-.
  vm_compute in Hl. injection Hl as <-. simpl in Hi. discriminate.
Qed.

(** C5, as the code has it.  On every list [GetAt] out of range returns
    [NULL] and changes nothing.  On a list whose counters are right (the
    index is the position of the window, the length the number of
    elements), [GetAt] at a valid position returns the value stored there,
    sets the index to the position and leaves the window on that element;
    this is the value, and the store, that [first()] and [position - 1]
    calls of [next()] arrive at; and when no element holds [NULL], the value
    returned is [NULL] exactly when the position is out of range. *)
Theorem GetAt_correct m this L cs k pt :
  rep m this L cs k →
  (pt < 1 ∨ pt > _length L → List_GetAt this pt m = Some (None, m)) ∧
  (counted L cs k →
     (1 ≤ pt ≤ _length L →
        ∃ m' L', List_GetAt this pt m = Some (val_at cs (Z.to_nat pt), m') ∧
                 rep m' this L' cs (Z.to_nat pt) ∧ counted L' cs (Z.to_nat pt) ∧
                 _index L' = pt ∧
                 first_then_next this (Z.to_nat pt - 1) m
                   = Some ((take (Z.to_nat pt) cs).*2, m') ∧
                 last ((take (Z.to_nat pt) cs).*2) = Some (val_at cs (Z.to_nat pt))) ∧
     (Forall (λ c, c.2 ≠ None) cs →
        ∀ r m', List_GetAt this pt m = Some (r, m') →
                (r = None ↔ pt < 1 ∨ pt > _length L))).
Proof.
  intros Hrep.
  assert (Hout : pt < 1 ∨ pt > _length L → List_GetAt this pt m = Some (None, m)).
  { apply List_GetAt_out, Hrep. }
  split; [done|]. intros Hc. pose proof Hc as (Hi & Hn & Hint).
  pose proof (rep_pos_le _ _ _ _ _ Hrep) as Hk.
  assert (Hin : 1 ≤ pt ≤ _length L →
     ∃ m' L', List_GetAt this pt m = Some (val_at cs (Z.to_nat pt), m') ∧
              rep m' this L' cs (Z.to_nat pt) ∧ counted L' cs (Z.to_nat pt) ∧
              _index L' = pt ∧
              first_then_next this (Z.to_nat pt - 1) m
                = Some ((take (Z.to_nat pt) cs).*2, m') ∧
              last ((take (Z.to_nat pt) cs).*2) = Some (val_at cs (Z.to_nat pt))).
  { intros Hpt. unfold is_int, INT_MIN, INT_MAX in Hint.
    assert (is_int (_index L)) by (unfold is_int, INT_MIN, INT_MAX; lia).
    assert (is_int pt) by (unfold is_int, INT_MIN, INT_MAX; lia).
    destruct (List_GetAt_in _ _ _ _ _ pt Hrep) as (k' & w' & Hw' & Hk' & Hex); [done..|].
    rewrite (Hk' Hc) in *.
    destruct (first_then_next_spec (Z.to_nat pt - 1) _ _ _ _ _ Hrep Hn)
      as (w2 & Hw2 & Hex2); [exact Hint|lia|].
    replace (S (Z.to_nat pt - 1)) with (Z.to_nat pt) in * by lia.
    rewrite Hw' in Hw2. injection Hw2 as <-.
    rewrite Z2Nat.id in Hex2 by lia.
    eexists _, _. split; [exact Hex|]. split; [by eapply rep_move|].
    split; [|split; [done|split; [exact Hex2|]]].
    - unfold counted. simpl. split; [lia|done].
    - assert (is_Some (cs !! (Z.to_nat pt - 1)%nat)) as [c Hcell].
      { apply lookup_lt_is_Some. lia. }
      replace (Z.to_nat pt) with (S (Z.to_nat pt - 1)) by lia.
      rewrite (take_S_r _ _ _ Hcell), fmap_app. simpl. rewrite last_snoc.
      by rewrite Hcell. }
  split; [done|].
  intros Hnn r m' Hex. destruct (decide (pt < 1 ∨ pt > _length L)) as [Ho|Hi'].
  - rewrite (Hout Ho) in Hex. injection Hex as <- _. done.
  - destruct Hin as (m1 & L1 & Hex1 & _); [lia|].
    rewrite Hex1 in Hex. injection Hex as <- _.
    split; [|done]. intros Hnull. exfalso.
    assert (is_Some (cs !! (Z.to_nat pt - 1)%nat)) as [c Hcell].
    { apply lookup_lt_is_Some. lia. }
    replace (Z.to_nat pt) with (S (Z.to_nat pt - 1)) in Hnull by lia.
    simpl in Hnull. rewrite Hcell in Hnull.
    by apply (Forall_lookup_1 _ _ _ _ Hnn Hcell).
Qed.

Lemma GetAt_correct_witness :
  rep ex_mem 1 ex_list ex_cells 2 ∧ counted ex_list ex_cells 2 ∧
  ∃ m' L', List_GetAt 1 3 ex_mem = Some (Some (gInt 30), m') ∧
           rep m' 1 L' ex_cells 3 ∧ _index L' = 3 ∧
           first_then_next 1 2 ex_mem
             = Some ([Some (gInt 10); Some (gInt 20); Some (gInt 30)], m').
Proof.
  split; [apply ex_mem_rep|]. split; [apply ex_mem_counted|].
  destruct (GetAt_correct ex_mem 1 ex_list ex_cells 2 3 ex_mem_rep) as (_ & H).
  destruct (H ex_mem_counted) as (Hin & _).
  destruct Hin as (m' & L' & H1 & H2 & _ & H3 & H4 & _); [by compute|].
  exists m', L'. split; [exact H1|]. split; [exact H2|]. split; [exact H3|exact H4].
Defined.

(** The claim as it is worded: the value returned is [NULL] if and only if
    the position is out of range. *)
Definition GetAt_absent_iff_out_of_range (m : mem) (this : loc) (pt : Z) : Prop :=
  ∀ L r m', lists m !! this = Some L → List_GetAt this pt m = Some (r, m') →
            (r = None ↔ pt < 1 ∨ pt > _length L).

(** A list whose one element is [NULL]. *)
Definition null_mem : mem := default mem_empty (run_ops [OpNew; OpAppend 1 None] mem_empty).

(** [GetAt(1)] on it returns [NULL], and 1 is in range. *)
Lemma GetAt_absent_in_range : ¬ GetAt_absent_iff_out_of_range null_mem 1 1.
Proof.
  intros H.
  set (m' := (default (None, mem_empty) (List_GetAt 1 1 null_mem)).2).
  destruct (H (MkList 1 1 0 1) None m') as [H1 _].
  - vm_compute. reflexivity.
  - vm_compute. reflexivity.
  - destruct (H1 eq_refl) as [Hlt|Hgt]; [lia|]. simpl in Hgt. lia.
Qed.

(** ** [list2vector] *)

Section list2vector.
Implicit Types (m : mem) (lst : positive) (L : List)
               (cs : list (positive * option gObject)) (ds : list Z).

Lemma boxed_lookup cs ds p c :
  cs.*2 = (λ d, Some (gInt d)) <$> ds → cs !! p = Some c →
  ∃ d, c.2 = Some (gInt d) ∧ ds !! p = Some d.
Proof.
  intros Hds Hc.
  assert ((cs.*2) !! p = Some c.2) as Hp by by rewrite list_lookup_fmap, Hc.
  rewrite Hds, list_lookup_fmap in Hp.
  destruct (ds !! p) as [d|]; [|done]. exists d. by injection Hp as <-.
Qed.

Lemma take_S_insert {A} (l : list A) p x :
  (p < length l)%nat → take (S p) (<[p := x]> l) = take p l ++ [x].
Proof.
  intros Hp. rewrite (take_S_r _ _ x).
  - by rewrite take_insert_ge by lia.
  - by apply list_lookup_insert_eq.
Qed.

Lemma list2vector_loop_S fuel lst n i out :
  list2vector_loop (S fuel) lst n i out =
    if decide (i ≤ n) then
      let* v := List_val lst in
      match v with
      | Some (gInt d) =>
          match vec_set out i d with
          | Some out' =>
              List_next lst ;;;
              list2vector_loop fuel lst n (wrap (i + 1)) out'
          | None => fail
          end
      | None => fail
      end
    else ret out.
Proof. done. Qed.

(** The rounds of the loop from position [S p] to the last element. *)
Lemma list2vector_loop_spec cs ds lst j :
  cs.*2 = (λ d, Some (gInt d)) <$> ds → Z.of_nat (length cs) < INT_MAX →
  ∀ m L p out,
    rep m lst L cs (S p) → _index L = Z.of_nat (S p) →
    _length L = Z.of_nat (length cs) → (S p + j = length cs)%nat →
    length out = length cs →
    list2vector_loop (S j) lst (Z.of_nat (length cs)) (Z.of_nat (S p)) out m =
      Some (take p out ++ (Some <$> drop p ds),
            upd_list lst (MkList (header L) (header L) 0 (_length L)) m).
Proof.
  intros Hds Hmax. unfold INT_MAX in Hmax.
  assert (Hlen : length ds = length cs).
  { rewrite <- (length_fmap snd cs), Hds. by rewrite length_fmap. }
  induction j as [|j IH]; intros m L p out Hrep Hi Hn Hpj Hout.
  - (* the last round *)
    assert (is_Some (cs !! p)) as [c Hc] by (apply lookup_lt_is_Some; lia).
    destruct (boxed_lookup _ _ _ _ Hds Hc) as (d & Hcd & Hd).
    destruct (List_next_spec _ _ _ _ _ Hrep) as (w' & Hw' & Hex).
    unfold pos_next in Hw', Hex. rewrite decide_False in Hw', Hex by lia.
    simpl in Hw'. injection Hw' as <-.
    assert (next_index L = 0) as Hni.
    { unfold next_index. rewrite Hi, Hn.
      rewrite wrap_id by (unfold is_int, INT_MIN, INT_MAX; lia).
      rewrite decide_True; lia. }
    rewrite Hni in Hex.
    rewrite list2vector_loop_S. rewrite decide_True by lia.
    rewrite (bind_Some _ _ _ _ _ (List_val_spec _ _ _ _ _ Hrep)).
    cbn [val_at]. rewrite Hc, Hcd.
    unfold vec_set. rewrite decide_True by lia.
    rewrite (bind_Some _ _ _ _ _ Hex).
    rewrite wrap_id by (unfold is_int, INT_MIN, INT_MAX; lia).
    cbn [list2vector_loop]. rewrite decide_False by lia. unfold ret. do 2 f_equal.
    replace (Z.to_nat (Z.of_nat (S p) - 1)) with p by lia.
    rewrite (drop_S _ _ _ Hd). rewrite drop_ge by lia. simpl.
    rewrite <- (take_S_insert out p (Some d)) by lia.
    apply symmetry, take_ge. rewrite length_insert. lia.
  - (* a round before the last *)
    assert (is_Some (cs !! p)) as [c Hc] by (apply lookup_lt_is_Some; lia).
    destruct (boxed_lookup _ _ _ _ Hds Hc) as (d & Hcd & Hd).
    destruct (List_next_spec _ _ _ _ _ Hrep) as (w' & Hw' & Hex).
    unfold pos_next in Hw', Hex. rewrite decide_True in Hw', Hex by lia.
    assert (next_index L = Z.of_nat (S (S p))) as Hni.
    { unfold next_index. rewrite Hi, Hn.
      rewrite wrap_id by (unfold is_int, INT_MIN, INT_MAX; lia).
      rewrite decide_False; lia. }
    rewrite Hni in Hex.
    pose proof (rep_move _ _ _ _ _ _ _ (Z.of_nat (S (S p))) (_length L) Hrep Hw') as Hrep1.
    rewrite list2vector_loop_S. rewrite decide_True by lia.
    rewrite (bind_Some _ _ _ _ _ (List_val_spec _ _ _ _ _ Hrep)).
    cbn [val_at]. rewrite Hc, Hcd.
    unfold vec_set. rewrite decide_True by lia.
    rewrite (bind_Some _ _ _ _ _ Hex).
    rewrite wrap_id by (unfold is_int, INT_MIN, INT_MAX; lia).
    replace (Z.of_nat (S p) + 1) with (Z.of_nat (S (S p))) by lia.
    replace (Z.to_nat (Z.of_nat (S p) - 1)) with p by lia.
    rewrite (IH _ _ (S p) _ Hrep1 eq_refl Hn ltac:(lia)).
    2:{ by rewrite length_insert. }
    simpl. rewrite upd_list_upd_list. do 2 f_equal.
    rewrite take_S_insert by lia. rewrite (drop_S _ _ _ Hd).
    rewrite <- app_assoc. done.
Qed.
End list2vector.

(** C2, as the code has it.  For a list of [n] boxed ints ([n + 1] an
    [int]), [list2vector] returns a block of [n] cells addressed from one,
    cell [i] holding the [i]-th value of the list; the nodes, their values
    and the length of the list are as before; the window is left on the
    sentinel, with index 0 when the list has an element. *)
Theorem list2vector_correct m lst L cs k (ds : list Z) :
  rep m lst L cs k → _length L = Z.of_nat (length cs) →
  Z.of_nat (length cs) < INT_MAX →
  cs.*2 = (λ d, Some (gInt d)) <$> ds →
  ∃ out m' L',
    list2vector lst m = Some (out, m') ∧
    length out = length cs ∧
    (∀ i d, ds !! i = Some d → vec_get out (Z.of_nat i + 1) = Some d) ∧
    nodes m' = nodes m ∧ rep m' lst L' cs O ∧ win L' = header L' ∧
    _length L' = _length L ∧ (cs ≠ [] → _index L' = 0).
Proof.
  intros Hrep Hn Hmax Hds.
  assert (Hlen : length ds = length cs).
  { rewrite <- (length_fmap snd cs), Hds. by rewrite length_fmap. }
  destruct (List_first_spec _ _ _ _ _ Hrep) as (w1 & Hw1 & Hex1).
  assert (Hget : ∀ i d, ds !! i = Some d →
            vec_get (Some <$> ds) (Z.of_nat i + 1) = Some d).
  { intros i d Hd. unfold vec_get. rewrite decide_True by lia.
    replace (Z.to_nat (Z.of_nat i + 1 - 1)) with i by lia.
    by rewrite list_lookup_fmap, Hd. }
  destruct cs as [|c cs'] eqn:Hcs.
  - (* no element: no round *)
    destruct ds; [|done]. simpl in Hw1. injection Hw1 as <-.
    exists [], (upd_list lst (MkList (header L) (header L) 1 (_length L)) m),
           (MkList (header L) (header L) 1 (_length L)).
    split; [|split; [done|split; [done|split; [|split; [|done]]]]].
    + unfold list2vector. rewrite (bind_Some _ _ _ _ _ (List_length_spec _ _ _ (proj1 Hrep))).
      rewrite (bind_Some _ _ _ _ _ Hex1). rewrite Hn. done.
    + done.
    + by eapply (rep_move _ _ _ _ _ O).
  - rewrite <- Hcs in *.
    assert (length cs = S (length cs')) as Hl by by rewrite Hcs.
    unfold pos_next in Hw1, Hex1. rewrite decide_True in Hw1, Hex1 by lia.
    pose proof (rep_move _ _ _ _ _ _ _ 1 (_length L) Hrep Hw1) as Hrep1.
    pose proof (list2vector_loop_spec cs ds lst (length cs') Hds Hmax _ _ O
                  (ivector1_2 (_length L)) Hrep1 eq_refl Hn) as Hloop.
    rewrite Hn in Hloop. unfold ivector1_2 in Hloop.
    rewrite Nat2Z.id, length_replicate in Hloop.
    specialize (Hloop ltac:(lia) eq_refl).
    rewrite take_0, drop_0 in Hloop. cbn [app] in Hloop.
    exists (Some <$> ds).
    exists (upd_list lst (MkList (header L) (header L) 0 (_length L)) m),
           (MkList (header L) (header L) 0 (_length L)).
    split; [|split; [|split; [done|split; [done|split; [|done]]]]].
    + unfold list2vector. rewrite (bind_Some _ _ _ _ _ (List_length_spec _ _ _ (proj1 Hrep))).
      rewrite (bind_Some _ _ _ _ _ Hex1). rewrite Hn, Nat2Z.id. rewrite Hl at 1.
      unfold ivector1_2. rewrite Nat2Z.id.
      change (Z.of_nat 1) with 1 in Hloop. rewrite Hloop. cbn [header _length].
      by rewrite upd_list_upd_list.
    + by rewrite length_fmap.
    + by eapply (rep_move _ _ _ _ _ O).
Qed.

Lemma list2vector_correct_witness :
  rep ex_mem 1 ex_list ex_cells 2 ∧
  ∃ out m' L', list2vector 1 ex_mem = Some (out, m') ∧
               vec_get out 1 = Some 10 ∧ vec_get out 2 = Some 20 ∧
               vec_get out 3 = Some 30 ∧
               win L' = header L' ∧ _index L' = 0 ∧ _length L' = 3.
Proof.
  split; [apply ex_mem_rep|].
  destruct (list2vector_correct ex_mem 1 ex_list ex_cells 2 [10; 20; 30]
              ex_mem_rep eq_refl eq_refl eq_refl)
    as (out & m' & L' & Hex & _ & Hget & _ & _ & Hw & Hn & Hi).
  exists out, m', L'. split; [exact Hex|].
  split; [exact (Hget 0%nat 10 eq_refl)|]. split; [exact (Hget 1%nat 20 eq_refl)|].
  split; [exact (Hget 2%nat 30 eq_refl)|]. split; [exact Hw|].
  split; [apply Hi; discriminate|exact Hn].
Defined.

(** The claim as it is worded: the cursor is on the last element when
    [list2vector] returns, which is what [isLast()] tests. *)
Definition list2vector_parks_at_last (m : mem) (lst : loc) : Prop :=
  ∀ out m', list2vector lst m = Some (out, m') → List_isLast lst m' = Some (true, m').

(** On the list [10, 20, 30] the last [next()] of the loop has taken the
    window off the last element, onto the sentinel. *)
Lemma list2vector_not_at_last : ¬ list2vector_parks_at_last ex_mem 1.
Proof.
  intros H.
  set (r := default ([], mem_empty) (list2vector 1 ex_mem)).
  assert (Hex : list2vector 1 ex_mem = Some (r.1, r.2)) by (vm_compute; reflexivity).
  specialize (H _ _ Hex). vm_compute in H. discriminate H.
Qed.

(** ** [append] of a list to another *)

(** What [append] of a list does for two lists: the elements of the second
    follow those of the first, in the first; the second has its sentinel
    alone, a length of 0 and its window on the sentinel; the index of each
    list is what it was. *)
Lemma List_append_list_counters m this l LA ca ka LB cb kb :
  this ≠ l → rep m this LA ca ka → rep m l LB cb kb →
  (header LA :: ca.*1) ## (header LB :: cb.*1) →
  ∃ m' LA' LB',
    List_append_list this l m = Some (this, m') ∧
    rep m' this LA' (ca ++ cb) ka ∧
    _length LA' = wrap (_length LA + _length LB) ∧ _index LA' = _index LA ∧
    rep m' l LB' [] O ∧ singleton_ring (nodes m') (header LB') ∧
    _length LB' = 0 ∧ win LB' = header LB' ∧ _index LB' = _index LB.
Proof.
  intros Hne Hra Hrb Hdis.
  destruct (List_append_list_spec _ _ _ _ _ _ _ _ _ Hne Hra Hrb Hdis)
    as (h' & Hex & Hra' & Hrb' & _).
  eexists _, _, _. split; [exact Hex|]. split; [exact Hra'|].
  split; [done|]. split; [done|]. split; [exact Hrb'|].
  split; [|done]. destruct Hrb' as (_ & ((_ & Hp) & _) & _). exact Hp.
Qed.

(** The lists [1, 2, 3] and [4, 5], the second with its window on its last
    element, and the first after [append] of the second. *)
Definition stale_ops : list op :=
  [OpNew; OpNew;
   OpAppend 1 (Some (gInt 1)); OpAppend 1 (Some (gInt 2)); OpAppend 1 (Some (gInt 3));
   OpAppend 2 (Some (gInt 4)); OpAppend 2 (Some (gInt 5));
   OpLast 2; OpAppendList 1 2].
Definition stale_mem : mem := default mem_empty (run_ops stale_ops mem_empty).

(** C3 (the code departs from it).  After [A.append(B)] with [A = 1, 2, 3]
    and [B = 4, 5], [B]'s window on its last element, [A] holds
    [1, 2, 3, 4, 5] and [B] is an empty ring with length 0 and its window on
    its sentinel, but [B]'s index is 2 still.  After [B.prepend(7)],
    [B.GetAt(1)] returns [NULL]; on a list just made it returns the 7. *)
Theorem append_list_leaves_stale_index :
  run_ops stale_ops mem_empty = Some stale_mem ∧
  rep stale_mem 1 (MkList 1 1 0 5)
      [(3%positive, Some (gInt 1)); (4%positive, Some (gInt 2));
       (5%positive, Some (gInt 3)); (6%positive, Some (gInt 4));
       (7%positive, Some (gInt 5))] O ∧
  rep stale_mem 2 (MkList 2 2 2 0) [] O ∧
  ¬ list_invariant (MkList 2 2 2 0) ∧
  (∃ m1 m2, List_prepend 2 (Some (gInt 7)) stale_mem = Some (Some (gInt 7), m1) ∧
            List_GetAt 2 1 m1 = Some (None, m2)) ∧
  (∃ m1 m2, List_prepend 1 (Some (gInt 7)) new_mem = Some (Some (gInt 7), m1) ∧
            List_GetAt 1 1 m1 = Some (Some (gInt 7), m2)).
Proof.
  split; [by vm_compute|]. split; [compute_done|]. split; [compute_done|].
  split; [intros [Hr _]; simpl in Hr; lia|]. split.
  - set (m1 := (default (None, mem_empty) (List_prepend 2 (Some (gInt 7)) stale_mem)).2).
    set (m2 := (default (None, mem_empty) (List_GetAt 2 1 m1)).2).
    exists m1, m2. split; vm_compute; reflexivity.
  - set (m1 := (default (None, mem_empty) (List_prepend 1 (Some (gInt 7)) new_mem)).2).
    set (m2 := (default (None, mem_empty) (List_GetAt 1 1 m1)).2).
    exists m1, m2. split; vm_compute; reflexivity.
Qed.

(** * More of the code *)

(** ** The counters under the operations *)

Section counters.
Implicit Types (m : mem) (this : positive) (L : List)
               (cs : list (positive * option gObject)) (k : nat).

Lemma counted_invariant m this L cs k :
  rep m this L cs k → counted L cs k → list_invariant L.
Proof.
  intros Hrep (Hi & Hn & _). pose proof (rep_pos_le _ _ _ _ _ Hrep) as Hle.
  split; [lia|]. rewrite (rep_win_header _ _ _ _ _ Hrep). lia.
Qed.

Lemma next_index_counted L cs k :
  counted L cs k → (k ≤ length cs)%nat → Z.of_nat (length cs) < INT_MAX →
  next_index L = Z.of_nat (pos_next (length cs) k).
Proof.
  intros (Hi & Hn & _) Hle Hmax. unfold INT_MAX in Hmax.
  unfold next_index, pos_next. rewrite Hi, Hn.
  rewrite wrap_id by (unfold is_int, INT_MIN, INT_MAX; lia).
  repeat case_decide; lia.
Qed.

Lemma prev_index_counted L cs k :
  counted L cs k → (k ≤ length cs)%nat →
  prev_index L = Z.of_nat (pos_prev (length cs) k).
Proof.
  intros (Hi & Hn & Hint) Hle. unfold is_int, INT_MIN, INT_MAX in Hint.
  unfold prev_index, pos_prev. rewrite Hi, Hn.
  rewrite (wrap_id (Z.of_nat k - 1)) by (unfold is_int, INT_MIN, INT_MAX; lia).
  destruct k as [|k].
  - rewrite decide_True by lia.
    rewrite (wrap_id (Z.of_nat (length cs) + (Z.of_nat 0 - 1)))
      by (unfold is_int, INT_MIN, INT_MAX; lia).
    rewrite wrap_id by (unfold is_int, INT_MIN, INT_MAX; lia). lia.
  - rewrite decide_False by lia. lia.
Qed.
End counters.

(** X1.  [insert(v)] on a list whose counters are right and whose length is
    below [INT_MAX] returns [v], puts a new node with [v] just after the
    window, leaves the window and the index where they were, and adds one
    to the length; the counters are right again. *)
Theorem insert_after_window m this L cs k v :
  rep m this L cs k → counted L cs k → Z.of_nat (length cs) < INT_MAX →
  ∃ b m' L',
    List_insert this v m = Some (v, m') ∧ ¬ alloc (nodes m) b ∧
    rep m' this L' (take k cs ++ (b, v) :: drop k cs) k ∧
    counted L' (take k cs ++ (b, v) :: drop k cs) k ∧
    win L' = win L ∧ _index L' = _index L ∧ _length L' = _length L + 1.
Proof.
  intros Hrep (Hi & Hn & Hint) Hmax. unfold INT_MAX in Hmax.
  destruct (List_insert_spec _ _ _ _ _ v Hrep) as (h' & Hex & Hrep' & _).
  pose proof (rep_pos_le _ _ _ _ _ Hrep) as Hle.
  assert (Hw : wrap (_length L + 1) = _length L + 1).
  { apply wrap_id. unfold is_int, INT_MIN, INT_MAX. lia. }
  eexists _, _, _. split; [exact Hex|]. split; [apply fresh_not_alloc|].
  split; [exact Hrep'|]. simpl. rewrite Hw.
  split; [|done]. unfold counted. simpl.
  rewrite length_app, length_take. simpl. rewrite length_drop.
  unfold is_int, INT_MIN, INT_MAX. lia.
Qed.

Lemma insert_after_window_witness :
  rep ex_mem 1 ex_list ex_cells 2 ∧
  ∃ b m' L', List_insert 1 (Some (gInt 25)) ex_mem = Some (Some (gInt 25), m') ∧
             rep m' 1 L' [(2%positive, Some (gInt 10)); (3%positive, Some (gInt 20));
                          (b, Some (gInt 25)); (4%positive, Some (gInt 30))] 2 ∧
             _index L' = 2 ∧ _length L' = 4.
Proof.
  split; [apply ex_mem_rep|].
  destruct (insert_after_window ex_mem 1 ex_list ex_cells 2 (Some (gInt 25))
              ex_mem_rep ex_mem_counted eq_refl)
    as (b & m' & L' & Hex & _ & Hrep & _ & _ & Hi & Hn).
  exists b, m', L'. split; [exact Hex|]. split; [exact Hrep|]. split; [exact Hi|exact Hn].
Defined.

(** X2.  [prepend(v)] (counters right, length below [INT_MAX]) returns [v]
    and makes it the first element; the window stays on its node, and the
    index goes up by one exactly when the window is on an element. *)
Theorem prepend_shifts_index m this L cs k v :
  rep m this L cs k → counted L cs k → Z.of_nat (length cs) < INT_MAX →
  ∃ b m' L',
    let k' := match k with O => O | S _ => S k end in
    List_prepend this v m = Some (v, m') ∧ ¬ alloc (nodes m) b ∧
    rep m' this L' ((b, v) :: cs) k' ∧ counted L' ((b, v) :: cs) k' ∧
    win L' = win L ∧ _length L' = _length L + 1 ∧
    (win L = header L → _index L' = 0) ∧
    (win L ≠ header L → _index L' = _index L + 1).
Proof.
  intros Hrep (Hi & Hn & Hint) Hmax. unfold INT_MAX in Hmax.
  destruct (List_prepend_spec _ _ _ _ _ v Hrep) as (h' & Hex & Hrep' & _).
  pose proof (rep_pos_le _ _ _ _ _ Hrep) as Hle.
  pose proof (rep_win_header _ _ _ _ _ Hrep) as Hwh.
  assert (Hw : wrap (_length L + 1) = _length L + 1).
  { apply wrap_id. unfold is_int, INT_MIN, INT_MAX. lia. }
  assert (Hp : prepend_index L = Z.of_nat (match k with O => O | S _ => S k end)).
  { unfold prepend_index. rewrite Hi. destruct k as [|k].
    - by rewrite decide_False by lia.
    - rewrite decide_True by lia.
      rewrite wrap_id by (unfold is_int, INT_MIN, INT_MAX; lia). lia. }
  eexists _, _, _. split; [exact Hex|]. split; [apply fresh_not_alloc|].
  split; [exact Hrep'|]. simpl. rewrite Hw, Hp.
  split; [|split; [done|split; [done|split]]].
  - unfold counted. simpl. unfold is_int, INT_MIN, INT_MAX. lia.
  - intros Hh. apply Hwh in Hh. by subst k.
  - intros Hh. destruct k as [|k]; [by destruct Hh; apply Hwh|]. lia.
Qed.

Lemma prepend_shifts_index_witness :
  rep ex_mem 1 ex_list ex_cells 2 ∧
  ∃ b m' L', List_prepend 1 (Some (gInt 5)) ex_mem = Some (Some (gInt 5), m') ∧
             rep m' 1 L' ((b, Some (gInt 5)) :: ex_cells) 3 ∧
             _index L' = 3 ∧ _length L' = 4.
Proof.
  split; [apply ex_mem_rep|].
  destruct (prepend_shifts_index ex_mem 1 ex_list ex_cells 2 (Some (gInt 5))
              ex_mem_rep ex_mem_counted eq_refl)
    as (b & m' & L' & Hex & _ & Hrep & _ & _ & Hn & _ & Hi).
  exists b, m', L'. split; [exact Hex|]. split; [exact Hrep|].
  split; [apply Hi; discriminate|exact Hn].
Defined.

(** X3.  [append(v)] (counters right, length below [INT_MAX]) returns [v]
    and makes it the last element; the window and the index stay. *)
Theorem append_at_end m this L cs k v :
  rep m this L cs k → counted L cs k → Z.of_nat (length cs) < INT_MAX →
  ∃ b m' L',
    List_append this v m = Some (v, m') ∧ ¬ alloc (nodes m) b ∧
    rep m' this L' (cs ++ [(b, v)]) k ∧ counted L' (cs ++ [(b, v)]) k ∧
    win L' = win L ∧ _index L' = _index L ∧ _length L' = _length L + 1.
Proof.
  intros Hrep (Hi & Hn & Hint) Hmax. unfold INT_MAX in Hmax.
  destruct (List_append_spec _ _ _ _ _ v Hrep) as (h' & Hex & Hrep' & _).
  assert (Hw : wrap (_length L + 1) = _length L + 1).
  { apply wrap_id. unfold is_int, INT_MIN, INT_MAX. lia. }
  eexists _, _, _. split; [exact Hex|]. split; [apply fresh_not_alloc|].
  split; [exact Hrep'|]. simpl. rewrite Hw.
  split; [|done]. unfold counted. simpl.
  rewrite length_app. simpl. unfold is_int, INT_MIN, INT_MAX. lia.
Qed.

Lemma append_at_end_witness :
  rep ex_mem 1 ex_list ex_cells 2 ∧
  ∃ b m' L', List_append 1 (Some (gInt 40)) ex_mem = Some (Some (gInt 40), m') ∧
             rep m' 1 L' (ex_cells ++ [(b, Some (gInt 40))]) 2 ∧
             _index L' = 2 ∧ _length L' = 4.
Proof.
  split; [apply ex_mem_rep|].
  destruct (append_at_end ex_mem 1 ex_list ex_cells 2 (Some (gInt 40))
              ex_mem_rep ex_mem_counted eq_refl)
    as (b & m' & L' & Hex & _ & Hrep & _ & _ & Hi & Hn).
  exists b, m', L'. split; [exact Hex|]. split; [exact Hrep|]. split; [exact Hi|exact Hn].
Defined.

(** X4.  [val(v)] changes nothing and returns [NULL] when the window is the
    sentinel, where [val()] returns [NULL] too; on an element it returns
    the old value and stores [v] there, which [val()] then returns, the
    other elements, the window and the counters being as before. *)
Theorem val_replaces_value m this L cs k v' :
  rep m this L cs k →
  (win L = header L →
     List_set_val this v' m = Some (None, m) ∧ List_val this m = Some (None, m)) ∧
  (win L ≠ header L →
     ∃ j v m',
       k = S j ∧ cs !! j = Some (win L, v) ∧
       List_val this m = Some (v, m) ∧
       List_set_val this v' m = Some (v, m') ∧
       rep m' this L (<[j := (win L, v')]> cs) k ∧ lists m' = lists m ∧
       List_val this m' = Some (v', m')).
Proof.
  intros Hrep. pose proof (rep_win_header _ _ _ _ _ Hrep) as Hwh. split.
  - intros Hw. apply Hwh in Hw. subst k. split.
    + by eapply List_set_val_header.
    + by apply (List_val_spec _ _ _ _ _ Hrep).
  - intros Hw. destruct k as [|j]; [by destruct Hw; apply Hwh|].
    pose proof (rep_pos_le _ _ _ _ _ Hrep) as Hle.
    assert (is_Some (cs !! j)) as [[w v] Hj] by (apply lookup_lt_is_Some; lia).
    assert (win L = w) as Hww.
    { destruct Hrep as (_ & _ & Hk). simpl in Hk.
      rewrite list_lookup_fmap, Hj in Hk. by injection Hk. }
    destruct (List_set_val_spec _ _ _ _ _ _ _ v' Hrep Hj) as (Hex & Hrep' & _).
    exists j, v. eexists. rewrite Hww.
    split; [done|]. split; [done|]. split.
    { rewrite (List_val_spec _ _ _ _ _ Hrep). simpl. by rewrite Hj. }
    split; [exact Hex|]. split; [exact Hrep'|]. split; [done|].
    rewrite (List_val_spec _ _ _ _ _ Hrep'). simpl.
    rewrite list_lookup_insert_eq by lia. done.
Qed.

Lemma val_replaces_value_witness :
  rep ex_mem 1 ex_list ex_cells 2 ∧
  ∃ m', List_set_val 1 (Some (gInt 21)) ex_mem = Some (Some (gInt 20), m') ∧
        List_val 1 m' = Some (Some (gInt 21), m').
Proof.
  split; [apply ex_mem_rep|].
  destruct (val_replaces_value ex_mem 1 ex_list ex_cells 2 (Some (gInt 21)) ex_mem_rep)
    as [_ H].
  destruct H as (j & v & m' & Hk & Hj & _ & Hex & _ & _ & Hval); [by compute|].
  injection Hk as <-. simpl in Hj. injection Hj as <-.
  exists m'. split; [exact Hex|exact Hval].
Defined.

(** X5.  On a list whose counters are right (length below [INT_MAX]):
    [next()] goes one element forward and from the last element to the
    sentinel, with index 0; [prev()] goes one back and from the sentinel to
    the last element, with the length as index; [last()] goes to the last
    element, the sentinel on an empty list; [first()] goes to the first
    element of a list that has one.  Each returns the value it lands on and
    leaves the counters right. *)
Theorem cursor_moves m this L cs k :
  rep m this L cs k → counted L cs k → Z.of_nat (length cs) < INT_MAX →
  let n := length cs in
  (∃ m' L', List_next this m = Some (val_at cs (pos_next n k), m') ∧
            rep m' this L' cs (pos_next n k) ∧ counted L' cs (pos_next n k) ∧
            nodes m' = nodes m) ∧
  (∃ m' L', List_prev this m = Some (val_at cs (pos_prev n k), m') ∧
            rep m' this L' cs (pos_prev n k) ∧ counted L' cs (pos_prev n k) ∧
            nodes m' = nodes m) ∧
  (∃ m' L', List_last this m = Some (val_at cs n, m') ∧
            rep m' this L' cs n ∧ counted L' cs n ∧ nodes m' = nodes m) ∧
  (cs ≠ [] →
   ∃ m' L', List_first this m = Some (val_at cs 1, m') ∧
            rep m' this L' cs 1 ∧ counted L' cs 1 ∧ nodes m' = nodes m).
Proof.
  intros Hrep Hc Hmax n. pose proof Hc as (Hi & Hn & Hint).
  pose proof (rep_pos_le _ _ _ _ _ Hrep) as Hle.
  split; [|split; [|split]].
  - destruct (List_next_spec _ _ _ _ _ Hrep) as (w' & Hw' & Hex).
    eexists _, _. split; [exact Hex|]. split; [by eapply rep_move|]. split; [|done].
    split; [|done]. simpl. by apply next_index_counted.
  - destruct (List_prev_spec _ _ _ _ _ Hrep) as (w' & Hw' & Hex).
    eexists _, _. split; [exact Hex|]. split; [by eapply rep_move|]. split; [|done].
    split; [|done]. simpl. by apply prev_index_counted.
  - destruct (List_last_spec _ _ _ _ _ Hrep) as (w' & Hw' & Hex).
    eexists _, _. split; [exact Hex|]. split; [by eapply rep_move|]. split; [|done].
    split; [|done]. done.
  - intros Hne. destruct (List_first_spec _ _ _ _ _ Hrep) as (w' & Hw' & Hex).
    assert (pos_next (length cs) 0 = 1%nat) as Hp.
    { unfold pos_next. rewrite decide_True; [done|]. destruct cs; [done|simpl; lia]. }
    rewrite Hp in Hw', Hex.
    eexists _, _. split; [exact Hex|]. split; [by eapply rep_move|]. split; [|done].
    split; [|done]. done.
Qed.

Lemma cursor_moves_witness :
  rep ex_mem 1 ex_list ex_cells 2 ∧
  (∃ m' L', List_next 1 ex_mem = Some (Some (gInt 30), m') ∧ _index L' = 3 ∧
            rep m' 1 L' ex_cells 3) ∧
  (∃ m' L', List_prev 1 ex_mem = Some (Some (gInt 10), m') ∧ _index L' = 1 ∧
            rep m' 1 L' ex_cells 1).
Proof.
  split; [apply ex_mem_rep|].
  destruct (cursor_moves ex_mem 1 ex_list ex_cells 2 ex_mem_rep ex_mem_counted eq_refl)
    as (Hnext & Hprev & _).
  split.
  - destruct Hnext as (m' & L' & Hex & Hrep & (Hi & _) & _).
    exists m', L'. split; [exact Hex|]. split; [exact Hi|exact Hrep].
  - destruct Hprev as (m' & L' & Hex & Hrep & (Hi & _) & _).
    exists m', L'. split; [exact Hex|]. split; [exact Hi|exact Hrep].
Defined.

(** X6.  On a list whose counters are right (length below [INT_MAX]),
    [prev()] undoes [next()] and [next()] undoes [prev()], at the ends of
    the list too: the store is the one before, and the second call returns
    the value the window was on. *)
Theorem next_prev_inverse m this L cs k :
  rep m this L cs k → counted L cs k → Z.of_nat (length cs) < INT_MAX →
  (∃ r m1, List_next this m = Some (r, m1) ∧
           List_prev this m1 = Some (val_at cs k, m)) ∧
  (∃ r m1, List_prev this m = Some (r, m1) ∧
           List_next this m1 = Some (val_at cs k, m)).
Proof.
  intros Hrep Hc Hmax. pose proof Hc as (Hi & Hn & Hint).
  pose proof (rep_pos_le _ _ _ _ _ Hrep) as Hle.
  pose proof Hrep as (Hl & Hs & Hw).
  assert (Hback : ∀ w i,
    (header L :: cs.*1) !! k = Some w → i = Z.of_nat k →
    ∀ L1, upd_list this (MkList (header L) w i (_length L)) (upd_list this L1 m) = m).
  { intros w i Hk -> L1. rewrite Hw in Hk. injection Hk as <-.
    rewrite upd_list_upd_list, <- Hi.
    replace (MkList (header L) (win L) (_index L) (_length L)) with L by by destruct L.
    by apply upd_list_id. }
  split.
  - destruct (List_next_spec _ _ _ _ _ Hrep) as (w1 & Hw1 & Hex1).
    pose proof (rep_move _ _ _ _ _ _ _ (next_index L) (_length L) Hrep Hw1) as Hrep1.
    destruct (List_prev_spec _ _ _ _ _ Hrep1) as (w2 & Hw2 & Hex2).
    rewrite pos_prev_next in Hw2, Hex2 by done. simpl in Hw2, Hex2.
    eexists _, _. split; [exact Hex1|]. rewrite Hex2. do 2 f_equal.
    apply Hback; [done|].
    assert (Hc1 : counted (MkList (header L) w1 (next_index L) (_length L)) cs
                    (pos_next (length cs) k)).
    { split; [|done]. simpl. by apply next_index_counted. }
    rewrite (prev_index_counted _ _ _ Hc1).
    + by rewrite pos_prev_next.
    + unfold pos_next. case_decide; lia.
  - destruct (List_prev_spec _ _ _ _ _ Hrep) as (w1 & Hw1 & Hex1).
    pose proof (rep_move _ _ _ _ _ _ _ (prev_index L) (_length L) Hrep Hw1) as Hrep1.
    destruct (List_next_spec _ _ _ _ _ Hrep1) as (w2 & Hw2 & Hex2).
    rewrite pos_next_prev in Hw2, Hex2 by done. simpl in Hw2, Hex2.
    eexists _, _. split; [exact Hex1|]. rewrite Hex2. do 2 f_equal.
    apply Hback; [done|].
    assert (Hc1 : counted (MkList (header L) w1 (prev_index L) (_length L)) cs
                    (pos_prev (length cs) k)).
    { split; [|done]. simpl. by apply prev_index_counted. }
    rewrite (next_index_counted _ _ _ Hc1).
    + by rewrite pos_next_prev.
    + unfold pos_prev. destruct k; lia.
    + done.
Qed.

Lemma next_prev_inverse_witness :
  rep ex_mem 1 ex_list ex_cells 2 ∧
  ∃ r m1, List_next 1 ex_mem = Some (r, m1) ∧
          List_prev 1 m1 = Some (Some (gInt 20), ex_mem).
Proof.
  split; [apply ex_mem_rep|].
  apply (next_prev_inverse ex_mem 1 ex_list ex_cells 2 ex_mem_rep ex_mem_counted eq_refl).
Defined.

(** X7.  [isHead()] is true exactly when the window is the sentinel,
    [isFirst()] exactly when it is the first element, [isLast()] exactly
    when it is the last element; on an empty list, where the window is the
    sentinel and the sentinel is its own successor, the last two are
    false. None of them changes the store. *)
Theorem position_queries m this L cs k :
  rep m this L cs k → _length L = Z.of_nat (length cs) →
  List_isHead this m = Some (bool_decide (k = O), m) ∧
  List_isFirst this m = Some (bool_decide (k = 1%nat), m) ∧
  List_isLast this m
    = Some (bool_decide (k = length cs ∧ (0 < length cs)%nat), m).
Proof.
  intros Hrep Hn. pose proof Hrep as (Hl & Hs & Hw).
  pose proof (rep_pos_le _ _ _ _ _ Hrep) as Hle.
  pose proof (rep_win_header _ _ _ _ _ Hrep) as Hwh.
  destruct (ring_next _ _ (cs.*1) O (header L) (proj1 Hs) eq_refl) as (f & Hf & Hposf).
  destruct (ring_prev _ _ (cs.*1) O (header L) (proj1 Hs) eq_refl) as (l & Hlast & Hposl).
  rewrite length_fmap in Hposf, Hposl. simpl in Hposl.
  split; [|split].
  - unfold List_isHead. do 2 exec_l. unfold ret. do 2 f_equal.
    apply bool_decide_ext. done.
  - unfold List_isFirst, ListNode_next. do 2 exec_l.
    rewrite (bind_rd_next _ f) by done. exec_l. unfold ret. do 2 f_equal.
    rewrite <- bool_decide_and. apply bool_decide_ext. split.
    + intros [E Hpos]. subst f. unfold pos_next in Hposf.
      rewrite decide_True in Hposf by lia.
      by apply (ring_lookup_inj _ _ _ _ _ _ (proj1 Hs) Hw Hposf).
    + intros ->. split; [|lia]. unfold pos_next in Hposf.
      rewrite decide_True in Hposf by lia. rewrite Hw in Hposf. by injection Hposf.
  - unfold List_isLast, ListNode_prev. do 2 exec_l.
    rewrite (bind_rd_prev _ l) by done. exec_l. unfold ret. do 2 f_equal.
    rewrite <- bool_decide_and. apply bool_decide_ext. split.
    + intros [E Hpos]. subst l. split; [|lia].
      by apply (ring_lookup_inj _ _ _ _ _ _ (proj1 Hs) Hw Hposl).
    + intros [-> Hpos]. split; [|lia]. rewrite Hw in Hposl. by injection Hposl.
Qed.

Lemma position_queries_witness :
  rep ex_mem 1 ex_list ex_cells 2 ∧
  List_isHead 1 ex_mem = Some (false, ex_mem) ∧
  List_isFirst 1 ex_mem = Some (false, ex_mem) ∧
  List_isLast 1 ex_mem = Some (false, ex_mem).
Proof.
  split; [apply ex_mem_rep|].
  apply (position_queries ex_mem 1 ex_list ex_cells 2 ex_mem_rep eq_refl).
Defined.

(** X8.  [nextToTop()] returns the second element of a stack that has two,
    and [NULL] otherwise; it removes nothing. *)
Theorem nextToTop_second m s L cs k :
  rep m s L cs k →
  ∃ m' L' k',
    Stack_nextToTop s m
      = Some (val_at cs (if decide (2 ≤ length cs)%nat then 2 else 0)%nat, m') ∧
    rep m' s L' cs k' ∧ nodes m' = nodes m.
Proof.
  intros Hrep. destruct (List_first_spec _ _ _ _ _ Hrep) as (w1 & Hw1 & Hex1).
  pose proof (rep_move _ _ _ _ _ _ _ 1 (_length L) Hrep Hw1) as Hrep1.
  destruct (List_next_spec _ _ _ _ _ Hrep1) as (w2 & Hw2 & Hex2).
  eexists _, _, _. split; [|split; [by eapply rep_move|done]].
  unfold Stack_nextToTop. rewrite (bind_Some _ _ _ _ _ Hex1). rewrite Hex2.
  do 3 f_equal. unfold pos_next. repeat case_decide; lia.
Qed.

Lemma nextToTop_second_witness :
  rep ex_mem 1 ex_list ex_cells 2 ∧
  ∃ m' L' k', Stack_nextToTop 1 ex_mem = Some (Some (gInt 20), m') ∧
              rep m' 1 L' ex_cells k'.
Proof.
  split; [apply ex_mem_rep|].
  destruct (nextToTop_second ex_mem 1 ex_list ex_cells 2 ex_mem_rep)
    as (m' & L' & k' & Hex & Hrep & _).
  exists m', L', k'. split; [exact Hex|exact Hrep].
Defined.

(** X9.  On any stack, [pop()] just after [push(v)] returns [v] and leaves
    the elements that were there before the push, nodes and values, with
    the window on the sentinel; [top()] in between returns [v] too. *)
Theorem push_then_pop m s L cs k v :
  rep m s L cs k →
  ∃ m1 m2 m3 L3,
    Stack_push s v m = Some (tt, m1) ∧
    Stack_top s m1 = Some (v, m2) ∧
    Stack_pop s m2 = Some (v, m3) ∧ rep m3 s L3 cs O.
Proof.
  intros Hrep.
  destruct (Stack_push_spec _ _ _ _ _ v Hrep) as (m1 & L1 & b & k1 & Hex1 & Hrep1).
  destruct (List_first_spec _ _ _ _ _ Hrep1) as (w2 & Hw2 & Hex2).
  pose proof (rep_move _ _ _ _ _ _ _ 1 (_length L1) Hrep1 Hw2) as Hrep2.
  destruct (Stack_pop_spec _ _ _ _ _ _ _ Hrep2) as (m3 & L3 & Hex3 & Hrep3).
  eexists _, _, _, _. split; [exact Hex1|]. split; [|split; [exact Hex3|exact Hrep3]].
  unfold Stack_top. rewrite Hex2. do 2 f_equal.
Qed.

Lemma push_then_pop_witness :
  rep ex_mem 1 ex_list ex_cells 2 ∧
  ∃ m1 m2 m3 L3,
    Stack_push 1 (Some (gInt 5)) ex_mem = Some (tt, m1) ∧
    Stack_top 1 m1 = Some (Some (gInt 5), m2) ∧
    Stack_pop 1 m2 = Some (Some (gInt 5), m3) ∧ rep m3 1 L3 ex_cells O.
Proof.
  split; [apply ex_mem_rep|].
  apply (push_then_pop ex_mem 1 ex_list ex_cells 2 (Some (gInt 5)) ex_mem_rep).
Defined.

(** X10.  [top()] returns the first element of a stack and [bottom()] the
    last ([NULL] for both when there is none), and neither removes an
    element. *)
Theorem top_and_bottom m s L cs k :
  rep m s L cs k →
  (∃ m' L' k', Stack_top s m = Some (val_at cs (pos_next (length cs) 0), m') ∧
               rep m' s L' cs k' ∧ nodes m' = nodes m) ∧
  (∃ m' L' k', Stack_bottom s m = Some (val_at cs (length cs), m') ∧
               rep m' s L' cs k' ∧ nodes m' = nodes m).
Proof.
  intros Hrep. split.
  - destruct (List_first_spec _ _ _ _ _ Hrep) as (w' & Hw' & Hex).
    eexists _, _, _. split; [exact Hex|]. split; [by eapply rep_move|done].
  - destruct (List_last_spec _ _ _ _ _ Hrep) as (w' & Hw' & Hex).
    eexists _, _, _. split; [exact Hex|]. split; [by eapply rep_move|done].
Qed.

Lemma top_and_bottom_witness :
  rep ex_mem 1 ex_list ex_cells 2 ∧
  (∃ m' L' k', Stack_top 1 ex_mem = Some (Some (gInt 10), m') ∧ rep m' 1 L' ex_cells k') ∧
  (∃ m' L' k', Stack_bottom 1 ex_mem = Some (Some (gInt 30), m') ∧ rep m' 1 L' ex_cells k').
Proof.
  split; [apply ex_mem_rep|].
  destruct (top_and_bottom ex_mem 1 ex_list ex_cells 2 ex_mem_rep) as [Ht Hb].
  split.
  - destruct Ht as (m' & L' & k' & Hex & Hrep & _).
    exists m', L', k'. split; [exact Hex|exact Hrep].
  - destruct Hb as (m' & L' & k' & Hex & Hrep & _).
    exists m', L', k'. split; [exact Hex|exact Hrep].
Defined.

Lemma push_all_length vs m s L cs k :
  rep m s L cs k → _length L = Z.of_nat (length cs) →
  Z.of_nat (length cs) + Z.of_nat (length vs) ≤ INT_MAX →
  ∃ m' L' cs' k', push_all s vs m = Some (tt, m') ∧ rep m' s L' cs' k' ∧
                  length cs' = (length vs + length cs)%nat ∧
                  _length L' = Z.of_nat (length cs').
Proof.
  revert m L cs k. induction vs as [|v vs IH]; intros m L cs k Hrep Hn Hmax.
  - exists m, L, cs, k. done.
  - unfold INT_MAX in Hmax. simpl length in Hmax.
    destruct (List_prepend_spec _ _ _ _ _ v Hrep) as (h' & Hex & Hrep1 & _).
    destruct (IH _ _ _ _ Hrep1) as (m2 & L2 & cs2 & k2 & Hex2 & Hrep2 & Hlen & Hn2).
    + simpl. rewrite Hn. rewrite wrap_id by (unfold is_int, INT_MIN, INT_MAX; lia). lia.
    + unfold INT_MAX. simpl. lia.
    + exists m2, L2, cs2, k2. split; [|split; [done|split; [|done]]].
      * simpl. unfold Stack_push. rewrite bind_assoc.
        rewrite (bind_Some _ _ _ _ _ Hex). by rewrite bind_ret.
      * rewrite Hlen. simpl. lia.
Qed.

(** X11.  After pushes onto an empty stack (fewer than 2^31 of them),
    [size()] is the number of pushes, and [empty()] is true exactly when
    there was none. *)
Theorem size_counts_pushes m s L (vs : list (option gObject)) :
  rep m s L [] O → _length L = 0 → Z.of_nat (length vs) ≤ INT_MAX →
  ∃ m', push_all s vs m = Some (tt, m') ∧
        Stack_size s m' = Some (Z.of_nat (length vs), m') ∧
        Stack_empty s m' = Some (bool_decide (vs = []), m').
Proof.
  intros Hrep Hn Hmax.
  destruct (push_all_length vs _ _ _ _ _ Hrep Hn) as (m' & L' & cs' & k' & Hex & Hrep' & Hlen & Hn');
    [simpl; lia|].
  simpl in Hlen. rewrite Nat.add_0_r in Hlen. rewrite Hlen in Hn'.
  exists m'. split; [exact Hex|].
  unfold Stack_size, Stack_empty. rewrite (List_length_spec _ _ _ (proj1 Hrep')).
  rewrite (bind_Some _ _ _ _ _ (List_length_spec _ _ _ (proj1 Hrep'))).
  rewrite Hn'. split; [done|]. unfold ret. do 2 f_equal.
  apply bool_decide_ext. destruct vs; simpl; split; (done || lia).
Qed.

Lemma size_counts_pushes_witness :
  rep new_mem 1 new_list [] O ∧
  ∃ m', push_all 1 [Some (gInt 1); Some (gInt 2)] new_mem = Some (tt, m') ∧
        Stack_size 1 m' = Some (2, m') ∧ Stack_empty 1 m' = Some (false, m').
Proof.
  split; [apply new_mem_rep|].
  apply (size_counts_pushes new_mem 1 new_list [Some (gInt 1); Some (gInt 2)]
           new_mem_rep eq_refl).
  by compute.
Defined.

(** X12.  On a list whose counters are right (length below [INT_MAX]),
    [insert(v)], [next()], [remove()] in this order return [v] each, and
    leave the list as it was before the three: the same elements, window,
    index and length. *)
Theorem insert_next_remove m this L cs k v :
  rep m this L cs k → counted L cs k → Z.of_nat (length cs) < INT_MAX →
  ∃ m1 m2 m3,
    List_insert this v m = Some (v, m1) ∧
    List_next this m1 = Some (v, m2) ∧
    List_remove this m2 = Some (v, m3) ∧
    rep m3 this L cs k ∧ lists m3 = lists m.
Proof.
  intros Hrep (Hi & Hn & Hint) Hmax. unfold INT_MAX in Hmax.
  pose proof (rep_pos_le _ _ _ _ _ Hrep) as Hle. pose proof Hrep as (Hl & _ & Hw).
  destruct (List_insert_spec _ _ _ _ _ v Hrep) as (h1 & Hex1 & Hrep1 & _).
  set (b := fresh (dom (nodes m))) in *.
  set (cs1 := take k cs ++ (b, v) :: drop k cs) in *.
  assert (Hlen1 : length cs1 = S (length cs)).
  { unfold cs1. rewrite length_app, length_take. simpl. rewrite length_drop. lia. }
  assert (Hk1 : cs1 !! k = Some (b, v)).
  { unfold cs1. rewrite lookup_app_r by (rewrite length_take; lia).
    rewrite length_take. by replace (k - k `min` length cs)%nat with O by lia. }
  destruct (List_next_spec _ _ _ _ _ Hrep1) as (w2 & Hw2 & Hex2).
  unfold pos_next in Hw2, Hex2. rewrite decide_True in Hw2, Hex2 by lia.
  simpl in Hw2, Hex2. rewrite Hk1 in Hex2. simpl in Hex2.
  pose proof (rep_move _ _ _ _ _ (S k) _
                (next_index (with_length (wrap (_length L + 1)) L))
                (_length (with_length (wrap (_length L + 1)) L)) Hrep1 Hw2) as Hrep2.
  simpl in Hrep2.
  destruct (List_remove_spec _ _ _ _ _ _ _ Hrep2 Hk1) as (h3 & p & Hex3 & Hrep3 & _).
  simpl in Hex3, Hrep3.
  assert (Hdel : delete k cs1 = cs).
  { unfold cs1. rewrite delete_take_drop.
    rewrite take_app_le by (rewrite length_take; lia).
    rewrite take_take. replace (k `min` k)%nat with k by lia.
    rewrite drop_app_ge by (rewrite length_take; lia).
    rewrite length_take. replace (S k - k `min` length cs)%nat with 1%nat by lia.
    simpl. rewrite drop_0. apply take_drop. }
  rewrite Hdel in Hrep3.
  assert (Hp : p = win L).
  { destruct Hrep3 as (_ & _ & Hk3). simpl in Hk3. rewrite Hw in Hk3. by injection Hk3. }
  assert (Hidx : wrap (next_index (with_length (wrap (_length L + 1)) L) - 1) = _index L).
  { unfold next_index. simpl. rewrite Hi, Hn.
    rewrite (wrap_id (Z.of_nat k + 1)) by (unfold is_int, INT_MIN, INT_MAX; lia).
    rewrite (wrap_id (Z.of_nat (length cs) + 1)) by (unfold is_int, INT_MIN, INT_MAX; lia).
    rewrite decide_False by lia.
    rewrite wrap_id by (unfold is_int, INT_MIN, INT_MAX; lia). lia. }
  assert (Hlenb : wrap (wrap (_length L + 1) - 1) = _length L).
  { rewrite Hn. rewrite (wrap_id (_ + 1)) by (unfold is_int, INT_MIN, INT_MAX; lia).
    rewrite wrap_id by (unfold is_int, INT_MIN, INT_MAX; lia). lia. }
  rewrite Hidx, Hlenb, Hp in Hex3, Hrep3.
  replace (MkList (header L) (win L) (_index L) (_length L)) with L in Hex3, Hrep3
    by by destruct L.
  rewrite !insert_insert_eq in Hex3, Hrep3.
  rewrite (insert_id (lists m) this L Hl) in Hex3, Hrep3.
  eexists _, _, _. split; [exact Hex1|]. split; [exact Hex2|].
  split; [exact Hex3|]. split; [exact Hrep3|done].
Qed.

Lemma insert_next_remove_witness :
  rep ex_mem 1 ex_list ex_cells 2 ∧
  ∃ m1 m2 m3,
    List_insert 1 (Some (gInt 25)) ex_mem = Some (Some (gInt 25), m1) ∧
    List_next 1 m1 = Some (Some (gInt 25), m2) ∧
    List_remove 1 m2 = Some (Some (gInt 25), m3) ∧
    rep m3 1 ex_list ex_cells 2.
Proof.
  split; [apply ex_mem_rep|].
  destruct (insert_next_remove ex_mem 1 ex_list ex_cells 2 (Some (gInt 25))
              ex_mem_rep ex_mem_counted eq_refl)
    as (m1 & m2 & m3 & H1 & H2 & H3 & H4 & _).
  exists m1, m2, m3. split; [exact H1|]. split; [exact H2|]. split; [exact H3|exact H4].
Defined.

(** Two lists, [1, 2, 3] and [4, 5], the window of each on its sentinel. *)
Definition two_ops : list op :=
  [OpNew; OpNew;
   OpAppend 1 (Some (gInt 1)); OpAppend 1 (Some (gInt 2)); OpAppend 1 (Some (gInt 3));
   OpAppend 2 (Some (gInt 4)); OpAppend 2 (Some (gInt 5))].
Definition two_mem : mem := default mem_empty (run_ops two_ops mem_empty).
Definition two_cells_a : list (positive * option gObject) :=
  [(3%positive, Some (gInt 1)); (4%positive, Some (gInt 2)); (5%positive, Some (gInt 3))].
Definition two_cells_b : list (positive * option gObject) :=
  [(6%positive, Some (gInt 4)); (7%positive, Some (gInt 5))].

Lemma two_mem_reachable : reachable two_mem.
Proof. apply (reachable_run_ops two_ops mem_empty); [constructor | by vm_compute]. Qed.

Lemma two_mem_rep_a : rep two_mem 1 (MkList 1 1 0 3) two_cells_a O.
Proof. compute_done. Qed.

Lemma two_mem_rep_b : rep two_mem 2 (MkList 2 2 0 2) two_cells_b O.
Proof. compute_done. Qed.

Lemma two_mem_disjoint :
  (header (MkList 1 1 0 3) :: two_cells_a.*1) ## (header (MkList 2 2 0 2) :: two_cells_b.*1).
Proof.
  intros x Hx Hy. simpl in Hx, Hy.
  repeat (apply elem_of_cons in Hx as [->|Hx]);
    [| | | |by apply elem_of_nil in Hx];
    repeat (apply elem_of_cons in Hy as [Hy|Hy]; [discriminate Hy|]);
    by apply elem_of_nil in Hy.
Qed.

(** X13.  [A.append(B)] for two lists with no node in common, the counters of
    both right, [B]'s window on its sentinel and the two lengths summing to
    an [int]: [A] holds its elements and then those of [B], its window and
    index as before; [B] is empty; the counters of both are right. *)
Theorem append_list_merges m this l LA ca ka LB cb :
  this ≠ l → rep m this LA ca ka → counted LA ca ka →
  rep m l LB cb O → counted LB cb O →
  (header LA :: ca.*1) ## (header LB :: cb.*1) →
  Z.of_nat (length ca) + Z.of_nat (length cb) ≤ INT_MAX →
  ∃ m' LA' LB',
    List_append_list this l m = Some (this, m') ∧
    rep m' this LA' (ca ++ cb) ka ∧ counted LA' (ca ++ cb) ka ∧
    rep m' l LB' [] O ∧ counted LB' [] O.
Proof.
  intros Hne Hra (Hia & Hna & _) Hrb (Hib & Hnb & _) Hdis Hmax. unfold INT_MAX in Hmax.
  destruct (List_append_list_counters _ _ _ _ _ _ _ _ _ Hne Hra Hrb Hdis)
    as (m' & LA' & LB' & Hex & Hra' & Hna' & Hia' & Hrb' & _ & Hnb' & _ & Hib').
  exists m', LA', LB'. split; [exact Hex|]. split; [exact Hra'|].
  split; [|split; [exact Hrb'|]].
  - unfold counted. rewrite Hia', Hna', Hna, Hnb, length_app.
    rewrite wrap_id by (unfold is_int, INT_MIN, INT_MAX; lia).
    unfold is_int, INT_MIN, INT_MAX. lia.
  - unfold counted. rewrite Hib', Hnb', Hib. simpl.
    unfold is_int, INT_MIN, INT_MAX. lia.
Qed.

Lemma append_list_merges_witness :
  rep two_mem 1 (MkList 1 1 0 3) two_cells_a O ∧
  rep two_mem 2 (MkList 2 2 0 2) two_cells_b O ∧
  ∃ m' LA' LB',
    List_append_list 1 2 two_mem = Some (1%positive, m') ∧
    rep m' 1 LA' (two_cells_a ++ two_cells_b) O ∧ _length LA' = 5 ∧
    rep m' 2 LB' [] O ∧ _length LB' = 0 ∧ _index LB' = 0.
Proof.
  split; [apply two_mem_rep_a|]. split; [apply two_mem_rep_b|].
  destruct (append_list_merges two_mem 1 2 (MkList 1 1 0 3) two_cells_a O
              (MkList 2 2 0 2) two_cells_b)
    as (m' & LA' & LB' & Hex & Hra & (_ & Hna & _) & Hrb & (Hib & Hnb & _)).
  - discriminate.
  - apply two_mem_rep_a.
  - by compute.
  - apply two_mem_rep_b.
  - by compute.
  - apply two_mem_disjoint.
  - by compute.
  - exists m', LA', LB'. split; [exact Hex|]. split; [exact Hra|]. split; [exact Hna|].
    split; [exact Hrb|]. split; [exact Hnb|exact Hib].
Defined.

(** X14.  A list appended to itself loses its elements: [A.append(A)] returns
    [A] and leaves it with its sentinel alone in its ring, the window on
    it and a length of 0; the index is as before. *)
Theorem append_self_empties m this L cs k :
  rep m this L cs k →
  ∃ m' L',
    List_append_list this this m = Some (this, m') ∧
    rep m' this L' [] O ∧ singleton_ring (nodes m') (header L') ∧
    _length L' = 0 ∧ _index L' = _index L.
Proof.
  intros Hrep.
  destruct (List_append_list_self _ _ _ _ _ Hrep) as (h' & Hex & Hrep' & _).
  eexists _, _. split; [exact Hex|]. split; [exact Hrep'|].
  split; [|done]. destruct Hrep' as (_ & ((_ & Hp) & _) & _). exact Hp.
Qed.

Lemma append_self_empties_witness :
  rep ex_mem 1 ex_list ex_cells 2 ∧
  ∃ m' L', List_append_list 1 1 ex_mem = Some (1%positive, m') ∧
           rep m' 1 L' [] O ∧ _length L' = 0 ∧ _index L' = 2.
Proof.
  split; [apply ex_mem_rep|].
  destruct (append_self_empties ex_mem 1 ex_list ex_cells 2 ex_mem_rep)
    as (m' & L' & Hex & Hrep & _ & Hn & Hi).
  exists m', L'. split; [exact Hex|]. split; [exact Hrep|]. split; [exact Hn|exact Hi].
Defined.


(** ** One list and the others *)

(** The lists an operation works on. *)
Definition op_lists (o : op) : list positive :=
  match o with
  | OpNew => []
  | OpAppendList l l' => [l; l']
  | OpInsert l _ | OpPrepend l _ | OpAppend l _ | OpSetVal l _ | OpGetAt l _
  | OpRemove l | OpVal l | OpNext l | OpPrev l | OpFirst l | OpLast l => [l]
  end.

Section isolation.
Implicit Types (m : mem) (L : List) (ρ : positive → list (positive * option gObject)).

Lemma kept_by_frame m l' L' cs' k' h1 ls1 F F' :
  rep m l' L' cs' k' → frame (nodes m) h1 F F' →
  (header L' :: cs'.*1) ## F → ls1 !! l' = Some L' →
  rep (Mem h1 ls1) l' L' cs' k'.
Proof.
  intros (_ & Hs & Hk) [Hfr _] Hdis Hl. split; [done|]. split; [|done]. simpl.
  eapply shape_ext; [done|]. intros x Hx. apply Hfr.
  - by eapply shape_alloc.
  - intros Hin. by apply (Hdis x).
Qed.

Lemma kept_by_move m l l' L' cs' k' L1 :
  l ≠ l' → rep m l' L' cs' k' → rep (upd_list l L1 m) l' L' cs' k'.
Proof.
  intros Hne (Hl & Hs & Hk). split; [|done]. simpl. by rewrite lookup_insert_ne.
Qed.
End isolation.

(** X16.  In a store that a program gets to, an operation on one list, or on
    two for [append] of a list, or the making of a list, leaves every other
    list as it is: its fields, its nodes and their values. *)
Theorem other_lists_untouched m o l' L' :
  reachable m → op_ok m o → lists m !! l' = Some L' → l' ∉ op_lists o →
  ∃ r m1 cs' k',
    run_op o m = Some (r, m1) ∧ lists m1 !! l' = Some L' ∧
    rep m l' L' cs' k' ∧ rep m1 l' L' cs' k'.
Proof.
  intros Hreach Hok Hl' Hnot. destruct (reachable_inv _ Hreach) as [ρ Hinv].
  pose proof Hinv as [H1 H2].
  destruct (inv_rep _ _ _ _ Hinv Hl') as [k' Hrep'].
  assert (Hframe : ∀ l L, l ≠ l' → lists m !! l = Some L →
            ∀ h1 L1 F', frame (nodes m) h1 (header L :: (ρ l).*1) F' →
            lists (Mem h1 (<[l := L1]> (lists m))) !! l' = Some L' ∧
            rep (Mem h1 (<[l := L1]> (lists m))) l' L' (ρ l') k').
  { intros l L Hne Hl h1 L1 F' Hfr.
    assert ((<[l := L1]> (lists m)) !! l' = Some L') as Hlk by by rewrite lookup_insert_ne.
    split; [done|]. eapply kept_by_frame; [done..| |done].
    eapply H2; [|done..]. by intros ->. }
  assert (Hmove : ∀ l L1, l ≠ l' →
            lists (upd_list l L1 m) !! l' = Some L' ∧
            rep (upd_list l L1 m) l' L' (ρ l') k').
  { intros l L1 Hne. split; [simpl; by rewrite lookup_insert_ne|by apply kept_by_move]. }
  destruct o as [|l v|l v|l v|l l2|l|l|l v|l pt|l|l|l|l]; simpl in Hok, Hnot.
  - (* List() *)
    destruct (inv_new _ _ Hinv) as [Hex _].
    assert (Hfresh : fresh (dom (lists m)) ≠ l').
    { intros E. pose proof (is_fresh (dom (lists m))) as Hf. rewrite E in Hf.
      apply Hf. apply elem_of_dom. eauto. }
    eexists _, _, (ρ l'), k'. split; [|split; [|split; [done|]]].
    + unfold run_op. by rewrite (bind_Some _ _ _ _ _ Hex).
    + simpl. by rewrite lookup_insert_ne.
    + destruct Hrep' as (_ & Hs & Hk). split; [simpl; by rewrite lookup_insert_ne|].
      split; [|done]. simpl. eapply shape_ext; [done|].
      intros x Hx. rewrite lookup_insert_ne; [done|].
      intros <-. apply (fresh_not_alloc (nodes m)). by eapply shape_alloc.
  - destruct Hok as [L Hl]. destruct (inv_rep _ _ _ _ Hinv Hl) as [k Hrep].
    assert (l ≠ l') as Hne by (intros ->; apply Hnot; by left).
    destruct (List_insert_spec _ _ _ _ _ v Hrep) as (h' & Hex & _ & Hfr).
    pose proof (λ L1, Hframe _ _ Hne Hl _ L1 _ Hfr) as Hk.
    eexists _, _, (ρ l'), k'.
    split; [unfold run_op; by rewrite (bind_Some _ _ _ _ _ Hex)|].
    split; [apply Hk|split; [done|apply Hk]].
  - destruct Hok as [L Hl]. destruct (inv_rep _ _ _ _ Hinv Hl) as [k Hrep].
    assert (l ≠ l') as Hne by (intros ->; apply Hnot; by left).
    destruct (List_prepend_spec _ _ _ _ _ v Hrep) as (h' & Hex & _ & Hfr).
    pose proof (λ L1, Hframe _ _ Hne Hl _ L1 _ Hfr) as Hk.
    eexists _, _, (ρ l'), k'.
    split; [unfold run_op; by rewrite (bind_Some _ _ _ _ _ Hex)|].
    split; [apply Hk|split; [done|apply Hk]].
  - destruct Hok as [L Hl]. destruct (inv_rep _ _ _ _ Hinv Hl) as [k Hrep].
    assert (l ≠ l') as Hne by (intros ->; apply Hnot; by left).
    destruct (List_append_spec _ _ _ _ _ v Hrep) as (h' & Hex & _ & Hfr).
    pose proof (λ L1, Hframe _ _ Hne Hl _ L1 _ Hfr) as Hk.
    eexists _, _, (ρ l'), k'.
    split; [unfold run_op; by rewrite (bind_Some _ _ _ _ _ Hex)|].
    split; [apply Hk|split; [done|apply Hk]].
  - (* append of a list *)
    destruct Hok as [[LA Hla] [LB Hlb]].
    assert (l ≠ l') as Hne by (intros ->; apply Hnot; by left).
    assert (l2 ≠ l') as Hne2 by (intros ->; apply Hnot; right; by left).
    destruct (inv_rep _ _ _ _ Hinv Hla) as [ka Hrepa].
    destruct (decide (l = l2)) as [<-|Hd].
    + destruct (List_append_list_self _ _ _ _ _ Hrepa) as (h' & Hex & _ & Hfr).
      pose proof (λ L1, Hframe _ _ Hne Hla _ L1 _ Hfr) as Hk.
      eexists _, _, (ρ l'), k'.
      split; [unfold run_op; by rewrite (bind_Some _ _ _ _ _ Hex)|].
      split; [apply Hk|split; [done|apply Hk]].
    + destruct (inv_rep _ _ _ _ Hinv Hlb) as [kb Hrepb].
      pose proof (H2 _ _ _ _ Hd Hla Hlb) as Hdis.
      destruct (List_append_list_spec _ _ _ _ _ _ _ _ _ Hd Hrepa Hrepb Hdis)
        as (h' & Hex & _ & _ & Hfr).
      assert (Hlk : (<[l2 := MkList (header LB) (header LB) (_index LB) 0]>
                      (<[l := with_length (wrap (_length LA + _length LB)) LA]> (lists m)))
                    !! l' = Some L') by by rewrite !lookup_insert_ne.
      eexists _, _, (ρ l'), k'.
      split; [unfold run_op; by rewrite (bind_Some _ _ _ _ _ Hex)|].
      split; [exact Hlk|split; [done|]].
      eapply kept_by_frame; [done|exact Hfr| |exact Hlk].
      intros x Hx [Hin|Hin]%elem_of_app.
      * eapply (H2 l' l); [by intros ->|done..].
      * eapply (H2 l' l2); [by intros ->|done..].
  - (* remove *)
    destruct Hok as [L Hl]. destruct (inv_rep _ _ _ _ Hinv Hl) as [k Hrep].
    assert (l ≠ l') as Hne by (intros ->; apply Hnot; by left).
    destruct k as [|k].
    + exists (RVal None), m, (ρ l'), k'. split; [|done].
      unfold run_op. by rewrite (bind_Some _ _ _ _ _ (List_remove_header _ _ _ _ Hrep)).
    + assert (is_Some (ρ l !! k)) as [[w v] Hk].
      { apply lookup_lt_is_Some. apply rep_pos_le in Hrep. lia. }
      destruct (List_remove_spec _ _ _ _ _ _ _ Hrep Hk) as (h' & p & Hex & _ & Hfr & _).
      pose proof (λ L1, Hframe _ _ Hne Hl _ L1 _ Hfr) as Hkeep.
      eexists _, _, (ρ l'), k'.
      split; [unfold run_op; by rewrite (bind_Some _ _ _ _ _ Hex)|].
      split; [apply Hkeep|split; [done|apply Hkeep]].
  - (* val() *)
    destruct Hok as [L Hl]. destruct (inv_rep _ _ _ _ Hinv Hl) as [k Hrep].
    eexists _, m, (ρ l'), k'. split; [|done].
    unfold run_op. by rewrite (bind_Some _ _ _ _ _ (List_val_spec _ _ _ _ _ Hrep)).
  - (* val(v) *)
    destruct Hok as [L Hl]. destruct (inv_rep _ _ _ _ Hinv Hl) as [k Hrep].
    assert (l ≠ l') as Hne by (intros ->; apply Hnot; by left).
    destruct k as [|k].
    + exists (RVal None), m, (ρ l'), k'. split; [|done].
      unfold run_op.
      by rewrite (bind_Some _ _ _ _ _ (List_set_val_header _ _ _ _ v Hrep)).
    + assert (is_Some (ρ l !! k)) as [[w v0] Hk].
      { apply lookup_lt_is_Some. apply rep_pos_le in Hrep. lia. }
      destruct (List_set_val_spec _ _ _ _ _ _ _ v Hrep Hk) as (Hex & _ & Hfr).
      eexists _, _, (ρ l'), k'.
      split; [unfold run_op; by rewrite (bind_Some _ _ _ _ _ Hex)|].
      split; [done|split; [done|]].
      eapply kept_by_frame; [done|exact Hfr| |done].
        eapply H2; [|done..]. by intros ->.
  - (* GetAt *)
    destruct Hok as [[L Hl] Hpt]. destruct (inv_rep _ _ _ _ Hinv Hl) as [k Hrep].
    assert (l ≠ l') as Hne by (intros ->; apply Hnot; by left).
    destruct (H1 _ _ Hl) as (_ & _ & Hi & Hn).
    destruct (decide (pt < 1 ∨ pt > _length L)) as [Hout|Hin].
    + exists (RVal None), m, (ρ l'), k'. split; [|done].
      unfold run_op. by rewrite (bind_Some _ _ _ _ _ (List_GetAt_out _ _ _ _ Hl Hout)).
    + destruct (List_GetAt_in _ _ _ _ _ pt Hrep Hi Hpt) as (k1 & w' & Hk1 & _ & Hex);
        [lia|].
      destruct (Hmove l (MkList (header L) w' pt (_length L)) Hne) as [Ha Hb].
      eexists _, _, (ρ l'), k'.
      split; [unfold run_op; by rewrite (bind_Some _ _ _ _ _ Hex)|].
      split; [exact Ha|split; [done|exact Hb]].
  - destruct Hok as [L Hl]. destruct (inv_rep _ _ _ _ Hinv Hl) as [k Hrep].
    assert (l ≠ l') as Hne by (intros ->; apply Hnot; by left).
    destruct (List_next_spec _ _ _ _ _ Hrep) as (w' & _ & Hex).
    destruct (Hmove l (MkList (header L) w' (next_index L) (_length L)) Hne) as [Ha Hb].
    eexists _, _, (ρ l'), k'.
    split; [unfold run_op; by rewrite (bind_Some _ _ _ _ _ Hex)|].
    split; [exact Ha|split; [done|exact Hb]].
  - destruct Hok as [L Hl]. destruct (inv_rep _ _ _ _ Hinv Hl) as [k Hrep].
    assert (l ≠ l') as Hne by (intros ->; apply Hnot; by left).
    destruct (List_prev_spec _ _ _ _ _ Hrep) as (w' & _ & Hex).
    destruct (Hmove l (MkList (header L) w' (prev_index L) (_length L)) Hne) as [Ha Hb].
    eexists _, _, (ρ l'), k'.
    split; [unfold run_op; by rewrite (bind_Some _ _ _ _ _ Hex)|].
    split; [exact Ha|split; [done|exact Hb]].
  - destruct Hok as [L Hl]. destruct (inv_rep _ _ _ _ Hinv Hl) as [k Hrep].
    assert (l ≠ l') as Hne by (intros ->; apply Hnot; by left).
    destruct (List_first_spec _ _ _ _ _ Hrep) as (w' & _ & Hex).
    destruct (Hmove l (MkList (header L) w' 1 (_length L)) Hne) as [Ha Hb].
    eexists _, _, (ρ l'), k'.
    split; [unfold run_op; by rewrite (bind_Some _ _ _ _ _ Hex)|].
    split; [exact Ha|split; [done|exact Hb]].
  - destruct Hok as [L Hl]. destruct (inv_rep _ _ _ _ Hinv Hl) as [k Hrep].
    assert (l ≠ l') as Hne by (intros ->; apply Hnot; by left).
    destruct (List_last_spec _ _ _ _ _ Hrep) as (w' & _ & Hex).
    destruct (Hmove l (MkList (header L) w' (_length L) (_length L)) Hne) as [Ha Hb].
    eexists _, _, (ρ l'), k'.
    split; [unfold run_op; by rewrite (bind_Some _ _ _ _ _ Hex)|].
    split; [exact Ha|split; [done|exact Hb]].
Qed.

Lemma other_lists_untouched_witness :
  reachable two_mem ∧
  ∃ r m1 cs' k',
    run_op (OpRemove 1) two_mem = Some (r, m1) ∧
    lists m1 !! 2%positive = Some (MkList 2 2 0 2) ∧
    rep two_mem 2 (MkList 2 2 0 2) cs' k' ∧ rep m1 2 (MkList 2 2 0 2) cs' k'.
Proof.
  split; [apply two_mem_reachable|].
  apply (other_lists_untouched two_mem (OpRemove 1) 2 (MkList 2 2 0 2) two_mem_reachable).
  - compute_done.
  - apply two_mem_rep_b.
  - simpl. intros Hin. apply elem_of_cons in Hin as [Hin|Hin]; [discriminate Hin|].
    by apply elem_of_nil in Hin.
Defined.

(** ** The node functions on their own *)

Section node_round_trips.
Implicit Types (h : gmap positive ListNode) (m : mem).

(** Two heaps with the same fields at every address are the same heap. *)
Lemma heap_ext h h' :
  (∀ x, nextf h' x = nextf h x) → (∀ x, prevf h' x = prevf h x) →
  (∀ x, valf h' x = valf h x) → h' = h.
Proof.
  intros Hn Hp Hv. apply map_eq. intros x.
  specialize (Hn x). specialize (Hp x). specialize (Hv x).
  unfold nextf, prevf, valf in *.
  destruct (h' !! x) as [[v1 n1 p1]|], (h !! x) as [[v2 n2 p2]|];
    simpl in *; congruence.
Qed.
End node_round_trips.

(** Two nodes, each linked to itself. *)
Definition pair_mem : mem :=
  default mem_empty
    (snd <$> (new_ListNode None ;;; new_ListNode (Some (gInt 5))) mem_empty).

(** X17.  [a->insert(b)] of a node [b] linked to itself, after a node [a]
    whose successor points back to it, followed by [b->remove()], gives the
    store it started from: every link is as before and [b] is linked to
    itself again. *)
Theorem node_insert_then_remove m a b c v :
  edge (nodes m) a c → nodes m !! b = Some (Node v b b) → b ≠ a → b ≠ c →
  (ListNode_insert a b ;;; ListNode_remove b) m = Some (b, m).
Proof.
  intros [Hac Hca] Hb Hba Hbc.
  assert (Haa : alloc (nodes m) a) by by eapply nextf_alloc.
  assert (Hcc : alloc (nodes m) c) by by eapply prevf_alloc.
  assert (Hbb : alloc (nodes m) b) by (unfold alloc; by rewrite Hb).
  assert (Hbn : nextf (nodes m) b = Some b) by (unfold nextf; by rewrite Hb).
  assert (Hbp : prevf (nodes m) b = Some b) by (unfold prevf; by rewrite Hb).
  rewrite (bind_Some _ _ _ _ _ (ListNode_insert_exec _ _ _ _ Hac Hbb Hcc)).
  set (m1 := upd_nodes (ins_heap a b c) m).
  assert (H1 : ListNode_remove b m1 = Some (b, upd_nodes (rem_heap a b c) m1)).
  { apply ListNode_remove_exec; unfold m1; simpl.
    - rewrite prevf_ins_heap by done. rewrite decide_False by done.
      by rewrite decide_True.
    - rewrite nextf_ins_heap by done. rewrite decide_False by done.
      by rewrite decide_True.
    - by apply alloc_ins_heap.
    - by apply alloc_ins_heap. }
  rewrite H1. f_equal. f_equal. unfold m1, upd_nodes. simpl.
  destruct m as [h ls]. simpl in *. f_equal.
  assert (alloc (ins_heap a b c h) a) by by apply alloc_ins_heap.
  assert (alloc (ins_heap a b c h) b) by by apply alloc_ins_heap.
  assert (alloc (ins_heap a b c h) c) by by apply alloc_ins_heap.
  apply heap_ext.
  - intros x. rewrite nextf_rem_heap by done. rewrite nextf_ins_heap by done.
    repeat case_decide; by simplify_eq.
  - intros x. rewrite prevf_rem_heap by done. rewrite prevf_ins_heap by done.
    repeat case_decide; by simplify_eq.
  - intros x. by rewrite valf_rem_heap, valf_ins_heap.
Qed.

Lemma node_insert_then_remove_witness :
  edge (nodes pair_mem) 1 1 ∧
  (ListNode_insert 1 2 ;;; ListNode_remove 2) pair_mem = Some (2%positive, pair_mem).
Proof.
  split; [compute_done|].
  apply (node_insert_then_remove pair_mem 1 2 1 (Some (gInt 5))); compute_done.
Defined.

(** X18.  [a->splice(b)] done twice gives the store it started from, when the
    successors of [a] and of [b] point back to them: the second call undoes
    the exchange of successors of the first. *)
Theorem splice_twice_restores m a b an bn :
  edge (nodes m) a an → edge (nodes m) b bn →
  (ListNode_splice a b ;;; ListNode_splice a b) m = Some (tt, m).
Proof.
  intros [Ha Han] [Hb Hbn].
  assert (Haa : alloc (nodes m) a) by by eapply nextf_alloc.
  assert (Hbb : alloc (nodes m) b) by by eapply nextf_alloc.
  assert (Hana : alloc (nodes m) an) by by eapply prevf_alloc.
  assert (Hbna : alloc (nodes m) bn) by by eapply prevf_alloc.
  rewrite (bind_Some _ _ _ _ _ (ListNode_splice_exec _ _ _ _ _ Ha Hb Hana Hbna)).
  set (m1 := upd_nodes (splice_heap a b an bn) m).
  assert (Heq : a = b → an = bn) by (intros ->; congruence).
  assert (Heq' : an = bn → a = b) by (intros ->; congruence).
  assert (H1 : ListNode_splice a b m1
               = Some (tt, upd_nodes (splice_heap a b bn an) m1)).
  { apply ListNode_splice_exec; unfold m1; simpl.
    - rewrite nextf_splice_heap by done.
      repeat case_decide; simplify_eq; try done; try congruence.
    - rewrite nextf_splice_heap by done. by rewrite decide_True.
    - by apply alloc_splice_heap.
    - by apply alloc_splice_heap. }
  rewrite H1. f_equal. f_equal. unfold m1, upd_nodes. simpl.
  destruct m as [h ls]. simpl in *. f_equal.
  assert (alloc (splice_heap a b an bn h) a) by by apply alloc_splice_heap.
  assert (alloc (splice_heap a b an bn h) b) by by apply alloc_splice_heap.
  assert (alloc (splice_heap a b an bn h) an) by by apply alloc_splice_heap.
  assert (alloc (splice_heap a b an bn h) bn) by by apply alloc_splice_heap.
  apply heap_ext.
  - intros x. rewrite !nextf_splice_heap by done.
    repeat case_decide; simplify_eq; try done; try congruence.
  - intros x. rewrite !prevf_splice_heap by done.
    repeat case_decide; simplify_eq; try done; try congruence.
  - intros x. by rewrite !valf_splice_heap.
Qed.

Lemma splice_twice_restores_witness :
  edge (nodes two_mem) 5 1 ∧ edge (nodes two_mem) 2 6 ∧
  (ListNode_splice 5 2 ;;; ListNode_splice 5 2) two_mem = Some (tt, two_mem).
Proof.
  split; [compute_done|]. split; [compute_done|].
  apply (splice_twice_restores two_mem 5 2 1 6); compute_done.
Defined.

(** X19.  [splice] of the last node of one ring with the sentinel of another
    ring, the two sharing no node, makes one ring of the two: the nodes of
    the first in their order, then those of the second, then the sentinel of
    the second. No value and no list object is changed. *)
Theorem splice_joins_rings m ha la hb lb :
  ring (nodes m) ha la → ring (nodes m) hb lb → (ha :: la) ## (hb :: lb) →
  ∃ m', ListNode_splice (lastd ha la) hb m = Some (tt, m') ∧
        ring (nodes m') ha (la ++ lb ++ [hb]) ∧
        lists m' = lists m ∧
        (∀ x, valf (nodes m') x = valf (nodes m) x) ∧
        (∀ x, alloc (nodes m') x ↔ alloc (nodes m) x).
Proof.
  intros Hra Hrb Hdis.
  destruct (ring_prev _ _ _ O ha Hra eq_refl) as (a & Hla & Hpa).
  destruct (ring_next _ _ _ O hb Hrb eq_refl) as (bn & Hnb & Hpb).
  assert (Ea : a = lastd ha la).
  { pose proof (path_prev _ _ _ _ (proj2 Hra)) as E. rewrite Hla in E.
    by injection E. }
  assert (Eb : bn = hdd hb lb).
  { pose proof (path_next _ _ _ _ (proj2 Hrb)) as E. rewrite Hnb in E.
    by injection E. }
  subst a bn.
  assert (Han : nextf (nodes m) (lastd ha la) = Some ha).
  { destruct (ring_next _ _ _ _ _ Hra Hpa) as (x & Hx & Hpx).
    simpl in Hpx. unfold pos_next in Hpx. rewrite decide_False in Hpx by lia.
    simpl in Hpx. by injection Hpx as <-. }
  assert (alloc (nodes m) ha) by by eapply prevf_alloc.
  assert (alloc (nodes m) hb) by by eapply nextf_alloc.
  assert (alloc (nodes m) (lastd ha la)) by by eapply nextf_alloc.
  assert (alloc (nodes m) (hdd hb lb)).
  { eapply ring_alloc; [exact Hrb|]. pose proof (hdd_elem hb lb) as Hin.
    clear -Hin. set_solver. }
  exists (upd_nodes (splice_heap (lastd ha la) hb ha (hdd hb lb)) m).
  split; [by apply ListNode_splice_exec|]. simpl.
  split; [|split; [done|split]].
  - eapply ring_splice; [exact Hra|exact Hrb|done|..].
    + intros x. by rewrite nextf_splice_heap.
    + intros x. by rewrite prevf_splice_heap.
  - intros x. by rewrite valf_splice_heap.
  - intros x. by rewrite alloc_splice_heap.
Qed.

Lemma splice_joins_rings_witness :
  ring (nodes two_mem) 1 [3; 4; 5]%positive ∧ ring (nodes two_mem) 2 [6; 7]%positive ∧
  ∃ m', ListNode_splice 5 2 two_mem = Some (tt, m') ∧
        ring (nodes m') 1 [3; 4; 5; 6; 7; 2]%positive.
Proof.
  split; [compute_done|]. split; [compute_done|].
  destruct (splice_joins_rings two_mem 1 [3; 4; 5]%positive 2 [6; 7]%positive)
    as (m' & Hex & Hr & _).
  - compute_done.
  - compute_done.
  - apply two_mem_disjoint.
  - exists m'. split; [exact Hex|exact Hr].
Defined.

(** ** The constructor *)

(** X20.  [List()] on any store makes a list object at an address not in use,
    with a new sentinel that no node of the old store is: the list is
    empty, its window is the sentinel, its counters are 0, [length()] is 0,
    [isHead()] is true and [val()] is NULL; the nodes and the lists of the
    old store are all still there, unchanged. *)
Theorem new_list_is_empty m :
  ∃ l L m',
    List_new m = Some (l, m') ∧
    lists m !! l = None ∧ ¬ alloc (nodes m) (header L) ∧
    rep m' l L [] O ∧ counted L [] O ∧
    List_length l m' = Some (0, m') ∧
    List_isHead l m' = Some (true, m') ∧
    List_val l m' = Some (None, m') ∧
    nodes m ⊆ nodes m' ∧ lists m ⊆ lists m'.
Proof.
  set (b := fresh (dom (nodes m))). set (l := fresh (dom (lists m))).
  pose proof (fresh_not_alloc (nodes m)) as Hb. fold b in Hb.
  assert (Hl : lists m !! l = None) by (apply not_elem_of_dom; apply is_fresh).
  set (m' := Mem (<[b := Node None b b]> (nodes m)) (<[l := MkList b b 0 0]> (lists m))).
  assert (Hrep : rep m' l (MkList b b 0 0) [] O).
  { split; [apply lookup_insert_eq|]. split; [|done]. simpl. split; [|split].
    - split; [apply NoDup_singleton|]. simpl. split.
      + by rewrite nextf_insert, decide_True.
      + by rewrite prevf_insert, decide_True.
    - by rewrite valf_insert, decide_True.
    - apply Forall_nil_2. }
  exists l, (MkList b b 0 0), m'.
  split; [done|]. split; [done|]. split; [done|]. split; [done|].
  split; [by compute|].
  split; [by apply (List_length_spec m' l (MkList b b 0 0)), Hrep|].
  split.
  { unfold List_isHead. do 2 exec_l. unfold ret. simpl. by rewrite bool_decide_eq_true_2. }
  split; [apply (List_val_spec _ _ _ _ _ Hrep)|].
  split; simpl.
  - apply insert_subseteq. unfold alloc in Hb. by apply eq_None_not_Some.
  - by apply insert_subseteq.
Qed.
